(** * voice-transcriber-app: the transcription pipeline of [src/app.ts]

    A shallow embedding of [validateEnvVariables], [initializeClients],
    [downloadFile], [splitAudioFile], [transcribeAudio], [processAudioFile],
    [cleanupFiles] and [main] with its [app_mention] handler.

    The program is a sequence of awaited calls to collaborators (HTTP, the
    file system, ffmpeg, the transcription service, the chat client), each of
    which may reject.  It is embedded in a state-and-exception monad over a
    [World] that holds the scratch file system, the console and the list of
    calls made so far; what the collaborators answer is given by an [Env] of
    oracles that may look at the whole [World], so an answer may depend on
    everything that happened before.

    A string holds the UTF-8 encoding of the JavaScript string it stands
    for (the Japanese messages are written as such); strings are compared
    for [Array.prototype.sort()] by their UTF-16 code units.

    The file system is a map from the paths the program names to what is
    there.  A path is the string the program built: two spellings of one
    location are two keys, and a directory holds the names of its entries,
    not the entries.  The properties about calls (which were made, in what
    order, with what arguments and answers) do not depend on this; those
    about what exists afterwards are about the paths of the run itself. *)

From Stdlib Require Import QArith DecimalString.
From stdpp Require Import gmap strings list sorting.

(** ** JavaScript values used by the program *)

(** A thrown value.  Everything the program throws or catches is an [Error]
    carrying a message. *)
Record Error := mkError { message : string }.

Inductive Result (A : Type) :=
| Ok (a : A)
| Throw (e : Error).
Arguments Ok {A} a.
Arguments Throw {A} e.

(** The fields of a Slack file object that the program reads.  [id], [name]
    and [filetype] are only put into template literals, and [url_private] is
    only handed to the HTTP client; [mimetype] is dereferenced, and may be
    missing. *)
Record SlackFile := mkFile {
  id : string;
  name : string;
  url_private : string;
  mimetype : option string;
  filetype : string
}.

(** [event.files] may be undefined. *)
Record MentionEvent := mkEvent {
  files : option (list SlackFile);
  channel : string
}.

(** ** The world *)

(** [console.log(label, detail)], [console.error(label, error)] and
    [console.error(label, text)]. *)
Inductive LogEntry :=
| ConsoleLog (label detail : string)
| ConsoleError (label : string) (e : Error)
| ConsoleErrorText (label text : string).

(** A node of the scratch file system.  The entries of a directory are kept
    in the order [readdir] yields them. *)
Inductive Node :=
| File (size : N)
| Dir (entries : list string).

(** One entry per call made by the program, with what the collaborator
    answered: [failure = Some e] when the awaited call rejected with [e].
    [CallSplit] and [CallCleanup] mark the entry into [splitAudioFile] and
    [cleanupFiles]. *)
Inductive Call :=
| CallDownload (fileUrl outputPath : string) (failure : option Error)
| CallStat (path : string) (answer : Result N)
| CallMkdir (path : string) (failure : option Error)
| CallSplit (inputPath outputDir : string) (segmentDuration : N)
| CallFfprobe (inputPath : string) (failure : option Error)
| CallFfmpeg (inputPath outputPattern : string) (failure : option Error)
| CallReaddir (path : string) (answer : Result (list string))
| CallTranscribe (filePath : string) (answer : Result string)
| CallPostMessage (channelId text : string) (failure : option Error)
| CallSay (text : string) (failure : option Error)
| CallCleanup (tempFilePath : string) (outputDir : option string)
| CallAccess (path : string) (answer : bool)
| CallUnlink (path : string) (failure : option Error)
| CallRm (path : string) (failure : option Error).

Record World := mkWorld {
  w_fs : gmap string Node;     (* what exists under the scratch root *)
  w_console : list LogEntry;   (* oldest first *)
  w_calls : list Call          (* oldest first *)
}.

(** What the HTTP request and the streaming copy do: the whole body is
    written; or the request is rejected, before anything is written; or the
    response comes and the copy breaks off after [written] bytes. *)
Inductive FetchOutcome :=
| FetchOk (size : N)
| FetchRejected (e : Error)
| FetchBroken (written : N) (e : Error).

Inductive FfmpegEnd :=
| FfEnd
| FfError (e : Error) (stdout stderr : string).

(** One run of the ffmpeg command: the 'start' and 'progress' callbacks, the
    entries of the output directory when the process stops, and whether
    'end' or 'error' fired. *)
Record FfmpegRun := mkRun {
  ff_commandLine : string;
  ff_progress : list string;
  ff_listing : list string;
  ff_end : FfmpegEnd
}.

(** The collaborators.  An [option Error] answer is [Some e] when the call
    rejects with [e] whatever the state of the file system. *)
Record Env := mkEnv {
  http_get : World -> string -> string -> FetchOutcome;
  stat_err : World -> string -> option Error;
  mkdir_err : World -> string -> option Error;
  ffprobe_err : World -> string -> option Error;
  ffmpeg_run : World -> string -> string -> N -> FfmpegRun;
  readdir_err : World -> string -> option Error;
  whisper : World -> string -> Result string;
  postMessage_err : World -> string -> string -> option Error;
  say_err : World -> string -> option Error;
  access_err : World -> string -> option Error;
  unlink_err : World -> string -> option Error;
  rm_err : World -> string -> option Error
}.

(** ** The monad *)

Definition M (A : Type) : Type := World -> Result A * World.

Definition ret {A} (a : A) : M A := fun w => (Ok a, w).

Definition bind {A B} (m : M A) (k : A -> M B) : M B :=
  fun w =>
    match m w with
    | (Ok a, w') => k a w'
    | (Throw e, w') => (Throw e, w')
    end.

Definition throw {A} (e : Error) : M A := fun w => (Throw e, w).

(** [try { m } catch (e) { h e }] *)
Definition try_catch {A} (m : M A) (h : Error -> M A) : M A :=
  fun w =>
    match m w with
    | (Ok a, w') => (Ok a, w')
    | (Throw e, w') => h e w'
    end.

Declare Scope m_scope.
Delimit Scope m_scope with m.
Notation "x <- m ;; k" := (bind m (fun x => k))
  (at level 100, m at next level, right associativity) : m_scope.
Notation "m ;;; k" := (bind m (fun _ => k))
  (at level 100, right associativity) : m_scope.
Open Scope m_scope.

Definition call (c : Call) : M unit :=
  fun w => (Ok tt, mkWorld (w_fs w) (w_console w) (w_calls w ++ [c])).

Definition console (l : LogEntry) : M unit :=
  fun w => (Ok tt, mkWorld (w_fs w) (w_console w ++ [l]) (w_calls w)).

Definition console_log (label detail : string) : M unit :=
  console (ConsoleLog label detail).

Definition console_error (label : string) (e : Error) : M unit :=
  console (ConsoleError label e).

Definition console_error_text (label text : string) : M unit :=
  console (ConsoleErrorText label text).

Definition set_fs (f : gmap string Node -> gmap string Node) : M unit :=
  fun w => (Ok tt, mkWorld (f (w_fs w)) (w_console w) (w_calls w)).

(** The awaited call settles: it rejects with [e] or resolves. *)
Definition settle (failure : option Error) : M unit :=
  match failure with
  | Some e => throw e
  | None => ret tt
  end.

Definition settle_with {A} (answer : Result A) : M A :=
  fun w => (answer, w).

(** ** Strings *)

(** [s.startsWith(p)], on the bytes; for [p] in ASCII that is the same on
    the code units ([startsWith_code_units]). *)
Definition startsWith (s p : string) : bool := String.prefix p s.

(** A string in a condition is true when it is not empty. *)
Definition truthy (s : string) : bool := negb (s =? "")%string.

(** [path.join(dir, entry)] for a directory path and a plain entry name. *)
Definition path_join (dir entry : string) : string := dir +:+ "/" +:+ entry.

(** The line feed of a template literal. *)
Definition LF : string := String (Ascii.ascii_of_nat 10) EmptyString.

Definition string_of_nat (n : nat) : string :=
  NilEmpty.string_of_uint (Nat.to_uint n).

(** *** The code units of a string

    A JavaScript string is a sequence of UTF-16 code units, and that is
    what [Array.prototype.sort()] compares.  A string of this development
    holds the UTF-8 encoding of the JavaScript string it stands for;
    [code_units] gives the code units back.  A byte that is not part of a
    well-formed sequence stands for a lone surrogate of its own, so that
    every sequence of bytes stands for one JavaScript string. *)

Fixpoint bytes (s : string) : list N :=
  match s with
  | EmptyString => []
  | String a s' => Ascii.N_of_ascii a :: bytes s'
  end.

Definition continues (b : N) : bool := (0x80 <=? b)%N && (b <? 0xC0)%N.

(** The code point of a sequence of two, three and four bytes. *)
Definition point2 (b0 b1 : N) : N := ((b0 - 0xC0) * 64 + (b1 - 0x80))%N.
Definition point3 (b0 b1 b2 : N) : N :=
  ((b0 - 0xE0) * 4096 + (b1 - 0x80) * 64 + (b2 - 0x80))%N.
Definition point4 (b0 b1 b2 b3 : N) : N :=
  ((b0 - 0xF0) * 262144 + (b1 - 0x80) * 4096 + (b2 - 0x80) * 64 + (b3 - 0x80))%N.

(** Well-formed sequences: the shortest form only, no surrogate, nothing
    above U+10FFFF. *)
Definition is2 (b0 b1 : N) : bool :=
  (0xC0 <=? b0)%N && (b0 <? 0xE0)%N && continues b1 && (0x80 <=? point2 b0 b1)%N.
Definition is3 (b0 b1 b2 : N) : bool :=
  (0xE0 <=? b0)%N && (b0 <? 0xF0)%N && continues b1 && continues b2 &&
  (0x800 <=? point3 b0 b1 b2)%N &&
  ((point3 b0 b1 b2 <? 0xD800)%N || (0xE000 <=? point3 b0 b1 b2)%N).
Definition is4 (b0 b1 b2 b3 : N) : bool :=
  (0xF0 <=? b0)%N && (b0 <? 0xF8)%N && continues b1 && continues b2 && continues b3 &&
  (0x10000 <=? point4 b0 b1 b2 b3)%N && (point4 b0 b1 b2 b3 <? 0x110000)%N.

(** The surrogate pair of a code point above U+FFFF. *)
Definition high (p : N) : N := (0xD800 + (p - 0x10000) / 0x400)%N.
Definition low (p : N) : N := (0xDC00 + (p - 0x10000) mod 0x400)%N.

Definition stray (b : N) : N := (0xDC00 + b)%N.

Fixpoint utf16 (bs : list N) : list N :=
  match bs with
  | [] => []
  | b0 :: r0 =>
      if (b0 <? 0x80)%N then b0 :: utf16 r0 else
      match r0 with
      | b1 :: r1 =>
          if is2 b0 b1 then point2 b0 b1 :: utf16 r1 else
          match r1 with
          | b2 :: r2 =>
              if is3 b0 b1 b2 then point3 b0 b1 b2 :: utf16 r2 else
              match r2 with
              | b3 :: r3 =>
                  if is4 b0 b1 b2 b3
                  then high (point4 b0 b1 b2 b3) :: low (point4 b0 b1 b2 b3)
                       :: utf16 r3
                  else stray b0 :: utf16 r0
              | [] => stray b0 :: utf16 r0
              end
          | [] => stray b0 :: utf16 r0
          end
      | [] => stray b0 :: utf16 r0
      end
  end.

Definition code_units (s : string) : list N := utf16 (bytes s).

(** The bytes of one character and its code units. *)
Inductive Encodes : list N -> list N -> Prop :=
| Encodes_ascii b : (b < 0x80)%N -> Encodes [b] [b]
| Encodes_two b0 b1 : is2 b0 b1 = true -> Encodes [b0; b1] [point2 b0 b1]
| Encodes_three b0 b1 b2 :
    is3 b0 b1 b2 = true -> Encodes [b0; b1; b2] [point3 b0 b1 b2]
| Encodes_four b0 b1 b2 b3 :
    is4 b0 b1 b2 b3 = true ->
    Encodes [b0; b1; b2; b3]
      [high (point4 b0 b1 b2 b3); low (point4 b0 b1 b2 b3)]
| Encodes_stray b : (0x80 <= b < 0x100)%N -> Encodes [b] [stray b].

(** [x <= y] for two strings: the first code unit that differs decides,
    and a prefix comes first. *)
Fixpoint units_leb (u v : list N) : bool :=
  match u, v with
  | [], _ => true
  | _ :: _, [] => false
  | a :: u', b :: v' =>
      if (a <? b)%N then true else if (b <? a)%N then false else units_leb u' v'
  end.

Definition js_leb (x y : string) : bool := units_leb (code_units x) (code_units y).

Definition js_le (x y : string) : Prop := js_leb x y = true.

#[local] Instance js_le_dec : RelDecision js_le :=
  fun x y => decide (js_leb x y = true).

(** [Array.prototype.sort()] without a comparator, on an array of strings:
    the elements are put in the order of [js_le]. *)
Fixpoint sort_insert (x : string) (l : list string) : list string :=
  match l with
  | [] => [x]
  | y :: l' => if js_leb x y then x :: l else y :: sort_insert x l'
  end.

Fixpoint sort (l : list string) : list string :=
  match l with
  | [] => []
  | x :: l' => sort_insert x (sort l')
  end.

Definition fs_error (code syscall path : string) : Error :=
  mkError (code +:+ ", " +:+ syscall +:+ " '" +:+ path +:+ "'").

Definition ENOENT : string := "ENOENT: no such file or directory".
Definition EISDIR : string := "EISDIR: illegal operation on a directory".
Definition ENOTDIR : string := "ENOTDIR: not a directory".
Definition EEXIST : string := "EEXIST: file already exists".

Section Program.

Variable env : Env.

(** ** File-system calls ([fs.promises]) *)

(** [fsp.stat(path)], of which only [size] is read.  A directory reports
    the size of its own block. *)
Definition fsp_stat (path : string) : M N :=
  fun w =>
    let answer :=
      match stat_err env w path with
      | Some e => Throw e
      | None =>
          match w_fs w !! path with
          | Some (File size) => Ok size
          | Some (Dir _) => Ok 4096%N
          | None => Throw (fs_error ENOENT "stat" path)
          end
      end in
    (call (CallStat path answer) ;;; settle_with answer) w.

(** [fsp.mkdir(path, { recursive: true })]: a directory that is already
    there is left as it is; a file in its place is an error. *)
Definition fsp_mkdir (path : string) : M unit :=
  fun w =>
    let failure :=
      match mkdir_err env w path with
      | Some e => Some e
      | None =>
          match w_fs w !! path with
          | Some (File _) => Some (fs_error EEXIST "mkdir" path)
          | _ => None
          end
      end in
    (call (CallMkdir path failure) ;;;
     settle failure ;;;
     set_fs (fun fs => match fs !! path with
                       | Some _ => fs
                       | None => <[path := Dir []]> fs
                       end)) w.

Definition fsp_readdir (path : string) : M (list string) :=
  fun w =>
    let answer :=
      match readdir_err env w path with
      | Some e => Throw e
      | None =>
          match w_fs w !! path with
          | Some (Dir entries) => Ok entries
          | Some (File _) => Throw (fs_error ENOTDIR "scandir" path)
          | None => Throw (fs_error ENOENT "scandir" path)
          end
      end in
    (call (CallReaddir path answer) ;;; settle_with answer) w.

(** [fsp.access(path).then(() => true).catch(() => false)]: [false] when
    the path is missing, and when [fsp.access] rejects for another reason. *)
Definition fsp_access (path : string) : M bool :=
  fun w =>
    let answer :=
      match access_err env w path with
      | Some _ => false
      | None => bool_decide (is_Some (w_fs w !! path))
      end in
    (call (CallAccess path answer) ;;; ret answer) w.

Definition fsp_unlink (path : string) : M unit :=
  fun w =>
    let failure :=
      match unlink_err env w path with
      | Some e => Some e
      | None =>
          match w_fs w !! path with
          | Some (File _) => None
          | Some (Dir _) => Some (fs_error EISDIR "unlink" path)
          | None => Some (fs_error ENOENT "unlink" path)
          end
      end in
    (call (CallUnlink path failure) ;;;
     settle failure ;;;
     set_fs (delete path)) w.

(** [fsp.rm(path, { recursive: true, force: true })]: removes a file, or a
    directory with all its entries; a missing path is not an error. *)
Definition fsp_rm (path : string) : M unit :=
  fun w =>
    let failure := rm_err env w path in
    (call (CallRm path failure) ;;;
     settle failure ;;;
     set_fs (delete path)) w.

(** ** [downloadFile] *)

(** [fs.createWriteStream(outputPath)] makes the file, or empties the one
    that is there; a directory in its place cannot be opened for writing. *)
Definition open_failure (w : World) (outputPath : string) : option Error :=
  match w_fs w !! outputPath with
  | Some (Dir _) => Some (fs_error EISDIR "open" outputPath)
  | _ => None
  end.

Definition downloadFile (fileUrl outputPath : string) : M unit :=
  fun w =>
    match http_get env w fileUrl outputPath with
    | FetchRejected e =>
        (call (CallDownload fileUrl outputPath (Some e)) ;;; throw e) w
    | FetchBroken written e =>
        match open_failure w outputPath with
        | Some e' =>
            (call (CallDownload fileUrl outputPath (Some e')) ;;; throw e') w
        | None =>
            (call (CallDownload fileUrl outputPath (Some e)) ;;;
             set_fs (<[outputPath := File written]>) ;;;
             throw e) w
        end
    | FetchOk size =>
        match open_failure w outputPath with
        | Some e' =>
            (call (CallDownload fileUrl outputPath (Some e')) ;;; throw e') w
        | None =>
            (call (CallDownload fileUrl outputPath None) ;;;
             set_fs (<[outputPath := File size]>) ;;;
             console_log "File downloaded and saved:" outputPath) w
        end
    end.

(** ** [splitAudioFile] *)

Definition segments_of (entries : list string) : list string :=
  sort (filter (fun file => startsWith file "segment_" = true) entries).

Definition ffmpeg_callbacks (run : FfmpegRun) : M unit :=
  console_log "FFmpeg command:" (ff_commandLine run) ;;;
  foldr (fun percent k =>
           console_log "Processing: " (percent +:+ "% done") ;;; k)
        (ret tt) (ff_progress run).

(** [ffmpeg(inputPath) ... .run()]: gives which of 'end' and 'error' fired. *)
Definition run_ffmpeg (inputPath outputDir : string) (segmentDuration : N)
  : M FfmpegEnd :=
  fun w =>
    let run := ffmpeg_run env w inputPath outputDir segmentDuration in
    (call (CallFfmpeg inputPath (path_join outputDir "segment_%03d.mp3")
             match ff_end run with
             | FfEnd => None
             | FfError err _ _ => Some err
             end) ;;;
     ffmpeg_callbacks run ;;;
     set_fs (fun fs => match fs !! outputDir with
                       | Some (Dir _) => <[outputDir := Dir (ff_listing run)]> fs
                       | _ => fs
                       end) ;;;
     ret (ff_end run)) w.

(** [ffmpeg.ffprobe(inputPath, callback)]: gives the [err] the callback is
    called with. *)
Definition run_ffprobe (inputPath : string) : M (option Error) :=
  fun w =>
    let err := ffprobe_err env w inputPath in
    (call (CallFfprobe inputPath err) ;;; ret err) w.

Definition splitAudioFile (inputPath outputDir : string) (segmentDuration : N)
  : M (list string) :=
  call (CallSplit inputPath outputDir segmentDuration) ;;;
  probe <- run_ffprobe inputPath ;;
  match probe with
  | Some err => throw (mkError ("FFprobe failed: " +:+ message err))
  | None =>
      ended <- run_ffmpeg inputPath outputDir segmentDuration ;;
      match ended with
      | FfEnd =>
          try_catch
            (files <- fsp_readdir outputDir ;;
             ret (segments_of files))
            (fun err =>
               throw (mkError ("Failed to read output directory: "
                                 +:+ message err)))
      | FfError err stdout stderr =>
          console_error_text "FFmpeg stdout:" stdout ;;;
          console_error_text "FFmpeg stderr:" stderr ;;;
          throw (mkError ("FFmpeg failed: " +:+ message err))
      end
  end.

(** ** [transcribeAudio] *)

Definition transcribeAudio (filePath : string) : M string :=
  fun w =>
    let answer := whisper env w filePath in
    (call (CallTranscribe filePath answer) ;;; settle_with answer) w.

(** ** [cleanupFiles] *)

Definition cleanupFiles (tempFilePath : string) (outputDir : option string)
  : M unit :=
  call (CallCleanup tempFilePath outputDir) ;;;
  try_catch
    ((if truthy tempFilePath
      then (present <- fsp_access tempFilePath ;;
            if present then fsp_unlink tempFilePath else ret tt)
      else ret tt) ;;;
     match outputDir with
     | Some dir =>
         if truthy dir
         then (present <- fsp_access dir ;;
               if present then fsp_rm dir else ret tt)
         else ret tt
     | None => ret tt
     end)
    (fun cleanupError => console_error "Error during cleanup:" cleanupError).

(** ** [processAudioFile] *)

(** [stats.size / (1024 * 1024)].  [stats.size] is a whole number of bytes
    and the divisor is a power of two, so the quotient is exact; it is kept
    as a rational. *)
Definition fileSizeInMegabytes (size : N) : Q :=
  (inject_Z (Z.of_N size) / inject_Z (1024 * 1024))%Q.

(** [fileSizeInMegabytes > 25] *)
Definition exceedsLimit (size : N) : bool :=
  negb (Qle_bool (fileSizeInMegabytes size) 25).

Definition tempFilePath_of (file : SlackFile) : string :=
  "/tmp/" +:+ id file +:+ "." +:+ filetype file.

Definition outputDir_of (file : SlackFile) : string :=
  "/tmp/" +:+ id file +:+ "_segments".

Definition result_text (file : SlackFile) (transcriptionText : string) : string :=
  "文字起こし結果: (" +:+ name file +:+ "):" +:+ LF +:+ transcriptionText.

Definition postMessage (channelId text : string) : M unit :=
  fun w =>
    let failure := postMessage_err env w channelId text in
    (call (CallPostMessage channelId text failure) ;;; settle failure) w.

(** The [for (const segment of segments)] loop, [transcriptionText] being
    the text accumulated so far. *)
Fixpoint transcribeSegments (outputDir : string) (segments : list string)
    (transcriptionText : string) : M string :=
  match segments with
  | [] => ret transcriptionText
  | segment :: rest =>
      let segmentPath := path_join outputDir segment in
      console_log "Processing segment: " segmentPath ;;;
      text <- transcribeAudio segmentPath ;;
      transcribeSegments outputDir rest (transcriptionText +:+ text +:+ " ")
  end.

Definition postResult (file : SlackFile) (channelId transcriptionText : string)
  : M unit :=
  console_log "Transcription completed" "" ;;;
  postMessage channelId (result_text file transcriptionText) ;;;
  console_log "Transcription result posted to Slack" "".

(** The [try] block.  Next to its completion it gives the value the local
    variable [outputDir] has when the block is left, which is what the
    [finally] block reads. *)
Definition processAudioFile_try (file : SlackFile) (channelId : string)
  : World -> option string * Result unit * World :=
  fun w =>
    let tempFilePath := tempFilePath_of file in
    match (downloadFile (url_private file) tempFilePath ;;;
           fsp_stat tempFilePath) w with
    | (Throw error, w1) => (None, Throw error, w1)
    | (Ok size, w1) =>
        if exceedsLimit size then
          let outputDir := outputDir_of file in
          match (console_log "File size exceeds 25MB. Splitting the file..." "" ;;;
                 fsp_mkdir outputDir ;;;
                 segments <- splitAudioFile tempFilePath outputDir 300 ;;
                 console_log "File split into "
                   (string_of_nat (length segments) +:+ " segments") ;;;
                 transcriptionText <- transcribeSegments outputDir segments "" ;;
                 postResult file channelId transcriptionText) w1 with
          | (completion, w2) => (Some outputDir, completion, w2)
          end
        else
          match (transcriptionText <- transcribeAudio tempFilePath ;;
                 postResult file channelId transcriptionText) w1 with
          | (completion, w2) => (None, completion, w2)
          end
    end.

Definition processAudioFile (file : SlackFile) (channelId : string) : M unit :=
  fun w =>
    match (console_log "Processing audio file:" (name file)) w with
    | (_, w0) =>
        match processAudioFile_try file channelId w0 with
        | (outputDir, completion, w1) =>
            (* catch (error) { console.error(...); throw error; } *)
            let w2 := match completion with
                      | Throw error =>
                          snd (console_error "Error processing audio file:" error w1)
                      | Ok _ => w1
                      end in
            (* finally { await cleanupFiles(tempFilePath, outputDir); } *)
            match cleanupFiles (tempFilePath_of file) outputDir w2 with
            | (Ok _, w3) => (completion, w3)
            | (Throw cleanupError, w3) => (Throw cleanupError, w3)
            end
        end
    end.

(** ** The [app_mention] handler of [main] *)

Definition MSG_STARTED : string :=
  "音声ファイルを受け取りました。文字起こしを開始します。".
Definition MSG_NO_AUDIO : string :=
  "添付されたファイルに音声ファイルが含まれていません。".
Definition MSG_HELLO : string :=
  "こんにちは！音声ファイルを添付してメンションしていただければ、文字起こしを行います。".
Definition MSG_FAILED : string :=
  "申し訳ありません。文字起こし処理中にエラーが発生しました。".

Definition say (text : string) : M unit :=
  fun w =>
    let failure := say_err env w text in
    (call (CallSay text failure) ;;; settle failure) w.

(** The [for (const file of audioFiles)] loop. *)
Fixpoint processAll (audioFiles : list SlackFile) (channelId : string) : M unit :=
  match audioFiles with
  | [] => ret tt
  | file :: rest =>
      processAudioFile file channelId ;;;
      processAll rest channelId
  end.

(** [undefined.startsWith('audio/')] *)
Definition TypeError_startsWith : Error :=
  mkError "Cannot read properties of undefined (reading 'startsWith')".

(** [files.filter(file => file.mimetype.startsWith('audio/'))]: the callback
    throws on a file without [mimetype]. *)
Fixpoint audioFiles_of (fs : list SlackFile) : Result (list SlackFile) :=
  match fs with
  | [] => Ok []
  | file :: rest =>
      match mimetype file with
      | None => Throw TypeError_startsWith
      | Some type =>
          match audioFiles_of rest with
          | Ok audioFiles =>
              Ok (if startsWith type "audio/" then file :: audioFiles
                  else audioFiles)
          | Throw error => Throw error
          end
      end
  end.

Definition app_mention (event : MentionEvent) : M unit :=
  console_log "App mention event received:" "" ;;;
  try_catch
    (match files event with
     | Some ((_ :: _) as fs) =>
         audioFiles <- settle_with (audioFiles_of fs) ;;
         match audioFiles with
         | _ :: _ =>
             say MSG_STARTED ;;;
             processAll audioFiles (channel event)
         | [] => say MSG_NO_AUDIO
         end
     | _ => say MSG_HELLO
     end)
    (fun error =>
       console_error "Error in app_mention event handler:" error ;;;
       say MSG_FAILED).

End Program.

(** ** What a run did *)

(** The calls made, and the console entries written, while [m] ran from [w]. *)
Definition calls_during {X} (m : World -> X * World) (w : World) : list Call :=
  drop (length (w_calls w)) (w_calls (snd (m w))).

Definition console_during {X} (m : World -> X * World) (w : World)
  : list LogEntry :=
  drop (length (w_console w)) (w_console (snd (m w))).

(** The calls of [tr] that [f] picks, in order. *)
Definition select {B} (f : Call -> option B) (tr : list Call) : list B :=
  omap f tr.
Arguments select : simpl never.

(** The error a call rejected with, if it did. *)
Definition failure_of (c : Call) : option Error :=
  match c with
  | CallDownload _ _ failure | CallMkdir _ failure | CallFfprobe _ failure
  | CallFfmpeg _ _ failure | CallPostMessage _ _ failure | CallSay _ failure
  | CallUnlink _ failure | CallRm _ failure => failure
  | CallStat _ (Throw e) | CallReaddir _ (Throw e)
  | CallTranscribe _ (Throw e) => Some e
  | _ => None
  end.

Definition downloads (tr : list Call) : list (string * string * option Error) :=
  select (fun c => match c with
                   | CallDownload fileUrl outputPath failure =>
                       Some (fileUrl, outputPath, failure)
                   | _ => None
                   end) tr.

Definition stats (tr : list Call) : list (string * Result N) :=
  select (fun c => match c with
                   | CallStat path answer => Some (path, answer)
                   | _ => None
                   end) tr.

Definition readdirs (tr : list Call) : list (string * Result (list string)) :=
  select (fun c => match c with
                   | CallReaddir path answer => Some (path, answer)
                   | _ => None
                   end) tr.

Definition mkdirs (tr : list Call) : list string :=
  select (fun c => match c with CallMkdir path _ => Some path | _ => None end) tr.

Definition splits (tr : list Call) : list (string * string * N) :=
  select (fun c => match c with
                   | CallSplit inputPath outputDir d => Some (inputPath, outputDir, d)
                   | _ => None
                   end) tr.

Definition transcriptions (tr : list Call) : list (string * Result string) :=
  select (fun c => match c with
                   | CallTranscribe filePath answer => Some (filePath, answer)
                   | _ => None
                   end) tr.

Definition posted (tr : list Call) : list (string * string) :=
  select (fun c => match c with
                   | CallPostMessage channelId text _ => Some (channelId, text)
                   | _ => None
                   end) tr.

Definition said (tr : list Call) : list string :=
  select (fun c => match c with CallSay text _ => Some text | _ => None end) tr.

Definition cleanups (tr : list Call) : list (string * option string) :=
  select (fun c => match c with
                   | CallCleanup tempFilePath outputDir => Some (tempFilePath, outputDir)
                   | _ => None
                   end) tr.

(** What the run of a file downloads, and where to. *)
Definition target (file : SlackFile) : string * string :=
  (url_private file, tempFilePath_of file).

(** The calls made by [cleanupFiles] after its entry. *)
Definition is_removal (c : Call) : bool :=
  match c with
  | CallAccess _ _ | CallUnlink _ _ | CallRm _ _ => true
  | _ => false
  end.

(** The calls made by the segment loop. *)
Definition is_transcribe_call (c : Call) : bool :=
  match c with CallTranscribe _ _ => true | _ => false end.

(** The error [processAudioFile] throws when call [c] rejects with [e]: the
    callbacks of [splitAudioFile] make a new error, everything else lets the
    error of the call through. *)
Definition propagated (c : Call) (e : Error) : Error :=
  match c with
  | CallFfprobe _ _ => mkError ("FFprobe failed: " +:+ message e)
  | CallFfmpeg _ _ _ => mkError ("FFmpeg failed: " +:+ message e)
  | CallReaddir _ _ => mkError ("Failed to read output directory: " +:+ message e)
  | _ => e
  end.

(** The errors logged by the [catch] block of [cleanupFiles]. *)
Definition cleanup_errors (ls : list LogEntry) : list Error :=
  omap (fun l => match l with
                 | ConsoleError label e =>
                     if (label =? "Error during cleanup:")%string then Some e else None
                 | ConsoleLog _ _ | ConsoleErrorText _ _ => None
                 end) ls.

(** The text built by the segment loop from the texts of the segments: each
    text is followed by one space. *)
Definition spaced (texts : list string) : string :=
  foldr (fun text rest => text +:+ " " +:+ rest) "" texts.

(** The [%03d] of the output pattern, and the name ffmpeg gives segment [i]. *)
Definition pad3 (i : nat) : string :=
  let digits := string_of_nat i in
  match String.length digits with
  | 1 => "00" +:+ digits
  | 2 => "0" +:+ digits
  | _ => digits
  end.

Definition segment_name (i : nat) : string := "segment_" +:+ pad3 i +:+ ".mp3".

(** [haystack.includes(needle)] *)
Fixpoint includes (haystack needle : string) : bool :=
  String.prefix needle haystack ||
  match haystack with
  | EmptyString => false
  | String _ rest => includes rest needle
  end.

(** The environment [env] with other answers of [fsp.unlink] and [fsp.rm]. *)
Definition with_removal (env : Env)
    (unlink rm : World -> string -> option Error) : Env :=
  mkEnv (http_get env) (stat_err env) (mkdir_err env) (ffprobe_err env)
        (ffmpeg_run env) (readdir_err env) (whisper env) (postMessage_err env)
        (say_err env) (access_err env) unlink rm.

(** [fsp.access] rejects for missing paths only. *)
Definition access_reliable (env : Env) : Prop :=
  forall w path, access_err env w path = None.

(** The completion of an awaited call that rejects with [failure]. *)
Definition completion (failure : option Error) : Result unit :=
  match failure with
  | Some e => Throw e
  | None => Ok tt
  end.

(** ** The shape of a run

    The calls a run can make, by the way it ends.  These relations are what
    the specifications of the functions below are stated with. *)

(** The calls of the segment loop for segments that were transcribed. *)
Definition transcribed (dir : string) (segments texts : list string) : list Call :=
  zip_with (fun segment text => CallTranscribe (path_join dir segment) (Ok text))
           segments texts.

Definition segment_pattern (outputDir : string) : string :=
  path_join outputDir "segment_%03d.mp3".

Inductive SplitRun (i o : string) (d : N) : Result (list string) -> list Call -> Prop :=
| Split_probe_failed err :
    SplitRun i o d (Throw (mkError ("FFprobe failed: " +:+ message err)))
      [CallSplit i o d; CallFfprobe i (Some err)]
| Split_ffmpeg_failed err :
    SplitRun i o d (Throw (mkError ("FFmpeg failed: " +:+ message err)))
      [CallSplit i o d; CallFfprobe i None;
       CallFfmpeg i (segment_pattern o) (Some err)]
| Split_readdir_failed err :
    SplitRun i o d
      (Throw (mkError ("Failed to read output directory: " +:+ message err)))
      [CallSplit i o d; CallFfprobe i None;
       CallFfmpeg i (segment_pattern o) None; CallReaddir o (Throw err)]
| Split_done entries :
    SplitRun i o d (Ok (segments_of entries))
      [CallSplit i o d; CallFfprobe i None;
       CallFfmpeg i (segment_pattern o) None; CallReaddir o (Ok entries)].

Inductive LoopRun (dir : string) (segments : list string) (acc : string)
  : Result string -> list Call -> Prop :=
| Loop_done texts :
    length texts = length segments ->
    LoopRun dir segments acc (Ok (acc +:+ spaced texts))
      (transcribed dir segments texts)
| Loop_failed before segment after texts e :
    segments = before ++ segment :: after ->
    length texts = length before ->
    LoopRun dir segments acc (Throw e)
      (transcribed dir before texts
         ++ [CallTranscribe (path_join dir segment) (Throw e)]).

(** After the transcription: the text is posted, or the error goes on. *)
Inductive PostRun (file : SlackFile) (channelId : string)
  : Result string -> Result unit -> list Call -> Prop :=
| Post_skipped e :
    PostRun file channelId (Throw e) (Throw e) []
| Post_sent text failure :
    PostRun file channelId (Ok text) (completion failure)
      [CallPostMessage channelId (result_text file text) failure].

(** The [try] block of [processAudioFile]: the value of [outputDir] when it
    is left, its completion and its calls. *)
Inductive BodyRun (file : SlackFile) (channelId : string)
  : option string -> Result unit -> list Call -> Prop :=
| Body_fetch_failed e :
    BodyRun file channelId None (Throw e)
      [CallDownload (url_private file) (tempFilePath_of file) (Some e)]
| Body_stat_failed e :
    BodyRun file channelId None (Throw e)
      [CallDownload (url_private file) (tempFilePath_of file) None;
       CallStat (tempFilePath_of file) (Throw e)]
| Body_direct size answer r tr :
    exceedsLimit size = false ->
    PostRun file channelId answer r tr ->
    BodyRun file channelId None r
      ([CallDownload (url_private file) (tempFilePath_of file) None;
        CallStat (tempFilePath_of file) (Ok size);
        CallTranscribe (tempFilePath_of file) answer] ++ tr)
| Body_mkdir_failed size e :
    exceedsLimit size = true ->
    BodyRun file channelId (Some (outputDir_of file)) (Throw e)
      [CallDownload (url_private file) (tempFilePath_of file) None;
       CallStat (tempFilePath_of file) (Ok size);
       CallMkdir (outputDir_of file) (Some e)]
| Body_split_failed size e tr :
    exceedsLimit size = true ->
    SplitRun (tempFilePath_of file) (outputDir_of file) 300 (Throw e) tr ->
    BodyRun file channelId (Some (outputDir_of file)) (Throw e)
      ([CallDownload (url_private file) (tempFilePath_of file) None;
        CallStat (tempFilePath_of file) (Ok size);
        CallMkdir (outputDir_of file) None] ++ tr)
| Body_split size segments tr transcription tr' r tr'' :
    exceedsLimit size = true ->
    SplitRun (tempFilePath_of file) (outputDir_of file) 300 (Ok segments) tr ->
    LoopRun (outputDir_of file) segments "" transcription tr' ->
    PostRun file channelId transcription r tr'' ->
    BodyRun file channelId (Some (outputDir_of file)) r
      ([CallDownload (url_private file) (tempFilePath_of file) None;
        CallStat (tempFilePath_of file) (Ok size);
        CallMkdir (outputDir_of file) None] ++ tr ++ tr' ++ tr'').

(** ** Postconditions

    The specifications of the functions are stated in a small
    weakest-precondition calculus over runs. *)

(** [wp m w Q]: running [m] from [w] only appends calls [tr] and console
    entries [ls] to those of [w], and the result, [tr], [ls] and the final
    world satisfy [Q]. *)
Definition wp {X} (m : World -> X * World) (w : World)
    (Q : X -> list Call -> list LogEntry -> World -> Prop) : Prop :=
  exists tr ls,
    w_calls (snd (m w)) = w_calls w ++ tr /\
    w_console (snd (m w)) = w_console w ++ ls /\
    Q (fst (m w)) tr ls (snd (m w)).

(** The two guarded removals of [cleanupFiles]:
    [if (await access(p)) await remove(p)]. *)
Definition removal_post (env : Env) (p : string) (w : World)
    (r : Result unit) (tr : list Call) (ls : list LogEntry) (w' : World) : Prop :=
  ls = [] /\
  exists failure,
    r = completion failure /\
    Forall (fun c => is_removal c = true) tr /\
    (forall c e, c ∈ tr -> failure_of c = Some e -> failure = Some e) /\
    (access_reliable env -> failure = None -> w_fs w' !! p = None) /\
    (forall q, w_fs w !! q = None -> w_fs w' !! q = None) /\
    (forall q, q <> p -> w_fs w' !! q = w_fs w !! q).

(** What [cleanupFiles] ensures. *)
Definition cleanup_post (env : Env) (t : string) (od : option string) (w : World)
    (r : Result unit) (tr : list Call) (ls : list LogEntry) (w' : World) : Prop :=
  r = Ok tt /\
  exists tr',
    tr = CallCleanup t od :: tr' /\
    Forall (fun c => is_removal c = true) tr' /\
    (forall c e, c ∈ tr' -> failure_of c = Some e ->
                 ls = [ConsoleError "Error during cleanup:" e]) /\
    (forall q, w_fs w !! q = None -> w_fs w' !! q = None) /\
    (od = None -> forall q, q <> t -> w_fs w' !! q = w_fs w !! q) /\
    (access_reliable env -> cleanup_errors ls = [] ->
       (truthy t = true -> w_fs w' !! t = None) /\
       (forall d, od = Some d -> truthy d = true -> w_fs w' !! d = None)).

(** The [try] block of [cleanupFiles]. *)
Definition removals_post (env : Env) (t : string) (od : option string) (w : World)
    (r : Result unit) (tr : list Call) (ls : list LogEntry) (w' : World) : Prop :=
  ls = [] /\
  Forall (fun c => is_removal c = true) tr /\
  (forall q, w_fs w !! q = None -> w_fs w' !! q = None) /\
  (od = None -> forall q, q <> t -> w_fs w' !! q = w_fs w !! q) /\
  match r with
  | Ok _ =>
      (forall c e, c ∈ tr -> failure_of c <> Some e) /\
      (access_reliable env ->
         (truthy t = true -> w_fs w' !! t = None) /\
         (forall d, od = Some d -> truthy d = true -> w_fs w' !! d = None))
  | Throw e => forall c e', c ∈ tr -> failure_of c = Some e' -> e' = e
  end.

(** Nothing is called, no cleanup error is logged, the files stay. *)
Definition silent {A} (a : A) (w : World)
    (r : Result A) (tr : list Call) (ls : list LogEntry) (w' : World) : Prop :=
  r = Ok a /\ tr = [] /\ cleanup_errors ls = [] /\ w_fs w' = w_fs w.

(** What the [try] block of [processAudioFile] ensures. *)
Definition body_post (file : SlackFile) (channelId : string) (w : World)
    (x : option string * Result unit) (tr : list Call) (ls : list LogEntry)
    (w' : World) : Prop :=
  BodyRun file channelId x.1 x.2 tr /\
  cleanup_errors ls = [] /\
  (x.1 = None ->
   forall q, q <> tempFilePath_of file -> w_fs w' !! q = w_fs w !! q) /\
  ((exists entries, w_fs w' !! outputDir_of file = Some (Dir entries)) <->
   (exists entries, w_fs w !! outputDir_of file = Some (Dir entries)) \/
   CallMkdir (outputDir_of file) None ∈ tr).

(** What [processAudioFile] ensures. *)
Definition run_post (env : Env) (file : SlackFile) (channelId : string) (w : World)
    (r : Result unit) (tr : list Call) (ls : list LogEntry) (w' : World) : Prop :=
  exists od body removals ls_body ls_clean,
    tr = body ++ CallCleanup (tempFilePath_of file) od :: removals /\
    BodyRun file channelId od r body /\
    Forall (fun c => is_removal c = true) removals /\
    ls = ls_body ++ ls_clean /\
    cleanup_errors ls_body = [] /\
    (forall c e, c ∈ removals -> failure_of c = Some e ->
                 ls_clean = [ConsoleError "Error during cleanup:" e]) /\
    (od = None ->
     forall q, q <> tempFilePath_of file ->
               w_fs w !! q = None -> w_fs w' !! q = None) /\
    (access_reliable env -> cleanup_errors ls_clean = [] ->
       w_fs w' !! tempFilePath_of file = None /\
       (od <> None -> w_fs w' !! outputDir_of file = None)).

(** ** Scenarios

    Concrete worlds and collaborators on which the theorems are run. *)

Definition w_empty : World := mkWorld ∅ [] [].

(** A world in which the segment directory of [talk] exists. *)
Definition w_segments_dir : World :=
  mkWorld {[ "/tmp/F1_segments" := Dir [] ]} [] [].

Definition talk : SlackFile :=
  mkFile "F1" "talk.mp3" "https://files.slack.com/F1" (Some "audio/mpeg") "mp3".

(** The answer listed for [key], [default] when there is none. *)
Fixpoint answer_for {A} (answers : list (string * A)) (default : A)
    (key : string) : A :=
  match answers with
  | [] => default
  | (k, a) :: rest =>
      if (k =? key)%string then a else answer_for rest default key
  end.

(** Collaborators that never reject, but for what the arguments say:
    [fetch] by URL, the listing ffmpeg leaves, the transcriptions by path and
    what [fsp.unlink] does. *)
Definition env_with (fetch : string -> FetchOutcome) (listing : list string)
    (texts : list (string * Result string)) (unlink : option Error) : Env :=
  mkEnv (fun _ fileUrl _ => fetch fileUrl)
        (fun _ _ => None) (fun _ _ => None) (fun _ _ => None)
        (fun _ _ _ _ =>
           mkRun "ffmpeg -i input -f segment" ["50"; "100"] listing FfEnd)
        (fun _ _ => None)
        (fun _ filePath => answer_for texts (Ok "") filePath)
        (fun _ _ _ => None) (fun _ _ => None) (fun _ _ => None)
        (fun _ _ => unlink) (fun _ _ => None).

Definition MB : N := 1024 * 1024.

Definition EPERM : Error := mkError "EPERM: operation not permitted, unlink".

(** A small file that transcribes to "hello". *)
Definition env_small : Env :=
  env_with (fun _ => FetchOk 1000) [] [("/tmp/F1.mp3", Ok "hello")] None.

(** A file of exactly 25 MB. *)
Definition env_boundary : Env :=
  env_with (fun _ => FetchOk 26214400) [] [("/tmp/F1.mp3", Ok "hello")] None.

(** The same small file when [fsp.unlink] is refused. *)
Definition env_unlink_refused : Env :=
  env_with (fun _ => FetchOk 1000) [] [("/tmp/F1.mp3", Ok "hello")] (Some EPERM).

(** The same small file when [fsp.access] rejects. *)
Definition EACCES : Error := mkError "EACCES: permission denied, access".

Definition env_access_refused : Env :=
  mkEnv (http_get env_small) (stat_err env_small) (mkdir_err env_small)
        (ffprobe_err env_small) (ffmpeg_run env_small) (readdir_err env_small)
        (whisper env_small) (postMessage_err env_small) (say_err env_small)
        (fun _ _ => Some EACCES) (unlink_err env_small) (rm_err env_small).

Definition three_segments : list string :=
  ["segment_002.mp3"; "segment_000.mp3"; "segment_001.mp3"].

(** A 40 MB file split into three segments, listed out of order, whose
    transcriptions are "a", "b" and "c". *)
Definition env_split : Env :=
  env_with (fun _ => FetchOk (40 * MB)) three_segments
    [("/tmp/F1_segments/segment_000.mp3", Ok "a");
     ("/tmp/F1_segments/segment_001.mp3", Ok "b");
     ("/tmp/F1_segments/segment_002.mp3", Ok "c")] None.

(** The same when the service answers "a ", "b " and "c ". *)
Definition env_split_spaces : Env :=
  env_with (fun _ => FetchOk (40 * MB)) three_segments
    [("/tmp/F1_segments/segment_000.mp3", Ok "a ");
     ("/tmp/F1_segments/segment_001.mp3", Ok "b ");
     ("/tmp/F1_segments/segment_002.mp3", Ok "c ")] None.

(** The same 40 MB file when [fsp.mkdir] rejects. *)
Definition mkdir_refused : Error :=
  mkError "EACCES: permission denied, mkdir '/tmp/F1_segments'".

Definition env_mkdir_fails : Env :=
  mkEnv (http_get env_split) (stat_err env_split) (fun _ _ => Some mkdir_refused)
        (ffprobe_err env_split) (ffmpeg_run env_split) (readdir_err env_split)
        (whisper env_split) (postMessage_err env_split) (say_err env_split)
        (access_err env_split) (unlink_err env_split) (rm_err env_split).

(** A 40 MB file for which ffmpeg writes no segment. *)
Definition env_no_segment : Env :=
  env_with (fun _ => FetchOk (40 * MB)) [] [] None.

(** The transcription of the second of three segments fails. *)
Definition env_segment_fails : Env :=
  env_with (fun _ => FetchOk (40 * MB)) three_segments
    [("/tmp/F1_segments/segment_000.mp3", Ok "a");
     ("/tmp/F1_segments/segment_001.mp3", Throw (mkError "Connection error."));
     ("/tmp/F1_segments/segment_002.mp3", Ok "c")] None.

Definition forbidden : Error := mkError "Request failed with status code 403".

Definition aborted : Error := mkError "aborted".

(** The connection breaks after 5 bytes were written. *)
Definition env_stream_breaks : Env :=
  env_with (fun _ => FetchBroken 5 aborted) [] [] None.

(** The same when [fsp.unlink] is refused as well. *)
Definition env_stream_breaks_unlink_refused : Env :=
  env_with (fun _ => FetchBroken 5 aborted) [] [] (Some EPERM).

(** A mention with three audio files and a document; the download of the
    second audio file fails. *)
Definition memo : SlackFile :=
  mkFile "F2" "memo.m4a" "https://files.slack.com/F2" (Some "audio/mp4") "m4a".
Definition slides : SlackFile :=
  mkFile "F3" "slides.pdf" "https://files.slack.com/F3" (Some "application/pdf") "pdf".
Definition call_rec : SlackFile :=
  mkFile "F4" "call.wav" "https://files.slack.com/F4" (Some "audio/wav") "wav".

Definition mention : MentionEvent :=
  mkEvent (Some [talk; slides; memo; call_rec]) "C024BE91L".

Definition env_second_fails : Env :=
  env_with (fun fileUrl =>
              if (fileUrl =? "https://files.slack.com/F2")%string
              then FetchRejected forbidden
              else FetchOk 1000)
    [] [("/tmp/F1.mp3", Ok "hello")] None.

(** ** Startup: [validateEnvVariables], [initializeClients] and [main]

    [process.env] is a map from names to strings; a name that is not set
    reads as [undefined]. *)

Definition requiredEnvVars : list string :=
  ["SLACK_BOT_TOKEN"; "SLACK_SIGNING_SECRET"; "SLACK_APP_TOKEN"; "OPENAI_API_KEY"].

(** [!value] for a value that is a string or [undefined]. *)
Definition falsy (value : option string) : bool :=
  match value with
  | Some s => negb (truthy s)
  | None => true
  end.

Definition missingEnvVars (penv : gmap string string) : list string :=
  filter (fun varName => falsy (penv !! varName) = true) requiredEnvVars.

(** A function returns, or ends the process with [process.exit(code)]. *)
Inductive Exit (A : Type) :=
| Returned (a : A)
| Exited (code : Z).
Arguments Returned {A} a.
Arguments Exited {A} code.

Definition validateEnvVariables (penv : gmap string string)
  : Exit unit * list LogEntry :=
  if (0 <? length (missingEnvVars penv))%nat
  then (Exited 1,
        [ConsoleErrorText "Please set these variables in your .env file" ""])
  else (Returned tt, []).

(** The options the two clients are built with. *)
Record AppOptions := mkAppOptions {
  token : option string;
  signingSecret : option string;
  socketMode : bool;
  appToken : option string
}.

Record OpenAIOptions := mkOpenAIOptions { apiKey : option string }.

Definition initializeClients (penv : gmap string string)
  : AppOptions * OpenAIOptions :=
  (mkAppOptions (penv !! "SLACK_BOT_TOKEN") (penv !! "SLACK_SIGNING_SECRET")
     true (penv !! "SLACK_APP_TOKEN"),
   mkOpenAIOptions (penv !! "OPENAI_API_KEY")).

(** What [main] does with the clients: it builds them, registers the
    handler of an event and starts the app. *)
Inductive StartupStep :=
| NewApp (options : AppOptions)
| NewOpenAI (options : OpenAIOptions)
| OnEvent (eventName : string)
| AppStart (failure : option Error).

(** [main()], [start] being what [app.start()] answers. *)
Definition main (penv : gmap string string) (start : AppOptions -> option Error)
  : Exit unit * list LogEntry * list StartupStep :=
  match validateEnvVariables penv with
  | (Exited code, ls) => (Exited code, ls, [])
  | (Returned _, ls) =>
      match initializeClients penv with
      | (app, openai) =>
          let steps := [NewApp app; NewOpenAI openai; OnEvent "app_mention"] in
          match start app with
          | None =>
              (Returned tt,
               ls ++ [ConsoleLog "⚡️ Bolt app is running!" ""],
               steps ++ [AppStart None])
          | Some error =>
              (Returned tt,
               ls ++ [ConsoleError "Failed to start app:" error],
               steps ++ [AppStart (Some error)])
          end
      end
  end.

(** ** What the handler says first *)

(** The audio files of a mention: what the filter yields, and none when
    there is no file or the filter throws. *)
Definition audio_of (event : MentionEvent) : list SlackFile :=
  match files event with
  | Some fs =>
      match audioFiles_of fs with
      | Ok audioFiles => audioFiles
      | Throw _ => []
      end
  | None => []
  end.

(** What the filter of the handler throws, if it does. *)
Definition filter_error (event : MentionEvent) : option Error :=
  match files event with
  | Some fs =>
      match audioFiles_of fs with
      | Ok _ => None
      | Throw error => Some error
      end
  | None => None
  end.

(** The notice for the mention: no file, no audio file, or the start. *)
Definition first_notice (event : MentionEvent) : string :=
  match files event with
  | Some (_ :: _) =>
      match audio_of event with
      | _ :: _ => MSG_STARTED
      | [] => MSG_NO_AUDIO
      end
  | _ => MSG_HELLO
  end.

Definition unlinks (tr : list Call) : list (string * option Error) :=
  select (fun c => match c with
                   | CallUnlink path failure => Some (path, failure)
                   | _ => None
                   end) tr.

Definition rms (tr : list Call) : list (string * option Error) :=
  select (fun c => match c with
                   | CallRm path failure => Some (path, failure)
                   | _ => None
                   end) tr.

Definition ffmpegs (tr : list Call) : list (string * string * option Error) :=
  select (fun c => match c with
                   | CallFfmpeg inputPath pattern failure =>
                       Some (inputPath, pattern, failure)
                   | _ => None
                   end) tr.

Definition probes (tr : list Call) : list (string * option Error) :=
  select (fun c => match c with
                   | CallFfprobe inputPath failure => Some (inputPath, failure)
                   | _ => None
                   end) tr.

(** The path a call writes to, makes or removes, if it does. *)
Definition written (c : Call) : option string :=
  match c with
  | CallDownload _ outputPath _ => Some outputPath
  | CallFfmpeg _ outputPattern _ => Some outputPattern
  | CallMkdir path _ | CallUnlink path _ | CallRm path _ => Some path
  | _ => None
  end.

(** What the loop over the audio files ensures: it says nothing, it
    downloads the files in order up to the one it stops at, and when it
    completes it has posted one result per file. *)
Definition loop_post (audioFiles : list SlackFile) (channelId : string)
    (w : World) (r : Result unit) (tr : list Call) (ls : list LogEntry)
    (w' : World) : Prop :=
  said tr = [] /\
  (exists k, (fst <$> downloads tr) = target <$> take k audioFiles) /\
  (audioFiles = [] -> tr = [] /\ w_fs w' = w_fs w /\ r = Ok tt) /\
  (r = Ok tt ->
   (fst <$> downloads tr) = target <$> audioFiles /\
   exists texts,
     length texts = length audioFiles /\
     posted tr
     = zip_with (fun file text => (channelId, result_text file text))
         audioFiles texts).

(** What the [try] block of the handler ensures: when the filter throws,
    nothing is called; otherwise its first call says the notice of the
    mention, and the loop follows when that went through. *)
Definition handler_try_post (event : MentionEvent) (w : World)
    (r : Result unit) (tr : list Call) (ls : list LogEntry) (w' : World) : Prop :=
  match filter_error event with
  | Some error => r = Throw error /\ tr = [] /\ w_fs w' = w_fs w
  | None =>
      exists failure body,
        tr = CallSay (first_notice event) failure :: body /\
        match failure with
        | Some e => body = [] /\ r = Throw e /\ w_fs w' = w_fs w
        | None => loop_post (audio_of event) (channel event) w r body ls w'
        end
  end.

(** A mention with a file object that has no [mimetype]. *)
Definition untyped : SlackFile :=
  mkFile "F5" "note" "https://files.slack.com/F5" None "m4a".

Definition mention_untyped : MentionEvent :=
  mkEvent (Some [talk; untyped]) "C024BE91L".

(** What the handler ensures: after the [try] block, the failure notice is
    the last call when something was thrown. *)
Definition handler_post (event : MentionEvent) (w : World)
    (r : Result unit) (tr : list Call) (ls : list LogEntry) (w' : World) : Prop :=
  exists r0 body rest ls0 w1,
    tr = body ++ rest /\
    handler_try_post event w r0 body ls0 w1 /\
    w_fs w' = w_fs w1 /\
    match r0 with
    | Ok _ => rest = [] /\ r = Ok tt
    | Throw e =>
        exists failure', rest = [CallSay MSG_FAILED failure'] /\
                         r = completion failure'
    end.

(** How one guarded removal of [cleanupFiles] went: the path was empty and
    nothing was tried, the path was absent, it was removed, or the removal
    was refused. *)
Inductive Removal :=
| NotTried
| WasAbsent
| Removed
| Refused (e : Error).

Definition removal_calls (mk : string -> option Error -> Call) (path : string)
    (r : Removal) : list Call :=
  match r with
  | NotTried => []
  | WasAbsent => [CallAccess path false]
  | Removed => [CallAccess path true; mk path None]
  | Refused e => [CallAccess path true; mk path (Some e)]
  end.

Definition removal_fs (path : string) (r : Removal)
    (fs : gmap string Node) : gmap string Node :=
  match r with
  | Removed => delete path fs
  | _ => fs
  end.

Definition removal_result (r : Removal) : Result unit :=
  match r with
  | Refused e => Throw e
  | _ => Ok tt
  end.

(** What a guarded removal ensures. *)
Definition removal_shape (env : Env) (mk : string -> option Error -> Call)
    (p : string) (w : World) (r : Result unit) (tr : list Call)
    (ls : list LogEntry) (w' : World) : Prop :=
  ls = [] /\
  exists s,
    tr = removal_calls mk p s /\
    w_fs w' = removal_fs p s (w_fs w) /\
    r = removal_result s /\
    (s = NotTried <-> truthy p = false) /\
    (truthy p = true -> w_fs w !! p = None -> s = WasAbsent) /\
    (access_reliable env -> s = WasAbsent -> w_fs w !! p = None).

(** What [cleanupFiles] does, step by step. *)
Definition cleanup_shape (env : Env) (t : string) (od : option string)
    (w : World) (r : Result unit) (tr : list Call) (ls : list LogEntry)
    (w' : World) : Prop :=
  r = Ok tt /\
  exists s1 s2,
    tr = CallCleanup t od
         :: removal_calls CallUnlink t s1
         ++ removal_calls CallRm (default "" od) s2 /\
    w_fs w' = removal_fs (default "" od) s2 (removal_fs t s1 (w_fs w)) /\
    (s1 = NotTried <-> truthy t = false) /\
    (truthy t = true -> w_fs w !! t = None -> s1 = WasAbsent) /\
    (access_reliable env -> s1 = WasAbsent -> w_fs w !! t = None) /\
    (forall e, s1 = Refused e -> s2 = NotTried) /\
    (removal_result s1 = Ok tt ->
       (s2 = NotTried <-> truthy (default "" od) = false) /\
       (truthy (default "" od) = true ->
        removal_fs t s1 (w_fs w) !! default "" od = None -> s2 = WasAbsent) /\
       (access_reliable env -> s2 = WasAbsent ->
        removal_fs t s1 (w_fs w) !! default "" od = None)) /\
    ls = match s1, s2 with
         | Refused e, _ => [ConsoleError "Error during cleanup:" e]
         | _, Refused e => [ConsoleError "Error during cleanup:" e]
         | _, _ => []
         end.

(** A world with a file that belongs to another run. *)
Definition w_neighbour : World :=
  mkWorld {[ "/tmp/F2.m4a" := File 7 ]} [] [].

(** A mention without audio file, and one whose only audio file is small. *)
Definition mention_no_audio : MentionEvent :=
  mkEvent (Some [slides]) "C024BE91L".

Definition mention_talk : MentionEvent :=
  mkEvent (Some [slides; talk]) "C024BE91L".

(** Collaborators for which ffprobe rejects a 40 MB file. *)
Definition env_probe_fails : Env :=
  mkEnv (fun _ _ _ => FetchOk (40 * MB))
        (fun _ _ => None) (fun _ _ => None)
        (fun _ _ => Some (mkError "Invalid data found when processing input"))
        (fun _ _ _ _ => mkRun "" [] [] FfEnd)
        (fun _ _ => None) (fun _ _ => Ok "")
        (fun _ _ _ => None) (fun _ _ => None) (fun _ _ => None)
        (fun _ _ => None) (fun _ _ => None).

(** Collaborators for which [say] always rejects. *)
Definition channel_not_found : Error := mkError "An API error occurred: channel_not_found".

Definition env_say_fails : Env :=
  mkEnv (fun _ _ _ => FetchOk 1000)
        (fun _ _ => None) (fun _ _ => None) (fun _ _ => None)
        (fun _ _ _ _ => mkRun "" [] [] FfEnd)
        (fun _ _ => None) (fun _ _ => Ok "hello")
        (fun _ _ _ => None) (fun _ _ => Some channel_not_found)
        (fun _ _ => None) (fun _ _ => None) (fun _ _ => None).

(** A world with the temp file and the segment directory of [talk]. *)
Definition w_scratch : World :=
  mkWorld (<[ "/tmp/F1.mp3" := File 1000 ]>
             {[ "/tmp/F1_segments" := Dir ["segment_000.mp3"] ]}) [] [].

(** A complete and an incomplete [process.env]. *)
Definition penv_complete : gmap string string :=
  <[ "SLACK_BOT_TOKEN" := "xoxb-1" ]>
    (<[ "SLACK_SIGNING_SECRET" := "s3" ]>
       (<[ "SLACK_APP_TOKEN" := "xapp-1" ]> {[ "OPENAI_API_KEY" := "sk-1" ]})).

Definition penv_empty_key : gmap string string :=
  <[ "OPENAI_API_KEY" := "" ]> penv_complete.

(** * Properties *)

(** ** The order of strings *)

Lemma utf16_head b0 r0 :
  (b0 < 0x100)%N ->
  exists p us rest,
    b0 :: r0 = p ++ rest /\ utf16 (b0 :: r0) = us ++ utf16 rest /\ Encodes p us.
Proof.
  intros Hb. simpl.
  destruct (N.ltb_spec b0 0x80) as [Hascii|Hhigh].
  { exists [b0], [b0], r0. split_and!; try done. by constructor. }
  assert (Encodes [b0] [stray b0]) as Hstray by (constructor; lia).
  destruct r0 as [|b1 r1]; [by exists [b0], [stray b0], []|].
  destruct (is2 b0 b1) eqn:H2.
  { exists [b0; b1], [point2 b0 b1], r1. split_and!; try done. by constructor. }
  destruct r1 as [|b2 r2]; [by exists [b0], [stray b0], [b1]|].
  destruct (is3 b0 b1 b2) eqn:H3.
  { exists [b0; b1; b2], [point3 b0 b1 b2], r2. split_and!; try done. by constructor. }
  destruct r2 as [|b3 r3]; [by exists [b0], [stray b0], [b1; b2]|].
  destruct (is4 b0 b1 b2 b3) eqn:H4.
  { exists [b0; b1; b2; b3], [high (point4 b0 b1 b2 b3); low (point4 b0 b1 b2 b3)], r3.
    split_and!; try done. by constructor. }
  by exists [b0], [stray b0], (b1 :: b2 :: b3 :: r3).
Qed.

Ltac ranges :=
  unfold is2, is3, is4, continues, stray in *;
  repeat match goal with
    | H : _ && _ = true |- _ => apply andb_true_iff in H as [? ?]
    | H : _ || _ = true |- _ => apply orb_true_iff in H as [H|H]
    | H : (_ <=? _)%N = true |- _ => apply N.leb_le in H
    | H : (_ <? _)%N = true |- _ => apply N.ltb_lt in H
    end.

Lemma surrogate_pair p :
  exists q r,
    (p - 0x10000 = 0x400 * q + r /\ r < 0x400 /\
     high p = 0xD800 + q /\ low p = 0xDC00 + r)%N.
Proof.
  exists ((p - 0x10000) / 0x400)%N, ((p - 0x10000) mod 0x400)%N.
  split_and!; try done.
  - by apply N.div_mod.
  - by apply N.mod_lt.
Qed.

Lemma high_range p :
  (0x10000 <= p < 0x110000)%N -> (0xD800 <= high p < 0xDC00)%N.
Proof.
  intros Hp. destruct (surrogate_pair p) as (q & r & Hqr & Hr & -> & _). lia.
Qed.

Lemma surrogates_inj p q :
  (0x10000 <= p)%N -> (0x10000 <= q)%N ->
  high p = high q -> low p = low q -> p = q.
Proof.
  intros Hp Hq.
  destruct (surrogate_pair p) as (q1 & r1 & Hqr1 & Hr1 & -> & ->).
  destruct (surrogate_pair q) as (q2 & r2 & Hqr2 & Hr2 & -> & ->).
  lia.
Qed.

Lemma Encodes_inj p us x p' us' y :
  Encodes p us -> Encodes p' us' -> us ++ x = us' ++ y -> p = p' /\ us = us'.
Proof.
  intros Hp Hp' Heq.
  destruct Hp as [a Ha|a0 a1 Ha|a0 a1 a2 Ha|a0 a1 a2 a3 Ha|a Ha],
    Hp' as [b Hb|b0 b1 Hb|b0 b1 b2 Hb|b0 b1 b2 b3 Hb|b Hb];
    simpl in Heq; injection Heq as Hu Heq; ranges.
  all: repeat match goal with
       | H : (0x10000 <= point4 ?c0 ?c1 ?c2 ?c3)%N,
         H' : (point4 ?c0 ?c1 ?c2 ?c3 < 0x110000)%N |- _ =>
           pose proof (high_range (point4 c0 c1 c2 c3) (conj H H'));
           clear H'
       end.
  all: try (exfalso; unfold point2, point3 in *; lia).
  all: try match goal with
       | Hh : high ?p = high ?q, Hl : low ?p = low ?q |- _ =>
           pose proof (surrogates_inj p q ltac:(done) ltac:(done) Hh Hl)
       end.
  all: unfold point2, point3, point4 in *.
  all: repeat match goal with
       | |- [?x0] = [?y0] /\ _ => assert (x0 = y0) as -> by lia
       | |- [?x0; ?x1] = [?y0; ?y1] /\ _ =>
           assert (x0 = y0 /\ x1 = y1) as [-> ->] by lia
       | |- [?x0; ?x1; ?x2] = [?y0; ?y1; ?y2] /\ _ =>
           assert (x0 = y0 /\ x1 = y1 /\ x2 = y2) as (-> & -> & ->) by lia
       | |- [?x0; ?x1; ?x2; ?x3] = [?y0; ?y1; ?y2; ?y3] /\ _ =>
           assert (x0 = y0 /\ x1 = y1 /\ x2 = y2 /\ x3 = y3)
             as (-> & -> & -> & ->) by lia
       end.
  all: by split.
Qed.

Lemma Encodes_length p us : Encodes p us -> p <> [] /\ us <> [].
Proof. by destruct 1. Qed.

Lemma utf16_inj bs1 bs2 :
  Forall (fun b => (b < 0x100)%N) bs1 -> Forall (fun b => (b < 0x100)%N) bs2 ->
  utf16 bs1 = utf16 bs2 -> bs1 = bs2.
Proof.
  remember (length bs1) as n eqn:Hn. revert bs1 bs2 Hn.
  induction n as [n IH] using lt_wf_ind. intros bs1 bs2 Hn H1 H2 Heq.
  destruct bs1 as [|a0 r1], bs2 as [|b0 r2]; [done| | |].
  - apply Forall_cons in H2 as [Hb _].
    destruct (utf16_head b0 r2 Hb) as (p & us & rest & _ & Hus & Hp).
    rewrite Hus in Heq. apply Encodes_length in Hp as [_ Hne].
    by destruct us.
  - apply Forall_cons in H1 as [Ha _].
    destruct (utf16_head a0 r1 Ha) as (p & us & rest & _ & Hus & Hp).
    rewrite Hus in Heq. apply Encodes_length in Hp as [_ Hne].
    by destruct us.
  - pose proof H1 as H1'. pose proof H2 as H2'.
    apply Forall_cons in H1' as [Ha _]. apply Forall_cons in H2' as [Hb _].
    destruct (utf16_head a0 r1 Ha) as (p & us & rest & Hbs1 & Hus & Hp).
    destruct (utf16_head b0 r2 Hb) as (p' & us' & rest' & Hbs2 & Hus' & Hp').
    rewrite Hus, Hus' in Heq.
    destruct (Encodes_inj _ _ _ _ _ _ Hp Hp' Heq) as [<- <-].
    apply app_inv_head in Heq.
    rewrite Hbs1, Hbs2 in *. f_equal.
    apply Forall_app in H1 as [_ H1]. apply Forall_app in H2 as [_ H2].
    apply (IH (length rest)); try done.
    apply Encodes_length in Hp as [Hne _].
    rewrite Hn, length_app. destruct p; [done|simpl; lia].
Qed.

Lemma bytes_bounded s : Forall (fun b => (b < 0x100)%N) (bytes s).
Proof.
  induction s as [|a s IH]; simpl; constructor; [|done].
  apply Ascii.N_ascii_bounded.
Qed.

Lemma bytes_inj s1 s2 : bytes s1 = bytes s2 -> s1 = s2.
Proof.
  revert s2. induction s1 as [|a s1 IH]; intros [|b s2]; simpl; try done.
  intros [= Hab Hs]. f_equal; [|by apply IH].
  by rewrite <- (Ascii.ascii_N_embedding a), <- (Ascii.ascii_N_embedding b), Hab.
Qed.

Lemma code_units_inj s1 s2 : code_units s1 = code_units s2 -> s1 = s2.
Proof.
  intros Heq. apply bytes_inj, utf16_inj; [apply bytes_bounded..|done].
Qed.

Lemma utf16_cons_ascii b r : (b < 0x80)%N -> utf16 (b :: r) = b :: utf16 r.
Proof. intros Hb. apply N.ltb_lt in Hb. simpl. by rewrite Hb. Qed.

(** The first code unit of a string that starts with a byte outside ASCII
    is outside ASCII. *)
Lemma utf16_first_unit b0 r0 :
  (0x80 <= b0 < 0x100)%N ->
  exists u us, utf16 (b0 :: r0) = u :: us /\ (0x80 <= u)%N.
Proof.
  intros Hb.
  destruct (utf16_head b0 r0) as (p & us & rest & Hp & -> & Henc); [lia|].
  destruct Henc as [b Hlt|b b1 H2|b b1 b2 H3|b b1 b2 b3 H4|b Hs];
    injection Hp as <- _; simpl; eexists _, _; (split; [done|]).
  - lia.
  - ranges; lia.
  - ranges; lia.
  - assert (0x10000 <= point4 b0 b1 b2 b3 < 0x110000)%N as Hrange
      by (ranges; lia).
    apply high_range in Hrange. lia.
  - unfold stray. lia.
Qed.

(** [startsWith] looks at the bytes; for a prefix in ASCII that is the same
    as looking at the code units. *)
Lemma startsWith_code_units s p :
  Forall (fun b => (b < 0x80)%N) (bytes p) ->
  startsWith s p = true <-> code_units p `prefix_of` code_units s.
Proof.
  unfold startsWith, code_units.
  revert s. induction p as [|a p IH]; intros s Hascii.
  { split; [intros _; apply prefix_nil|]. by destruct s. }
  change (bytes (String a p)) with (Ascii.N_of_ascii a :: bytes p) in *.
  apply Forall_cons in Hascii as [Ha Hascii].
  rewrite (utf16_cons_ascii _ _ Ha).
  destruct s as [|c s].
  { split; [done|]. intros Hpre. by apply prefix_nil_inv in Hpre. }
  change (bytes (String c s)) with (Ascii.N_of_ascii c :: bytes s).
  change (String.prefix (String a p) (String c s))
    with (if Ascii.ascii_dec a c then String.prefix p s else false).
  destruct (Ascii.ascii_dec a c) as [<-|Hne].
  - rewrite (utf16_cons_ascii _ _ Ha), (IH s Hascii). split.
    + by apply prefix_cons.
    + by apply prefix_cons_inv_2.
  - split; [done|]. intros Hpre. exfalso.
    destruct (N.lt_ge_cases (Ascii.N_of_ascii c) 0x80) as [Hc|Hc].
    + rewrite (utf16_cons_ascii _ _ Hc) in Hpre.
      apply prefix_cons_inv_1 in Hpre. apply Hne.
      by rewrite <- (Ascii.ascii_N_embedding a), <- (Ascii.ascii_N_embedding c), Hpre.
    + destruct (utf16_first_unit (Ascii.N_of_ascii c) (bytes s))
        as (u & us & Hu & Hrange).
      { split; [done|apply Ascii.N_ascii_bounded]. }
      rewrite Hu in Hpre. apply prefix_cons_inv_1 in Hpre. lia.
Qed.

(** The filter of [splitAudioFile] keeps the names whose code units start
    with those of "segment_". *)
Lemma startsWith_segment file :
  startsWith file "segment_" = true
  <-> code_units "segment_" `prefix_of` code_units file.
Proof. apply startsWith_code_units. by vm_compute; repeat constructor. Qed.

(** The order of the code units. *)
Lemma units_leb_total u v : units_leb u v = true \/ units_leb v u = true.
Proof.
  revert v. induction u as [|a u IH]; intros [|b v]; simpl; auto.
  destruct (N.ltb_spec a b), (N.ltb_spec b a); auto; lia.
Qed.

Lemma units_leb_trans u v t :
  units_leb u v = true -> units_leb v t = true -> units_leb u t = true.
Proof.
  revert v t. induction u as [|a u IH]; intros [|b v] [|c t]; simpl; try done.
  destruct (N.ltb_spec a b), (N.ltb_spec b a), (N.ltb_spec b c), (N.ltb_spec c b),
    (N.ltb_spec a c), (N.ltb_spec c a); try done; try lia.
  apply IH.
Qed.

Lemma units_leb_antisym u v :
  units_leb u v = true -> units_leb v u = true -> u = v.
Proof.
  revert v. induction u as [|a u IH]; intros [|b v]; simpl; try done.
  destruct (N.ltb_spec a b), (N.ltb_spec b a); try done; try lia.
  intros Huv Hvu. f_equal; [lia|by apply IH].
Qed.

Lemma js_le_trans : Transitive js_le.
Proof. intros a b c. apply units_leb_trans. Qed.

(** Two strings that compare equal both ways are the same string. *)
Lemma js_le_antisym : AntiSymm (=) js_le.
Proof. intros a b Hab Hba. by apply code_units_inj, units_leb_antisym. Qed.

Lemma js_le_total x y : js_le x y \/ js_le y x.
Proof. apply units_leb_total. Qed.

Lemma js_lt_trans : Transitive (strict js_le).
Proof.
  intros a b c [Hab Hba] [Hbc Hcb]. split.
  - by apply (js_le_trans a b c).
  - intros Hca. apply Hba. by apply (js_le_trans b c a).
Qed.

(** ** The sort *)

Lemma sort_insert_perm x l : sort_insert x l ≡ₚ x :: l.
Proof.
  induction l as [|y l IH]; simpl; [done|].
  destruct (js_leb x y); [done|].
  rewrite IH. apply Permutation_swap.
Qed.

Lemma sort_perm l : sort l ≡ₚ l.
Proof.
  induction l as [|x l IH]; simpl; [done|].
  by rewrite sort_insert_perm, IH.
Qed.

Lemma sort_insert_sorted x l :
  Sorted js_le l -> Sorted js_le (sort_insert x l).
Proof.
  induction l as [|y l IH]; simpl; intros Hs.
  - by repeat constructor.
  - destruct (js_leb x y) eqn:Hxy.
    + constructor; [done|]. by constructor.
    + apply Sorted_inv in Hs as [Hs Hhd].
      constructor; [by apply IH|].
      assert (js_le y x) as Hyx.
      { destruct (js_le_total x y) as [H|H]; [|done].
        unfold js_le in H. by rewrite Hxy in H. }
      destruct l as [|z l]; simpl; [by constructor|].
      destruct (js_leb x z); constructor; [done|].
      by apply HdRel_inv in Hhd.
Qed.

Lemma sort_sorted l : Sorted js_le (sort l).
Proof.
  induction l as [|x l IH]; simpl; [constructor|].
  by apply sort_insert_sorted.
Qed.

(** The sorted list is the same whatever order the entries come in. *)
Lemma sort_order_irrelevant l1 l2 : l1 ≡ₚ l2 -> sort l1 = sort l2.
Proof.
  intros Hp.
  apply (@Sorted_unique _ js_le js_le_trans js_le_antisym);
    [apply sort_sorted..|].
  by rewrite !sort_perm.
Qed.

Lemma segments_of_order_irrelevant l1 l2 :
  l1 ≡ₚ l2 -> segments_of l1 = segments_of l2.
Proof.
  intros Hp. unfold segments_of. apply sort_order_irrelevant.
  by rewrite Hp.
Qed.

(** ** Reading lists of calls *)

Lemma select_nil {B} (f : Call -> option B) : select f [] = [].
Proof. done. Qed.

Lemma select_cons {B} (f : Call -> option B) c tr :
  select f (c :: tr)
  = match f c with Some b => b :: select f tr | None => select f tr end.
Proof. unfold select. simpl. by destruct (f c). Qed.

Lemma select_app {B} (f : Call -> option B) tr tr' :
  select f (tr ++ tr') = select f tr ++ select f tr'.
Proof. apply omap_app. Qed.

Lemma select_none {B} (f : Call -> option B) (P : Call -> bool) tr :
  Forall (fun c => P c = true) tr ->
  (forall c, P c = true -> f c = None) ->
  select f tr = [].
Proof.
  intros Hall Hf. induction Hall as [|c tr Hc _ IH]; [done|].
  by rewrite select_cons, (Hf c Hc).
Qed.

Lemma transcribed_calls dir segments texts :
  Forall (fun c => is_transcribe_call c = true) (transcribed dir segments texts).
Proof.
  unfold transcribed. revert texts.
  induction segments as [|s segments IH]; intros [|t texts]; simpl;
    constructor; auto.
Qed.

Lemma transcriptions_transcribed dir segments texts :
  transcriptions (transcribed dir segments texts)
  = zip_with (fun segment text => (path_join dir segment, Ok text)) segments texts.
Proof.
  unfold transcribed, transcriptions. revert texts.
  induction segments as [|s segments IH]; intros [|t texts]; simpl; [done..|].
  by rewrite select_cons, IH.
Qed.

Lemma select_transcribed dir segments texts :
  select (fun c => match c with
                     | CallTranscribe filePath answer => Some (filePath, answer)
                     | _ => None
                     end) (transcribed dir segments texts)
  = zip_with (fun segment text => (path_join dir segment, Ok text)) segments texts.
Proof. apply transcriptions_transcribed. Qed.

(** Rewrites the observations of a list of calls built from known calls,
    [transcribed] runs of the loop and the removals of [cleanupFiles]. *)
Ltac observe_step :=
  match goal with
  | H : context [select _ (_ ++ _)] |- _ => rewrite select_app in H
  | |- context [select _ (_ ++ _)] => rewrite select_app
  | H : context [select _ (_ :: _)] |- _ => rewrite select_cons in H
  | |- context [select _ (_ :: _)] => rewrite select_cons
  | H : context [select _ []] |- _ => rewrite select_nil in H
  | |- context [select _ []] => rewrite select_nil
  | Hr : Forall (fun c => is_removal c = true) ?tr
    |- context [select ?f ?tr] =>
      rewrite (select_none f is_removal tr Hr) by (by intros [])
  | Hr : Forall (fun c => is_removal c = true) ?tr,
    H : context [select ?f ?tr] |- _ =>
      rewrite (select_none f is_removal tr Hr) in H by (by intros [])
  | |- context [select ?f (transcribed ?d ?s ?t)] =>
      rewrite (select_none f is_transcribe_call _ (transcribed_calls d s t))
        by (by intros [])
  | H : context [select ?f (transcribed ?d ?s ?t)] |- _ =>
      rewrite (select_none f is_transcribe_call _ (transcribed_calls d s t))
        in H by (by intros [])
  end.

Ltac observe :=
  unfold stats, readdirs, mkdirs, splits, posted, said, cleanups, downloads,
    transcriptions in *;
  repeat (first [rewrite select_transcribed in * | observe_step];
          cbv beta iota in *);
  rewrite ?app_nil_r in *; simpl app in *.

(** ** The rules of the calculus *)

Lemma wp_mono {X} (m : World -> X * World) w (P Q : _ -> _ -> _ -> _ -> Prop) :
  wp m w P -> (forall x tr ls w', P x tr ls w' -> Q x tr ls w') -> wp m w Q.
Proof. intros (tr & ls & ? & ? & ?) HPQ. exists tr, ls. eauto. Qed.

Lemma wp_ret {A} (a : A) w (Q : _ -> _ -> _ -> _ -> Prop) :
  Q (Ok a) [] [] w -> wp (ret a) w Q.
Proof. intros HQ. exists [], []. simpl. by rewrite !app_nil_r. Qed.

Lemma wp_throw {A} e w (Q : Result A -> _ -> _ -> _ -> Prop) :
  Q (Throw e) [] [] w -> wp (throw e) w Q.
Proof. intros HQ. exists [], []. simpl. by rewrite !app_nil_r. Qed.

Lemma wp_settle_with {A} (answer : Result A) w (Q : _ -> _ -> _ -> _ -> Prop) :
  Q answer [] [] w -> wp (settle_with answer) w Q.
Proof. intros HQ. exists [], []. simpl. by rewrite !app_nil_r. Qed.

Lemma wp_bind {A B} (m : M A) (k : A -> M B) w
    (P : _ -> _ -> _ -> _ -> Prop) (Q : _ -> _ -> _ -> _ -> Prop) :
  wp m w P ->
  (forall r tr ls w1, P r tr ls w1 ->
     match r with
     | Ok a => wp (k a) w1 (fun r' tr' ls' w2 => Q r' (tr ++ tr') (ls ++ ls') w2)
     | Throw e => Q (Throw e) tr ls w1
     end) ->
  wp (bind m k) w Q.
Proof.
  intros (tr & ls & Hc & Hl & HP) Hk. unfold wp, bind.
  specialize (Hk _ _ _ _ HP).
  destruct (m w) as [[a|e] w1]; simpl in *.
  - destruct Hk as (tr' & ls' & Hc' & Hl' & HQ).
    exists (tr ++ tr'), (ls ++ ls').
    rewrite Hc', Hl', Hc, Hl, !app_assoc. done.
  - exists tr, ls. done.
Qed.

Lemma wp_try_catch {A} (m : M A) (h : Error -> M A) w
    (P : _ -> _ -> _ -> _ -> Prop) (Q : _ -> _ -> _ -> _ -> Prop) :
  wp m w P ->
  (forall r tr ls w1, P r tr ls w1 ->
     match r with
     | Ok a => Q (Ok a) tr ls w1
     | Throw e => wp (h e) w1 (fun r' tr' ls' w2 => Q r' (tr ++ tr') (ls ++ ls') w2)
     end) ->
  wp (try_catch m h) w Q.
Proof.
  intros (tr & ls & Hc & Hl & HP) Hk. unfold wp, try_catch.
  specialize (Hk _ _ _ _ HP).
  destruct (m w) as [[a|e] w1]; simpl in *.
  - exists tr, ls. done.
  - destruct Hk as (tr' & ls' & Hc' & Hl' & HQ).
    exists (tr ++ tr'), (ls ++ ls').
    rewrite Hc', Hl', Hc, Hl, !app_assoc. done.
Qed.

Lemma wp_settle failure w (Q : _ -> _ -> _ -> _ -> Prop) :
  Q (completion failure) [] [] w -> wp (settle failure) w Q.
Proof. destruct failure; [apply wp_throw|apply wp_ret]. Qed.

(** What [wp] says about the observations of a run. *)
Lemma wp_elim {X} (m : World -> X * World) w Q :
  wp m w Q ->
  Q (fst (m w)) (calls_during m w) (console_during m w) (snd (m w)).
Proof.
  intros (tr & ls & Hc & Hl & HQ). unfold calls_during, console_during.
  by rewrite Hc, Hl, !drop_app_length.
Qed.

(** [wp] looks at [m] only through [m w]. *)
Lemma wp_ext {X} (m m' : World -> X * World) w Q :
  m w = m' w -> wp m' w Q -> wp m w Q.
Proof. unfold wp. by intros ->. Qed.

(** Opens a function written [fun w => let answer := ... w ... in body w]. *)
Ltac wp_open f :=
  unfold f;
  lazymatch goal with
  | |- wp ?m ?w ?Q =>
      let t := eval cbv beta zeta in (m w) in
      lazymatch t with
      | ?m' w => apply (wp_ext m m' w Q eq_refl)
      end
  end.

(** Looks into a function written [fun w => match ... w ... with ... end],
    and back once the [match] is decided. *)
Ltac wp_beta :=
  lazymatch goal with
  | |- wp ?m ?w ?Q =>
      let t := eval cbv beta zeta in (m w) in
      apply (wp_ext m (fun _ => t) w Q eq_refl)
  end.
Ltac wp_fold :=
  lazymatch goal with
  | |- wp (fun _ => ?m' ?w) ?w ?Q => apply (wp_ext _ m' w Q eq_refl)
  end.

Ltac wp_next lem :=
  eapply wp_bind; [apply lem|]; cbv beta;
  let r := fresh "r" in let tr := fresh "tr" in let ls := fresh "ls" in
  let w := fresh "w" in let H := fresh "H" in
  intros r tr ls w H.

Lemma call_spec c w :
  wp (call c) w (fun r tr ls w' =>
    r = Ok tt /\ tr = [c] /\ ls = [] /\ w_fs w' = w_fs w).
Proof. exists [c], []. simpl. by rewrite app_nil_r. Qed.

Lemma console_log_spec label detail w :
  wp (console_log label detail) w (fun r tr ls w' =>
    r = Ok tt /\ tr = [] /\ cleanup_errors ls = [] /\ w_fs w' = w_fs w).
Proof. exists [], [ConsoleLog label detail]. simpl. by rewrite app_nil_r. Qed.

Lemma set_fs_spec f w :
  wp (set_fs f) w (fun r tr ls w' =>
    r = Ok tt /\ tr = [] /\ ls = [] /\ w_fs w' = f (w_fs w)).
Proof. exists [], []. simpl. by rewrite !app_nil_r. Qed.

Lemma settle_spec failure w :
  wp (settle failure) w (fun r tr ls w' =>
    r = completion failure /\ tr = [] /\ ls = [] /\ w' = w).
Proof. apply wp_settle. done. Qed.

Lemma tempFilePath_not_outputDir file :
  outputDir_of file <> tempFilePath_of file.
Proof.
  unfold tempFilePath_of, outputDir_of. intros Heq.
  apply (inj (String.app "/tmp/")), (inj (String.app (id file))) in Heq.
  discriminate Heq.
Qed.

Section Specs.

Variable env : Env.

Lemma fsp_access_spec path w :
  wp (fsp_access env path) w (fun r tr ls w' =>
    exists present,
      r = Ok present /\ tr = [CallAccess path present] /\ ls = [] /\
      w_fs w' = w_fs w /\
      (w_fs w !! path = None -> present = false) /\
      (access_reliable env -> present = false -> w_fs w !! path = None)).
Proof.
  wp_open fsp_access.
  match goal with |- context [CallAccess path ?a] => assert (
    (w_fs w !! path = None -> a = false) /\
    (access_reliable env -> a = false -> w_fs w !! path = None)) as Hanswer;
    [|revert Hanswer; generalize a] end.
  { split.
    - intros Hnone. destruct (access_err env w path); [done|].
      apply bool_decide_eq_false. rewrite Hnone. by intros [? ?].
    - intros Hrel. rewrite (Hrel w path). intros Hb.
      apply bool_decide_eq_false in Hb. by apply eq_None_not_Some. }
  intros present [Habsent Hfound].
  wp_next call_spec. destruct H as (-> & -> & -> & Hfs).
  apply wp_ret. exists present. by rewrite Hfs.
Qed.

Lemma fsp_unlink_spec path w :
  wp (fsp_unlink env path) w (fun r tr ls w' =>
    exists failure,
      r = completion failure /\ tr = [CallUnlink path failure] /\ ls = [] /\
      w_fs w' = match failure with
                | None => delete path (w_fs w)
                | Some _ => w_fs w
                end).
Proof.
  wp_open fsp_unlink.
  match goal with |- context [CallUnlink path ?f] => generalize f end.
  intros failure.
  wp_next call_spec. destruct H as (-> & -> & -> & Hfs).
  wp_next settle_spec. destruct H as (-> & -> & -> & ->).
  destruct failure as [e|]; simpl.
  - exists (Some e). by rewrite Hfs.
  - eapply wp_mono; [apply set_fs_spec|]. cbv beta.
    intros r tr ls w' (-> & -> & -> & Hfs'). exists None.
    by rewrite Hfs', Hfs.
Qed.

Lemma fsp_rm_spec path w :
  wp (fsp_rm env path) w (fun r tr ls w' =>
    exists failure,
      r = completion failure /\ tr = [CallRm path failure] /\ ls = [] /\
      w_fs w' = match failure with
                | None => delete path (w_fs w)
                | Some _ => w_fs w
                end).
Proof.
  wp_open fsp_rm.
  generalize (rm_err env w path). intros failure.
  wp_next call_spec. destruct H as (-> & -> & -> & Hfs).
  wp_next settle_spec. destruct H as (-> & -> & -> & ->).
  destruct failure as [e|]; simpl.
  - exists (Some e). by rewrite Hfs.
  - eapply wp_mono; [apply set_fs_spec|]. cbv beta.
    intros r tr ls w' (-> & -> & -> & Hfs'). exists None.
    by rewrite Hfs', Hfs.
Qed.

Lemma guarded_removal_spec (remove : string -> M unit)
    (mk : string -> option Error -> Call) p w :
  (forall path failure, is_removal (mk path failure) = true) ->
  (forall path failure, failure_of (mk path failure) = failure) ->
  (forall w1, wp (remove p) w1 (fun r tr ls w' =>
     exists failure,
       r = completion failure /\ tr = [mk p failure] /\ ls = [] /\
       w_fs w' = match failure with
                 | None => delete p (w_fs w1)
                 | Some _ => w_fs w1
                 end)) ->
  wp (present <- fsp_access env p ;; if present then remove p else ret tt) w
     (removal_post env p w).
Proof.
  intros Hmk Hfail Hremove.
  wp_next fsp_access_spec.
  destruct H as (present & -> & -> & -> & Hfs & _ & Habsent).
  destruct present.
  - eapply wp_mono; [apply Hremove|]. cbv beta.
    intros r tr ls w' (failure & -> & -> & -> & Hfs').
    split; [done|]. exists failure. split; [done|].
    split; [repeat constructor; apply Hmk|].
    split.
    { intros c e Hc Hf. simpl in Hc.
      apply elem_of_cons in Hc as [->|Hc]; [done|].
      apply list_elem_of_singleton in Hc as ->. by rewrite Hfail in Hf. }
    rewrite Hfs', Hfs.
    repeat split.
    + intros _ ->. apply lookup_delete_eq.
    + intros q Hq. destruct failure; [done|].
      rewrite lookup_delete. by case_decide.
    + intros q Hq. destruct failure; [done|]. by rewrite lookup_delete_ne.
  - apply wp_ret. split; [done|]. exists None. rewrite Hfs.
    split; [done|]. split; [by repeat constructor|].
    split.
    { intros c e Hc Hf. simpl in Hc.
      apply list_elem_of_singleton in Hc as ->. done. }
    auto.
Qed.

Lemma guarded_removal_unlink p w :
  wp (if truthy p
      then (present <- fsp_access env p ;;
            if present then fsp_unlink env p else ret tt)
      else ret tt) w
     (fun r tr ls w' =>
        removal_post env p w r tr ls w' \/
        truthy p = false /\ r = Ok tt /\ tr = [] /\ ls = [] /\ w' = w).
Proof.
  destruct (truthy p).
  - eapply wp_mono.
    + apply (guarded_removal_spec _ CallUnlink); [done..|].
      intros w1. apply fsp_unlink_spec.
    + intros. by left.
  - apply wp_ret. by right.
Qed.

Lemma guarded_removal_rm p w :
  wp (if truthy p
      then (present <- fsp_access env p ;;
            if present then fsp_rm env p else ret tt)
      else ret tt) w
     (fun r tr ls w' =>
        removal_post env p w r tr ls w' \/
        truthy p = false /\ r = Ok tt /\ tr = [] /\ ls = [] /\ w' = w).
Proof.
  destruct (truthy p).
  - eapply wp_mono.
    + apply (guarded_removal_spec _ CallRm); [done..|].
      intros w1. apply fsp_rm_spec.
    + intros. by left.
  - apply wp_ret. by right.
Qed.

Lemma removals_spec t od w :
  wp ((if truthy t
       then (present <- fsp_access env t ;;
             if present then fsp_unlink env t else ret tt)
       else ret tt) ;;;
      match od with
      | Some dir =>
          if truthy dir
          then (present <- fsp_access env dir ;;
                if present then fsp_rm env dir else ret tt)
          else ret tt
      | None => ret tt
      end) w (removals_post env t od w).
Proof.
  wp_next guarded_removal_unlink.
  assert (exists failure,
    r = completion failure /\ ls = [] /\
    Forall (fun c => is_removal c = true) tr /\
    (forall c e, c ∈ tr -> failure_of c = Some e -> failure = Some e) /\
    (access_reliable env -> failure = None -> truthy t = true ->
     w_fs w0 !! t = None) /\
    (forall q, w_fs w !! q = None -> w_fs w0 !! q = None) /\
    (forall q, q <> t -> w_fs w0 !! q = w_fs w !! q)) as Hfirst.
  { destruct H as [(-> & failure & -> & ? & ? & ? & ? & ?)
                  |(Ht & -> & -> & -> & ->)].
    - exists failure. repeat split; auto.
    - exists None. repeat split; auto.
      + intros c e Hc. by apply elem_of_nil in Hc.
      + intros _ _ Ht'. congruence. }
  clear H. destruct Hfirst as (failure & -> & -> & Hrem & Hfail & Hgone & Hkeep & Hother).
  destruct failure as [e|]; simpl.
  { repeat split; auto.
    intros c e' Hc Hf. apply Hfail in Hf; [|done]. congruence. }
  destruct od as [dir|].
  - eapply wp_mono; [apply guarded_removal_rm|]. cbv beta.
    intros r tr' ls' w' Hsecond.
    assert (exists failure,
      r = completion failure /\ ls' = [] /\
      Forall (fun c => is_removal c = true) tr' /\
      (forall c e, c ∈ tr' -> failure_of c = Some e -> failure = Some e) /\
      (access_reliable env -> failure = None -> truthy dir = true ->
       w_fs w' !! dir = None) /\
      (forall q, w_fs w0 !! q = None -> w_fs w' !! q = None)) as Hsnd.
    { destruct Hsecond as [(-> & failure & -> & ? & ? & ? & ? & ?)
                          |(Ht & -> & -> & -> & ->)].
      - exists failure. repeat split; auto.
      - exists None. repeat split; auto.
        + intros c e Hc. by apply elem_of_nil in Hc.
        + intros _ _ Ht'. congruence. }
    clear Hsecond.
    destruct Hsnd as (failure & -> & -> & Hrem' & Hfail' & Hgone' & Hkeep').
    split; [done|]. split; [by apply Forall_app|].
    split; [auto|]. split; [done|].
    destruct failure as [e|]; simpl.
    + intros c e' Hc Hf. apply elem_of_app in Hc as [Hc|Hc].
      * by apply Hfail in Hf.
      * apply Hfail' in Hf; [|done]. congruence.
    + split.
      * intros c e Hc Hf. apply elem_of_app in Hc as [Hc|Hc].
        -- by apply Hfail in Hf.
        -- by apply Hfail' in Hf.
      * intros Hrel. split; [auto|]. intros d [= <-]. auto.
  - apply wp_ret. rewrite !app_nil_r.
    split; [done|]. split; [done|]. split; [auto|]. split; [auto|].
    split.
    + intros c e Hc Hf. by apply Hfail in Hf.
    + intros Hrel. split; [auto|done].
Qed.

Lemma cleanupFiles_spec t od w :
  wp (cleanupFiles env t od) w (cleanup_post env t od w).
Proof.
  unfold cleanupFiles.
  wp_next call_spec. destruct H as (-> & -> & -> & Hfs0).
  eapply wp_try_catch; [apply removals_spec|]. cbv beta.
  intros r tr ls w1 (-> & Hrem & Hkeep & Hother & Hr).
  rewrite Hfs0 in Hkeep. setoid_rewrite Hfs0 in Hother.
  destruct r as [[]|e].
  - destruct Hr as (Hnofail & Hgone).
    split; [done|]. exists tr. split_and!; auto.
    intros c e Hc Hf. by apply Hnofail in Hf.
  - exists [], [ConsoleError "Error during cleanup:" e]. simpl.
    rewrite !app_nil_r. split_and!; try done.
    split; [done|]. exists tr. split_and!; try done.
    intros c e' Hc Hf. by rewrite (Hr c e' Hc Hf).
Qed.

(** *** The [try] block of [processAudioFile] *)

Lemma cleanup_errors_app ls ls' :
  cleanup_errors ls = [] -> cleanup_errors ls' = [] ->
  cleanup_errors (ls ++ ls') = [].
Proof. unfold cleanup_errors. rewrite omap_app. by intros -> ->. Qed.

Lemma console_log_silent label detail w :
  wp (console_log label detail) w (silent tt w).
Proof. apply console_log_spec. Qed.

Lemma silent_then {A B} (a : A) (b : B) w w1 w2 r tr ls r' tr' ls' :
  silent a w r tr ls w1 -> silent b w1 r' tr' ls' w2 ->
  silent b w r' (tr ++ tr') (ls ++ ls') w2.
Proof.
  intros (-> & -> & Hls & Hfs) (-> & -> & Hls' & Hfs').
  repeat split; [by apply cleanup_errors_app|congruence].
Qed.

Lemma progress_spec (percents : list string) w :
  wp (foldr (fun percent k =>
               console_log "Processing: " (percent +:+ "% done") ;;; k)
            (ret tt) percents) w (silent tt w).
Proof.
  revert w. induction percents as [|percent rest IH]; intros w; simpl.
  - by apply wp_ret.
  - wp_next console_log_silent.
    pose proof H as (-> & _).
    eapply wp_mono; [apply IH|]. cbv beta.
    intros r tr' ls' w' Hpost. by eapply silent_then.
Qed.

Lemma console_error_text_silent label text w :
  wp (console_error_text label text) w (silent tt w).
Proof. exists [], [ConsoleErrorText label text]. simpl. by rewrite app_nil_r. Qed.

Lemma ffmpeg_callbacks_spec run w :
  wp (ffmpeg_callbacks run) w (silent tt w).
Proof.
  unfold ffmpeg_callbacks.
  wp_next console_log_silent. pose proof H as (-> & _).
  eapply wp_mono; [apply progress_spec|]. cbv beta.
  intros r tr' ls' w' Hpost. by eapply silent_then.
Qed.

Lemma fsp_stat_spec path w :
  wp (fsp_stat env path) w (fun r tr ls w' =>
    tr = [CallStat path r] /\ ls = [] /\ w_fs w' = w_fs w).
Proof.
  wp_open fsp_stat.
  match goal with |- context [CallStat path ?a] => generalize a end.
  intros answer.
  wp_next call_spec. destruct H as (-> & -> & -> & Hfs).
  by apply wp_settle_with.
Qed.

Lemma fsp_mkdir_spec path w :
  wp (fsp_mkdir env path) w (fun r tr ls w' =>
    exists failure,
      r = completion failure /\ tr = [CallMkdir path failure] /\ ls = [] /\
      (forall q, q <> path -> w_fs w' !! q = w_fs w !! q) /\
      ((exists entries, w_fs w' !! path = Some (Dir entries)) <->
       (exists entries, w_fs w !! path = Some (Dir entries)) \/ failure = None)).
Proof.
  wp_open fsp_mkdir.
  match goal with |- context [CallMkdir path ?f] =>
    assert (f = None -> forall size, w_fs w !! path <> Some (File size)) as Hfile;
    [|revert Hfile; generalize f]
  end.
  { destruct (mkdir_err env w path); [done|].
    by destruct (w_fs w !! path) as [[]|]. }
  intros failure Hfile.
  wp_next call_spec. destruct H as (-> & -> & -> & Hfs).
  wp_next settle_spec. destruct H as (-> & -> & -> & ->).
  destruct failure as [e|]; simpl.
  - exists (Some e). rewrite Hfs. split_and!; try done.
    split; [by left|]. by intros [?|[=]].
  - eapply wp_mono; [apply set_fs_spec|]. cbv beta.
    intros r tr ls w' (-> & -> & -> & Hfs'). exists None.
    rewrite Hfs', Hfs. split_and!; try done.
    + intros q Hq. destruct (w_fs w !! path); [done|]. by rewrite lookup_insert_ne.
    + split; [by right|]. intros _.
      destruct (w_fs w !! path) as [[size|entries]|] eqn:Hpath.
      * by destruct (Hfile eq_refl size).
      * by exists entries.
      * exists []. by rewrite lookup_insert_eq.
Qed.

Lemma fsp_readdir_spec path w :
  wp (fsp_readdir env path) w (fun r tr ls w' =>
    tr = [CallReaddir path r] /\ ls = [] /\ w_fs w' = w_fs w /\
    (forall entries, r = Ok entries -> w_fs w !! path = Some (Dir entries))).
Proof.
  wp_open fsp_readdir.
  match goal with |- context [CallReaddir path ?a] => assert (forall entries,
    a = Ok entries -> w_fs w !! path = Some (Dir entries)) as Hanswer;
    [|revert Hanswer; generalize a] end.
  { intros entries. destruct (readdir_err env w path); [done|].
    destruct (w_fs w !! path) as [[]|]; congruence. }
  intros answer Hanswer.
  wp_next call_spec. destruct H as (-> & -> & -> & Hfs).
  by apply wp_settle_with.
Qed.

Lemma downloadFile_spec fileUrl outputPath w :
  wp (downloadFile env fileUrl outputPath) w (fun r tr ls w' =>
    exists failure,
      r = completion failure /\ tr = [CallDownload fileUrl outputPath failure] /\
      cleanup_errors ls = [] /\
      (forall q, q <> outputPath -> w_fs w' !! q = w_fs w !! q)).
Proof.
  assert (forall e, wp (call (CallDownload fileUrl outputPath (Some e)) ;;; throw e)
            w (fun (r : Result unit) tr ls w' =>
    exists failure,
      r = completion failure /\ tr = [CallDownload fileUrl outputPath failure] /\
      cleanup_errors ls = [] /\
      (forall q, q <> outputPath -> w_fs w' !! q = w_fs w !! q))) as Hrejects.
  { intros e. wp_next call_spec. destruct H as (-> & -> & -> & Hfs).
    apply wp_throw. exists (Some e). rewrite Hfs. done. }
  unfold downloadFile. wp_beta.
  destruct (http_get env w fileUrl outputPath) as [size|e|written e].
  - destruct (open_failure w outputPath) as [e'|]; wp_fold; [apply Hrejects|].
    wp_next call_spec. destruct H as (-> & -> & -> & Hfs).
    wp_next set_fs_spec. destruct H as (-> & -> & -> & Hfs').
    eapply wp_mono; [apply console_log_silent|]. cbv beta.
    intros r tr ls w' (-> & -> & Hls & Hfs''). exists None.
    repeat split; [done|].
    intros q Hq. rewrite Hfs'', Hfs', Hfs. by rewrite lookup_insert_ne.
  - wp_fold. apply Hrejects.
  - destruct (open_failure w outputPath) as [e'|]; wp_fold; [apply Hrejects|].
    wp_next call_spec. destruct H as (-> & -> & -> & Hfs).
    wp_next set_fs_spec. destruct H as (-> & -> & -> & Hfs').
    apply wp_throw. exists (Some e). repeat split.
    intros q Hq. rewrite Hfs', Hfs. by rewrite lookup_insert_ne.
Qed.

Lemma run_ffprobe_spec inputPath w :
  wp (run_ffprobe env inputPath) w (fun r tr ls w' =>
    exists err,
      r = Ok err /\ tr = [CallFfprobe inputPath err] /\ ls = [] /\
      w_fs w' = w_fs w).
Proof.
  wp_open run_ffprobe.
  generalize (ffprobe_err env w inputPath). intros err.
  wp_next call_spec. destruct H as (-> & -> & -> & Hfs).
  apply wp_ret. by exists err.
Qed.

Lemma run_ffmpeg_spec inputPath outputDir segmentDuration w :
  wp (run_ffmpeg env inputPath outputDir segmentDuration) w (fun r tr ls w' =>
    exists ended,
      r = Ok ended /\
      tr = [CallFfmpeg inputPath (segment_pattern outputDir)
              match ended with
              | FfEnd => None
              | FfError err _ _ => Some err
              end] /\
      cleanup_errors ls = [] /\
      (forall q, q <> outputDir -> w_fs w' !! q = w_fs w !! q) /\
      (forall entries, w_fs w !! outputDir = Some (Dir entries) ->
                       exists entries', w_fs w' !! outputDir = Some (Dir entries'))).
Proof.
  wp_open run_ffmpeg.
  generalize (ffmpeg_run env w inputPath outputDir segmentDuration). intros run.
  wp_next call_spec. destruct H as (-> & -> & -> & Hfs).
  wp_next ffmpeg_callbacks_spec. destruct H as (-> & -> & Hls & Hfs').
  wp_next set_fs_spec. destruct H as (-> & -> & -> & Hfs'').
  apply wp_ret. exists (ff_end run). simpl. rewrite app_nil_r.
  rewrite Hfs'', Hfs', Hfs. split_and!; try done.
  - intros q Hq.
    destruct (w_fs w !! outputDir) as [[]|]; [done| |done].
    by rewrite lookup_insert_ne.
  - intros entries ->. exists (ff_listing run). by rewrite lookup_insert_eq.
Qed.

Lemma splitAudioFile_spec i o d w :
  wp (splitAudioFile env i o d) w (fun r tr ls w' =>
    SplitRun i o d r tr /\ cleanup_errors ls = [] /\
    (forall q, q <> o -> w_fs w' !! q = w_fs w !! q) /\
    (forall entries, (o, Ok entries) ∈ readdirs tr ->
                     w_fs w' !! o = Some (Dir entries)) /\
    (forall entries, w_fs w !! o = Some (Dir entries) ->
                     exists entries', w_fs w' !! o = Some (Dir entries'))).
Proof.
  unfold splitAudioFile.
  wp_next call_spec. destruct H as (-> & -> & -> & Hfs).
  wp_next run_ffprobe_spec. destruct H as (err & -> & -> & -> & Hfs').
  destruct err as [err|].
  { apply wp_throw. simpl. split; [constructor|].
    split; [done|]. split; [intros q _; by rewrite Hfs', Hfs|]. split.
    - intros entries Hin. observe. by apply elem_of_nil in Hin.
    - intros entries Hdir. exists entries. by rewrite Hfs', Hfs. }
  wp_next run_ffmpeg_spec. destruct H as (ended & -> & -> & Hls & Hother & Hstays).
  rewrite Hfs', Hfs in Hstays.
  destruct ended as [|err stdout stderr].
  - eapply wp_try_catch with (P := fun r tr ls w' =>
      exists answer,
        tr = [CallReaddir o answer] /\ ls = [] /\ w_fs w' = w_fs w2 /\
        (forall entries, answer = Ok entries -> w_fs w2 !! o = Some (Dir entries)) /\
        r = match answer with
            | Ok entries => Ok (segments_of entries)
            | Throw e => Throw e
            end).
    { wp_next fsp_readdir_spec. destruct H as (-> & -> & Hfs'' & Hdir).
      destruct r as [entries|err].
      - apply wp_ret. by exists (Ok entries).
      - by exists (Throw err). }
    intros r tr ls' w3 (answer & -> & -> & Hfs'' & Hdir & ->).
    destruct answer as [entries|err].
    + simpl. rewrite !app_nil_r.
      split; [constructor|]. split; [done|]. split; [|split].
      * intros q Hq. rewrite Hfs'', Hother by done. by rewrite Hfs', Hfs.
      * intros entries' Hin. observe.
        apply list_elem_of_singleton in Hin. simplify_eq.
        rewrite Hfs''. by apply Hdir.
      * intros entries0 Hdir0. rewrite Hfs''. by apply (Hstays entries0).
    + apply wp_throw. simpl. rewrite !app_nil_r.
      split; [constructor|]. split; [done|]. split; [|split].
      * intros q Hq. rewrite Hfs'', Hother by done. by rewrite Hfs', Hfs.
      * intros entries' Hin. observe.
        apply list_elem_of_singleton in Hin. simplify_eq.
      * intros entries0 Hdir0. rewrite Hfs''. by apply (Hstays entries0).
  - wp_next console_error_text_silent. destruct H as (-> & -> & Hls1 & Hfs1).
    wp_next console_error_text_silent. destruct H as (-> & -> & Hls2 & Hfs2).
    apply wp_throw. simpl. rewrite !app_nil_r.
    split; [constructor|]. split; [by repeat apply cleanup_errors_app|].
    split; [|split].
    + intros q Hq. rewrite Hfs2, Hfs1, Hother by done. by rewrite Hfs', Hfs.
    + intros entries' Hin. observe. by apply elem_of_nil in Hin.
    + intros entries0 Hdir0. rewrite Hfs2, Hfs1. by apply (Hstays entries0).
Qed.

Lemma transcribeAudio_spec filePath w :
  wp (transcribeAudio env filePath) w (fun r tr ls w' =>
    tr = [CallTranscribe filePath r] /\ ls = [] /\ w_fs w' = w_fs w).
Proof.
  wp_open transcribeAudio.
  generalize (whisper env w filePath). intros answer.
  wp_next call_spec. destruct H as (-> & -> & -> & Hfs).
  by apply wp_settle_with.
Qed.

Lemma string_app_assoc (a b c : string) : (a +:+ b) +:+ c = a +:+ (b +:+ c).
Proof.
  induction a as [|x a IH]; [done|].
  change (String x ((a +:+ b) +:+ c) = String x (a +:+ (b +:+ c))).
  by rewrite IH.
Qed.

Lemma string_app_empty_r (a : string) : a +:+ "" = a.
Proof.
  induction a as [|x a IH]; [done|].
  change (String x (a +:+ "") = String x a). by rewrite IH.
Qed.

Lemma transcribeSegments_spec dir segments acc w :
  wp (transcribeSegments env dir segments acc) w (fun r tr ls w' =>
    LoopRun dir segments acc r tr /\ cleanup_errors ls = [] /\
    w_fs w' = w_fs w).
Proof.
  revert acc w. induction segments as [|segment rest IH]; intros acc w; simpl.
  - apply wp_ret. split; [|done].
    rewrite <- (string_app_empty_r acc) at 2.
    by apply (Loop_done dir [] acc []).
  - wp_next console_log_silent. destruct H as (-> & -> & Hls & Hfs).
    wp_next transcribeAudio_spec. destruct H as (-> & -> & Hfs').
    destruct r as [text|e].
    + eapply wp_mono; [apply IH|]. cbv beta.
      intros r tr ls' w' (Hrun & Hls' & Hfs''). simpl.
      split; [|split; [by apply cleanup_errors_app|congruence]].
      destruct Hrun as [texts Hlen|before seg after texts e Hsegs Hlen].
      * rewrite !string_app_assoc.
        apply (Loop_done dir (segment :: rest) acc (text :: texts)).
        simpl. by rewrite Hlen.
      * apply (Loop_failed dir (segment :: rest) acc (segment :: before) seg
                 after (text :: texts) e).
        -- by rewrite Hsegs.
        -- simpl. by rewrite Hlen.
    + simpl. rewrite app_nil_r. split; [|split; [done|congruence]].
      by apply (Loop_failed dir (segment :: rest) acc [] segment rest [] e).
Qed.

Lemma postResult_spec file channelId text w :
  wp (postResult env file channelId text) w (fun r tr ls w' =>
    PostRun file channelId (Ok text) r tr /\ cleanup_errors ls = [] /\
    w_fs w' = w_fs w).
Proof.
  unfold postResult.
  wp_next console_log_silent. destruct H as (-> & -> & Hls & Hfs).
  eapply wp_bind with (P := fun r tr ls w' =>
    exists failure,
      r = completion failure /\
      tr = [CallPostMessage channelId (result_text file text) failure] /\
      ls = [] /\ w_fs w' = w_fs w0).
  { wp_open postMessage.
    generalize (postMessage_err env w0 channelId (result_text file text)).
    intros failure.
    wp_next call_spec. destruct H as (-> & -> & -> & Hfs').
    apply wp_settle. by exists failure. }
  intros r tr ls' w1 (failure & -> & -> & -> & Hfs').
  destruct failure as [e|]; simpl.
  - rewrite app_nil_r. split; [apply (Post_sent _ _ _ (Some e))|].
    split; [done|congruence].
  - eapply wp_mono; [apply console_log_silent|]. cbv beta.
    intros r tr ls' w' (-> & -> & Hls' & Hfs''). simpl.
    split; [apply (Post_sent _ _ _ None)|].
    split; [by apply cleanup_errors_app|congruence].
Qed.

(** A block that goes on from the completion of [m], whatever it is. *)
Lemma wp_then {Y X} (m : World -> Y * World) (K : Y -> World -> X * World) w
    (P : _ -> _ -> _ -> _ -> Prop) (Q : _ -> _ -> _ -> _ -> Prop) :
  wp m w P ->
  (forall r tr ls w1, P r tr ls w1 ->
     wp (K r) w1 (fun x tr' ls' w2 => Q x (tr ++ tr') (ls ++ ls') w2)) ->
  wp (fun w0 => match m w0 with (r, w1) => K r w1 end) w Q.
Proof.
  intros (tr & ls & Hc & Hl & HP) HK. unfold wp.
  specialize (HK _ _ _ _ HP).
  destruct (m w) as [r w1]; simpl in *.
  destruct HK as (tr' & ls' & Hc' & Hl' & HQ).
  exists (tr ++ tr'), (ls ++ ls').
  by rewrite Hc', Hl', Hc, Hl, !app_assoc.
Qed.

Lemma wp_pure {X} (x : X) w (Q : _ -> _ -> _ -> _ -> Prop) :
  Q x [] [] w -> wp (fun w0 => (x, w0)) w Q.
Proof. intros HQ. exists [], []. simpl. by rewrite !app_nil_r. Qed.

Lemma BodyRun_outputDir file channelId od r tr :
  BodyRun file channelId od r tr -> od = None \/ od = Some (outputDir_of file).
Proof. destruct 1; auto. Qed.

Lemma fetch_and_measure_spec file w :
  wp (downloadFile env (url_private file) (tempFilePath_of file) ;;;
      fsp_stat env (tempFilePath_of file)) w
     (fun r tr ls w' =>
        cleanup_errors ls = [] /\
        (forall q, q <> tempFilePath_of file -> w_fs w' !! q = w_fs w !! q) /\
        ((exists e, r = Throw e /\
            tr = [CallDownload (url_private file) (tempFilePath_of file) (Some e)])
         \/ tr = [CallDownload (url_private file) (tempFilePath_of file) None;
                  CallStat (tempFilePath_of file) r])).
Proof.
  wp_next downloadFile_spec. destruct H as (failure & -> & -> & Hls & Hother).
  destruct failure as [e|]; simpl.
  - repeat split; [done..|]. left. by exists e.
  - eapply wp_mono; [apply fsp_stat_spec|]. cbv beta.
    intros r tr ls' w' (-> & -> & Hfs). rewrite app_nil_r.
    repeat split; [done| |by right].
    intros q Hq. rewrite Hfs. auto.
Qed.

(** The branch taken when the file exceeds the limit. *)
Lemma split_branch_spec file channelId w :
  wp (console_log "File size exceeds 25MB. Splitting the file..." "" ;;;
      fsp_mkdir env (outputDir_of file) ;;;
      segments <- splitAudioFile env (tempFilePath_of file) (outputDir_of file) 300 ;;
      console_log "File split into "
        (string_of_nat (length segments) +:+ " segments") ;;;
      transcriptionText <- transcribeSegments env (outputDir_of file) segments "" ;;
      postResult env file channelId transcriptionText) w
     (fun r tr ls w' =>
        cleanup_errors ls = [] /\
        ((exists entries, w_fs w' !! outputDir_of file = Some (Dir entries)) <->
         (exists entries, w_fs w !! outputDir_of file = Some (Dir entries)) \/
         exists tr', tr = CallMkdir (outputDir_of file) None :: tr') /\
        ((exists e, r = Throw e /\ tr = [CallMkdir (outputDir_of file) (Some e)])
         \/ (exists e tr',
               r = Throw e /\
               SplitRun (tempFilePath_of file) (outputDir_of file) 300 (Throw e) tr' /\
               tr = CallMkdir (outputDir_of file) None :: tr')
         \/ (exists segments trs transcription trl trp,
               SplitRun (tempFilePath_of file) (outputDir_of file) 300
                 (Ok segments) trs /\
               LoopRun (outputDir_of file) segments "" transcription trl /\
               PostRun file channelId transcription r trp /\
               tr = CallMkdir (outputDir_of file) None :: trs ++ trl ++ trp))).
Proof.
  wp_next console_log_silent. destruct H as (-> & -> & Hls & Hfs0).
  wp_next fsp_mkdir_spec. destruct H as (failure & -> & -> & -> & _ & Hmade).
  rewrite Hfs0 in Hmade.
  destruct failure as [e|]; simpl.
  { rewrite app_nil_r. split; [done|]. split; [|left; by exists e].
    rewrite Hmade. split.
    - intros [?|[=]]. by left.
    - intros [?|[tr' [=]]]. by left. }
  assert (forall w' : World,
    (exists entries, w_fs w' !! outputDir_of file = Some (Dir entries)) ->
    forall tr',
      ((exists entries, w_fs w' !! outputDir_of file = Some (Dir entries)) <->
       (exists entries, w_fs w !! outputDir_of file = Some (Dir entries)) \/
       exists tr'', CallMkdir (outputDir_of file) None :: tr' =
                    CallMkdir (outputDir_of file) None :: tr'')) as Hthere.
  { intros w' Hdir tr'. split; [intros _; right; by exists tr'|done]. }
  assert (exists entries, w_fs w1 !! outputDir_of file = Some (Dir entries))
    as [made Hdir1].
  { apply Hmade. by right. }
  wp_next splitAudioFile_spec. destruct H as (Hsplit & Hls1 & _ & _ & Hstays).
  assert (exists entries, w_fs w2 !! outputDir_of file = Some (Dir entries))
    as Hdir2.
  { by apply (Hstays made). }
  destruct r as [segments|e]; simpl.
  2:{ split; [by apply cleanup_errors_app|]. split.
      - by apply Hthere.
      - right. left. by exists e, tr. }
  wp_next console_log_silent. destruct H as (-> & -> & Hls2 & Hfs3).
  wp_next transcribeSegments_spec. destruct H as (Hloop & Hls3 & Hfs4).
  destruct r as [text|e]; simpl.
  2:{ split; [by repeat apply cleanup_errors_app|]. split.
      - apply Hthere. by rewrite Hfs4, Hfs3.
      - right. right.
        exists segments, tr, (Throw e), tr0, []. rewrite app_nil_r.
        repeat split; [done..|constructor]. }
  eapply wp_mono; [apply postResult_spec|]. cbv beta.
  intros r trp ls' w' (Hpost & Hls4 & Hfs5).
  split; [by repeat apply cleanup_errors_app|]. split.
  - apply Hthere. by rewrite Hfs5, Hfs4, Hfs3.
  - right. right. by exists segments, tr, (Ok text), tr0, trp.
Qed.

Lemma direct_branch_spec file channelId w :
  wp (transcriptionText <- transcribeAudio env (tempFilePath_of file) ;;
      postResult env file channelId transcriptionText) w
     (fun r tr ls w' =>
        cleanup_errors ls = [] /\ w_fs w' = w_fs w /\
        exists answer trp,
          PostRun file channelId answer r trp /\
          tr = CallTranscribe (tempFilePath_of file) answer :: trp).
Proof.
  wp_next transcribeAudio_spec. destruct H as (-> & -> & Hfs).
  destruct r as [text|e]; simpl.
  - eapply wp_mono; [apply postResult_spec|]. cbv beta.
    intros r trp ls' w' (Hpost & Hls & Hfs').
    repeat split; [done|congruence|]. by exists (Ok text), trp.
  - repeat split; [done|]. exists (Throw e), []. split; [constructor|done].
Qed.

Lemma processAudioFile_try_spec file channelId w :
  wp (processAudioFile_try env file channelId) w (body_post file channelId w).
Proof.
  unfold processAudioFile_try. cbv zeta.
  eapply wp_then; [apply fetch_and_measure_spec|]. cbv beta.
  intros r tr ls w1 (Hls & Hother & Hshape).
  pose proof (Hother (outputDir_of file) (tempFilePath_not_outputDir file))
    as Hdir1.
  assert (forall (w' : World) tr',
    w_fs w' = w_fs w1 ->
    Forall (fun c => forall path failure, c <> CallMkdir path failure) tr' ->
    ((exists entries, w_fs w' !! outputDir_of file = Some (Dir entries)) <->
     (exists entries, w_fs w !! outputDir_of file = Some (Dir entries)) \/
     CallMkdir (outputDir_of file) None ∈ tr')) as Hnone.
  { intros w' tr' Hfs Hall. rewrite Hfs, Hdir1. split; [by left|].
    intros [?|Hin]; [done|]. rewrite Forall_forall in Hall.
    by destruct (Hall _ Hin (outputDir_of file) None). }
  destruct r as [size|e].
  - destruct Hshape as [(e & [=] & _)| ->].
    destruct (exceedsLimit size) eqn:Hsize.
    + eapply wp_then; [apply split_branch_spec|]. cbv beta.
      intros r tr ls' w2 (Hls' & Hmade & Hshape). apply wp_pure.
      rewrite !app_nil_r. unfold body_post. simpl.
      split; [|split; [by apply cleanup_errors_app|split; [done|]]].
      * destruct Hshape as [(e & -> & ->)|[(e & tr' & -> & Hsplit & ->)
          |(segments & trs & transcription & trl & trp & Hsplit & Hloop & Hpost & ->)]].
        -- by apply Body_mkdir_failed.
        -- by apply (Body_split_failed _ _ size e tr').
        -- by apply (Body_split _ _ size segments trs transcription trl r trp).
      * rewrite Hdir1 in Hmade. rewrite Hmade.
        rewrite !elem_of_cons. split.
        -- intros [?|[tr' ->]]; [by left|]. right. right. right. by left.
        -- intros [?|[?|[?|Hin]]]; [by left|done..|].
           destruct Hshape as [(e & _ & ->)|[(e & tr' & _ & _ & ->)
             |(? & trs & ? & trl & trp & _ & _ & _ & ->)]];
             [|right; by eexists..].
           by apply list_elem_of_singleton in Hin.
    + eapply wp_then; [apply direct_branch_spec|]. cbv beta.
      intros r tr ls' w2 (Hls' & Hfs & answer & trp & Hpost & ->). apply wp_pure.
      rewrite !app_nil_r. unfold body_post. simpl.
      split; [|split; [by apply cleanup_errors_app|split]].
      * by apply (Body_direct _ _ size answer r trp).
      * intros _ q Hq. rewrite Hfs. auto.
      * apply Hnone; [done|]. repeat constructor; try done.
        destruct Hpost; by repeat constructor.
  - apply wp_pure. rewrite !app_nil_r. unfold body_post. simpl.
    split; [|split; [done|split; [done|]]].
    + destruct Hshape as [(e' & [= <-] & ->)| ->]; constructor.
    + apply Hnone; [done|].
      destruct Hshape as [(e' & _ & ->)| ->]; by repeat constructor.
Qed.

(** *** [processAudioFile] *)

Lemma processAudioFile_spec file channelId w :
  wp (processAudioFile env file channelId) w (run_post env file channelId w).
Proof.
  unfold processAudioFile.
  eapply wp_then; [apply console_log_silent|]. cbv beta.
  intros r0 tr0 ls0 w0 (_ & -> & Hls0 & Hfs0).
  eapply wp_then; [apply processAudioFile_try_spec|]. cbv beta.
  intros [od completion0] body ls1 w1 (Hbody & Hls1 & Hother & _). simpl in *.
  set (t := tempFilePath_of file) in *.
  assert (wp (match completion0 with
              | Ok _ => cleanupFiles env t od
              | Throw error =>
                  console_error "Error processing audio file:" error ;;;
                  cleanupFiles env t od
              end) w1
            (fun r tr ls w' =>
               exists ls_catch ls_clean,
                 ls = ls_catch ++ ls_clean /\ cleanup_errors ls_catch = [] /\
                 cleanup_post env t od w1 r tr ls_clean w')) as Hfinally.
  { destruct completion0 as [[]|error].
    - eapply wp_mono; [apply cleanupFiles_spec|]. cbv beta.
      intros r tr ls w' Hpost. by exists [], ls.
    - eapply wp_bind with (P := fun r tr ls w' =>
        r = Ok tt /\ tr = [] /\
        ls = [ConsoleError "Error processing audio file:" error] /\
        w_fs w' = w_fs w1).
      { exists [], [ConsoleError "Error processing audio file:" error].
        simpl. by rewrite app_nil_r. }
      intros r tr ls w2 (-> & -> & -> & Hfs2).
      eapply wp_mono; [apply cleanupFiles_spec|]. cbv beta.
      intros r tr ls w' (-> & tr' & -> & Hrem & Hlog & Hkeep & Hoth & Hgone).
      exists [ConsoleError "Error processing audio file:" error], ls.
      split; [done|]. split; [done|]. split; [done|]. exists tr'.
      rewrite Hfs2 in Hkeep. setoid_rewrite Hfs2 in Hoth. done. }
  eapply wp_ext with (m' := fun w2 =>
    match (match completion0 with
           | Ok _ => cleanupFiles env t od
           | Throw error =>
               console_error "Error processing audio file:" error ;;;
               cleanupFiles env t od
           end) w2 with
    | (r, w3) => match r with
                 | Ok _ => (completion0, w3)
                 | Throw cleanupError => (Throw cleanupError, w3)
                 end
    end).
  { by destruct completion0. }
  eapply wp_then; [apply Hfinally|]. cbv beta.
  intros r tr ls w3 (ls_catch & ls_clean & -> & Hcatch
                     & -> & removals & -> & Hrem & Hlog & Hkeep & Hoth & Hgone).
  apply wp_pure. simpl. rewrite !app_nil_r.
  exists od, body, removals, (ls0 ++ ls1 ++ ls_catch), ls_clean.
  split; [done|]. split; [done|]. split; [done|].
  split; [by rewrite !app_assoc|].
  split; [by repeat apply cleanup_errors_app|].
  split; [done|].
  split.
  - intros Hod q Hq Hnone. apply Hkeep.
    rewrite Hother by done. by rewrite Hfs0.
  - intros Hrel Herr. destruct (Hgone Hrel Herr) as [Ht Hd].
    split; [by apply Ht|].
    intros Hod. destruct (BodyRun_outputDir _ _ _ _ _ Hbody) as [->| ->]; [done|].
    by apply Hd.
Qed.

End Specs.

(** ** Reading the calls of a run *)

Lemma processAudioFile_run env file channelId w :
  run_post env file channelId w
    (fst (processAudioFile env file channelId w))
    (calls_during (processAudioFile env file channelId) w)
    (console_during (processAudioFile env file channelId) w)
    (snd (processAudioFile env file channelId w)).
Proof. apply wp_elim, processAudioFile_spec. Qed.

Lemma wp_calls {X} (m : World -> X * World) w Q :
  wp m w Q -> w_calls (snd (m w)) = w_calls w ++ calls_during m w.
Proof.
  intros (tr & ls & Hc & _). unfold calls_during.
  by rewrite Hc, drop_app_length.
Qed.

(** [cleanupFiles] never throws. *)
Lemma cleanupFiles_returns env t od w : fst (cleanupFiles env t od w) = Ok tt.
Proof. by destruct (wp_elim _ _ _ (cleanupFiles_spec env t od w)) as [? _]. Qed.

(** A run is its [try] block followed by [cleanupFiles]; its completion is
    the completion of the [try] block. *)
Lemma processAudioFile_unfold env file channelId w :
  let w0 := snd (console_log "Processing audio file:" (name file) w) in
  let x := processAudioFile_try env file channelId w0 in
  fst (processAudioFile env file channelId w) = x.1.2 /\
  exists removals,
    calls_during (processAudioFile env file channelId) w
    = calls_during (processAudioFile_try env file channelId) w0
      ++ CallCleanup (tempFilePath_of file) x.1.1 :: removals /\
    Forall (fun c => is_removal c = true) removals.
Proof.
  intros w0 x.
  pose proof (wp_calls _ _ _ (processAudioFile_try_spec env file channelId w0))
    as Hbody.
  assert (w_calls w0 = w_calls w) as Hw0 by done.
  unfold calls_during at 1. unfold processAudioFile.
  change (console_log "Processing audio file:" (name file) w) with (Ok tt, w0).
  cbv beta iota. subst x. clearbody w0.
  destruct (processAudioFile_try env file channelId w0) as [[od completion0] w1].
  simpl in Hbody. cbv beta iota.
  match goal with
  | |- context [cleanupFiles env _ od ?wc] => set (w2 := wc)
  end.
  assert (w_calls w2 = w_calls w1) as Hcatch by (by destruct completion0).
  pose proof (cleanupFiles_returns env (tempFilePath_of file) od w2) as Hret.
  destruct (wp_elim _ _ _ (cleanupFiles_spec env (tempFilePath_of file) od w2))
    as (_ & removals & Hremovals & Hrem & _).
  pose proof (wp_calls _ _ _ (cleanupFiles_spec env (tempFilePath_of file) od w2))
    as Hclean.
  destruct (cleanupFiles env (tempFilePath_of file) od w2) as [r w3].
  simpl in Hret, Hclean. subst r. simpl. split; [done|].
  exists removals. split; [|done].
  rewrite Hclean, Hremovals, Hcatch, Hbody, Hw0.
  by rewrite <- app_assoc, drop_app_length.
Qed.

(** Opens the shape of the [try] block into its ten ways to end. *)
Ltac open_run H :=
  destruct H;
  repeat match goal with
    | H' : SplitRun _ _ _ _ _ |- _ => inversion H'; subst; clear H'
    | H' : LoopRun _ _ _ _ _ |- _ => inversion H'; subst; clear H'
    | H' : PostRun _ _ _ _ _ |- _ => inversion H'; subst; clear H'
    end.

(** ** The size test *)

Lemma exceedsLimit_spec size :
  exceedsLimit size = true <-> (26214400 < size)%N.
Proof.
  unfold exceedsLimit, fileSizeInMegabytes.
  rewrite negb_true_iff, <- not_true_iff_false, Qle_bool_iff.
  unfold Qle, Qdiv, Qmult, Qinv, inject_Z. simpl. lia.
Qed.

Lemma exceedsLimit_false size :
  exceedsLimit size = false <-> (size <= 26214400)%N.
Proof.
  rewrite <- not_true_iff_false, exceedsLimit_spec. lia.
Qed.

(** ** The direct path *)

(** C8. A run that measured at most 26214400 bytes requests exactly one
    transcription, of the whole temp file, and never enters
    [splitAudioFile]; the text it posts is the text of that answer, with
    nothing appended; when the transcription fails nothing is posted and
    the run throws that error. *)
Theorem direct_path_single_transcription env file channelId w size :
  let calls := calls_during (processAudioFile env file channelId) w in
  (tempFilePath_of file, Ok size) ∈ stats calls ->
  (size <= 26214400)%N ->
  exists answer,
    transcriptions calls = [(tempFilePath_of file, answer)] /\
    splits calls = [] /\
    match answer with
    | Ok text => posted calls = [(channelId, result_text file text)]
    | Throw e =>
        posted calls = [] /\
        fst (processAudioFile env file channelId w) = Throw e
    end.
Proof.
  intros calls Hstat Hsize. subst calls.
  destruct (processAudioFile_run env file channelId w)
    as (od & body & removals & ls_body & ls_clean & Hcalls & Hbody & Hrem & _).
  rewrite Hcalls in *. clear Hcalls.
  open_run Hbody; observe.
  all: try (by apply elem_of_nil in Hstat).
  all: apply list_elem_of_singleton in Hstat; simplify_eq.
  all: try (apply exceedsLimit_spec in H; lia).
  - by exists (Throw e).
  - by exists (Ok text).
Qed.

Lemma direct_path_single_transcription_witness :
  exists answer,
    transcriptions (calls_during (processAudioFile env_small talk "C024BE91L") w_empty)
    = [(tempFilePath_of talk, answer)] /\
    splits (calls_during (processAudioFile env_small talk "C024BE91L") w_empty) = [] /\
    match answer with
    | Ok text =>
        posted (calls_during (processAudioFile env_small talk "C024BE91L") w_empty)
        = [("C024BE91L", result_text talk text)]
    | Throw e =>
        posted (calls_during (processAudioFile env_small talk "C024BE91L") w_empty) = [] /\
        fst (processAudioFile env_small talk "C024BE91L" w_empty) = Throw e
    end.
Proof.
  apply (direct_path_single_transcription env_small talk "C024BE91L" w_empty 1000).
  - vm_compute. left.
  - lia.
Defined.

(** ** The two scratch paths of a run *)

Lemma tempFilePath_not_segment file segment :
  path_join (outputDir_of file) segment <> tempFilePath_of file.
Proof.
  unfold tempFilePath_of, outputDir_of, path_join. intros Heq.
  rewrite !string_app_assoc in Heq.
  apply (inj (String.app "/tmp/")), (inj (String.app (id file))) in Heq.
  discriminate Heq.
Qed.

Lemma cleanup_errors_app_nil ls ls' :
  cleanup_errors (ls ++ ls') = [] -> cleanup_errors ls' = [].
Proof.
  unfold cleanup_errors. rewrite omap_app. intros H.
  by apply app_eq_nil in H as [_ ?].
Qed.

(** ** The size branch *)

(** C5. The branch test is [size / 2^20 > 25], that is [size > 26214400]: a
    file of exactly 26214400 bytes is transcribed directly, and a run that
    measured [size] makes the segment directory and leaves the whole file
    untranscribed exactly when [size] is larger. *)
Theorem size_branch_is_strict :
  exceedsLimit 26214400 = false /\
  (forall size, exceedsLimit size = true <-> (26214400 < size)%N) /\
  forall env file channelId w size,
    let calls := calls_during (processAudioFile env file channelId) w in
    (tempFilePath_of file, Ok size) ∈ stats calls ->
    ((26214400 < size)%N ->
       mkdirs calls = [outputDir_of file] /\
       cleanups calls = [(tempFilePath_of file, Some (outputDir_of file))] /\
       forall answer, (tempFilePath_of file, answer) ∉ transcriptions calls) /\
    ((size <= 26214400)%N ->
       mkdirs calls = [] /\ splits calls = [] /\
       cleanups calls = [(tempFilePath_of file, None)] /\
       exists answer, transcriptions calls = [(tempFilePath_of file, answer)]).
Proof.
  split; [done|]. split; [apply exceedsLimit_spec|].
  intros env file channelId w size calls Hstat. subst calls.
  destruct (processAudioFile_run env file channelId w)
    as (od & body & removals & ls_body & ls_clean & Hcalls & Hbody & Hrem & _).
  rewrite Hcalls in *. clear Hcalls.
  assert (forall segments texts (answer : Result string),
    (tempFilePath_of file, answer)
    ∉ zip_with (fun segment text => (path_join (outputDir_of file) segment, Ok text))
        segments texts) as Hzip.
  { intros segments texts answer Hin.
    apply elem_of_zip_with in Hin as (s & t & Heq & _).
    apply (f_equal fst) in Heq. simpl in Heq. symmetry in Heq.
    by apply (tempFilePath_not_segment file s). }
  open_run Hbody; observe.
  all: try (by apply elem_of_nil in Hstat).
  all: apply list_elem_of_singleton in Hstat; simplify_eq.
  all: match goal with
       | H : exceedsLimit _ = true |- _ => apply exceedsLimit_spec in H
       | H : exceedsLimit _ = false |- _ => apply exceedsLimit_false in H
       end.
  all: split; intros Hsize; try lia.
  all: try (by eauto).
  all: repeat split; try done.
  all: intros answer Hin; try (by apply elem_of_nil in Hin).
  all: try apply elem_of_app in Hin as [Hin|Hin]; try (by apply Hzip in Hin).
  apply list_elem_of_singleton in Hin.
  apply (f_equal fst) in Hin. simpl in Hin. symmetry in Hin.
  by apply (tempFilePath_not_segment file segment).
Qed.

Lemma size_branch_is_strict_witness :
  mkdirs (calls_during (processAudioFile env_boundary talk "C024BE91L") w_empty) = [] /\
  splits (calls_during (processAudioFile env_boundary talk "C024BE91L") w_empty) = [] /\
  cleanups (calls_during (processAudioFile env_boundary talk "C024BE91L") w_empty)
  = [(tempFilePath_of talk, None)] /\
  exists answer,
    transcriptions (calls_during (processAudioFile env_boundary talk "C024BE91L") w_empty)
    = [(tempFilePath_of talk, answer)].
Proof.
  apply (proj2 (proj2 size_branch_is_strict)
           env_boundary talk "C024BE91L" w_empty 26214400%N).
  - vm_compute. left.
  - lia.
Defined.

(** ** Cleanup *)

(** C1, as stated, fails in three ways.  When [fsp.unlink] rejects,
    [cleanupFiles] logs the error and returns, and the temp file is still
    there after the run.  When [fsp.access] rejects, the removal is skipped
    and nothing is logged.  And a run that does not split leaves a segment
    directory that was there before it. *)
Lemma cleanup_can_leave_scratch_paths :
  (fst (processAudioFile env_unlink_refused talk "C024BE91L" w_empty) = Ok tt /\
   cleanups (calls_during (processAudioFile env_unlink_refused talk "C024BE91L") w_empty)
   = [("/tmp/F1.mp3", None)] /\
   w_fs (snd (processAudioFile env_unlink_refused talk "C024BE91L" w_empty))
     !! "/tmp/F1.mp3" = Some (File 1000)) /\
  (fst (processAudioFile env_access_refused talk "C024BE91L" w_empty) = Ok tt /\
   cleanup_errors
     (console_during (processAudioFile env_access_refused talk "C024BE91L") w_empty)
   = [] /\
   w_fs (snd (processAudioFile env_access_refused talk "C024BE91L" w_empty))
     !! "/tmp/F1.mp3" = Some (File 1000)) /\
  (fst (processAudioFile env_small talk "C024BE91L" w_segments_dir) = Ok tt /\
   w_fs (snd (processAudioFile env_small talk "C024BE91L" w_segments_dir))
     !! "/tmp/F1_segments" = Some (Dir [])).
Proof. by vm_compute. Qed.

(** C1, amended. Every run of [processAudioFile], however it ends, enters
    [cleanupFiles] exactly once, with the temp file path of the run.  When
    [fsp.access] rejects for missing paths only and the run logs no cleanup
    error, the temp file does not exist afterwards, and neither does the
    segment directory if the run called [mkdir] on it or it did not exist
    before the run. *)
Theorem cleanup_runs_once_and_removes env file channelId w :
  let calls := calls_during (processAudioFile env file channelId) w in
  let w' := snd (processAudioFile env file channelId w) in
  (exists outputDir, cleanups calls = [(tempFilePath_of file, outputDir)]) /\
  (access_reliable env ->
   cleanup_errors (console_during (processAudioFile env file channelId) w) = [] ->
   w_fs w' !! tempFilePath_of file = None /\
   (outputDir_of file ∈ mkdirs calls \/ w_fs w !! outputDir_of file = None ->
    w_fs w' !! outputDir_of file = None)).
Proof.
  intros calls w'. subst calls w'.
  destruct (processAudioFile_run env file channelId w)
    as (od & body & removals & ls_body & ls_clean & Hcalls & Hbody & Hrem
        & Hls & Hquiet & Hlog & Hkeep & Hgone).
  rewrite Hcalls, Hls. clear Hcalls Hls. split.
  - exists od. clear Hkeep Hgone. open_run Hbody; by observe.
  - intros Hrel Herr. apply cleanup_errors_app_nil in Herr.
    destruct (Hgone Hrel Herr) as [Htemp Hdir]. split; [done|].
    destruct od as [dir|]; [intros _; by apply Hdir|].
    intros [Hmade|Hfresh].
    + exfalso. clear Hkeep Hgone Hdir Htemp.
      remember None as od eqn:Hod.
      open_run Hbody; observe; try discriminate Hod.
      all: by apply elem_of_nil in Hmade.
    + apply Hkeep; [done|apply tempFilePath_not_outputDir|done].
Qed.

Lemma cleanup_runs_once_and_removes_witness :
  w_fs (snd (processAudioFile env_split talk "C024BE91L" w_empty))
    !! tempFilePath_of talk = None /\
  (outputDir_of talk
   ∈ mkdirs (calls_during (processAudioFile env_split talk "C024BE91L") w_empty) \/
   w_fs w_empty !! outputDir_of talk = None ->
   w_fs (snd (processAudioFile env_split talk "C024BE91L" w_empty))
     !! outputDir_of talk = None).
Proof.
  apply (proj2 (cleanup_runs_once_and_removes env_split talk "C024BE91L" w_empty)).
  - intros w path. reflexivity.
  - by vm_compute.
Defined.

(** ** The segment directory *)

(** C9, as stated, fails in two ways.  On the split branch [mkdir] can
    reject, and then no directory is made.  And when the connection breaks
    after a partial file was written and [fsp.unlink] rejects, the partial
    file is still there after the run. *)
Lemma directory_not_made_and_partial_file_left :
  (stats (calls_during (processAudioFile env_mkdir_fails talk "C024BE91L") w_empty)
   = [("/tmp/F1.mp3", Ok 41943040%N)] /\
   mkdirs (calls_during (processAudioFile env_mkdir_fails talk "C024BE91L") w_empty)
   = ["/tmp/F1_segments"] /\
   w_fs (snd (processAudioFile_try env_mkdir_fails talk "C024BE91L"
                (snd (console_log "Processing audio file:" (name talk) w_empty))))
     !! "/tmp/F1_segments" = None /\
   fst (processAudioFile env_mkdir_fails talk "C024BE91L" w_empty)
   = Throw mkdir_refused) /\
  (fst (processAudioFile env_stream_breaks_unlink_refused talk "C024BE91L" w_empty)
   = Throw aborted /\
   downloads (calls_during
                (processAudioFile env_stream_breaks_unlink_refused talk "C024BE91L")
                w_empty)
   = [("https://files.slack.com/F1", "/tmp/F1.mp3", Some aborted)] /\
   w_fs (snd (processAudioFile env_stream_breaks_unlink_refused talk "C024BE91L"
                w_empty))
     !! "/tmp/F1.mp3" = Some (File 5)).
Proof. by vm_compute. Qed.

Lemma mkdir_not_in_cleanup p failure body t od removals :
  Forall (fun c => is_removal c = true) removals ->
  CallMkdir p failure ∈ body ++ CallCleanup t od :: removals ->
  CallMkdir p failure ∈ body.
Proof.
  intros Hrem Hin. apply elem_of_app in Hin as [Hin|Hin]; [done|].
  apply elem_of_cons in Hin as [Hin|Hin]; [done|].
  rewrite Forall_forall in Hrem. by apply Hrem in Hin.
Qed.

Lemma mkdir_not_transcribed p failure dir segments texts :
  CallMkdir p failure ∉ transcribed dir segments texts.
Proof.
  intros Hin. pose proof (transcribed_calls dir segments texts) as Hall.
  rewrite Forall_forall in Hall. by apply Hall in Hin.
Qed.

(** The [try] block calls [mkdir] only after it measured a size above the
    limit. *)
Lemma BodyRun_mkdir file channelId od r body failure :
  BodyRun file channelId od r body ->
  CallMkdir (outputDir_of file) failure ∈ body ->
  exists size,
    (tempFilePath_of file, Ok size) ∈ stats body /\ exceedsLimit size = true.
Proof.
  intros Hbody Hin. open_run Hbody; observe.
  all: repeat match goal with
       | H : _ ∈ _ ++ _ |- _ => apply elem_of_app in H as [H|H]
       | H : _ ∈ _ :: _ |- _ => apply elem_of_cons in H as [H|H]
       | H : _ ∈ [] |- _ => by apply elem_of_nil in H
       | H : CallMkdir _ _ ∈ transcribed _ _ _ |- _ =>
           by apply mkdir_not_transcribed in H
       | H : CallMkdir _ _ = _ |- _ => try discriminate H; clear H
       end.
  all: eexists; split; [by apply list_elem_of_singleton|done].
Qed.

(** C9, amended. The segment directory is on disk when the [try] block is
    left exactly when it was there before the run, or the run measured a
    size above 26214400 bytes and [mkdir] did not reject: a run makes it
    only on the split branch, and there only when [mkdir] goes through.
    When the download fails, [mkdir] is not called, the [try] block leaves
    the path of the directory as it found it, and a directory that was not
    there before the run is not there after it; the temp file is gone after
    the run when [fsp.access] rejects for missing paths only and no cleanup
    error is logged. *)
Theorem segment_dir_made_on_split_path_only env file channelId w :
  let calls := calls_during (processAudioFile env file channelId) w in
  let w' := snd (processAudioFile env file channelId w) in
  let w_try :=
    snd (processAudioFile_try env file channelId
           (snd (console_log "Processing audio file:" (name file) w))) in
  ((exists entries, w_fs w_try !! outputDir_of file = Some (Dir entries)) <->
   (exists entries, w_fs w !! outputDir_of file = Some (Dir entries)) \/
   exists size,
     (tempFilePath_of file, Ok size) ∈ stats calls /\ (26214400 < size)%N /\
     CallMkdir (outputDir_of file) None ∈ calls) /\
  (forall e,
     (url_private file, tempFilePath_of file, Some e) ∈ downloads calls ->
     mkdirs calls = [] /\
     w_fs w_try !! outputDir_of file = w_fs w !! outputDir_of file /\
     (w_fs w !! outputDir_of file = None -> w_fs w' !! outputDir_of file = None) /\
     (access_reliable env ->
      cleanup_errors (console_during (processAudioFile env file channelId) w) = [] ->
      w_fs w' !! tempFilePath_of file = None)).
Proof.
  intros calls w' w_try. subst calls w' w_try.
  destruct (processAudioFile_unfold env file channelId w)
    as (_ & removals & Hcalls & Hrem).
  destruct (wp_elim _ _ _ (processAudioFile_try_spec env file channelId
              (snd (console_log "Processing audio file:" (name file) w))))
    as (Hbody & _ & Hframe & Hmade).
  change (w_fs (snd (console_log "Processing audio file:" (name file) w)))
    with (w_fs w) in *.
  rewrite Hcalls. split.
  - rewrite Hmade. split.
    + intros [Hdir|Hin]; [by left|]. right.
      destruct (BodyRun_mkdir _ _ _ _ _ _ Hbody Hin) as (size & Hstat & Hsize).
      exists size. split_and!.
      * unfold stats in *. rewrite select_app. apply elem_of_app. by left.
      * by apply exceedsLimit_spec.
      * apply elem_of_app. by left.
    + intros [Hdir|(size & _ & _ & Hin)]; [by left|]. right.
      by apply mkdir_not_in_cleanup in Hin.
  - intros e Hin.
    assert ((processAudioFile_try env file channelId
               (snd (console_log "Processing audio file:" (name file) w))).1.1
            = None /\
            mkdirs (calls_during (processAudioFile_try env file channelId)
                      (snd (console_log "Processing audio file:" (name file) w))
                    ++ CallCleanup (tempFilePath_of file)
                         (processAudioFile_try env file channelId
                            (snd (console_log "Processing audio file:"
                                    (name file) w))).1.1
                       :: removals) = []) as [Hod Hmk].
    { clear Hframe Hmade. open_run Hbody; observe.
      all: try (apply list_elem_of_singleton in Hin; simplify_eq).
      done. }
    split; [done|]. split; [|split].
    + apply (Hframe Hod), tempFilePath_not_outputDir.
    + intros Hfresh.
      destruct (processAudioFile_run env file channelId w)
        as (od & body & removals' & ls_body & ls_clean & Hcalls' & Hbody'
            & Hrem' & _ & _ & _ & Hkeep & _).
      apply Hkeep; [|apply tempFilePath_not_outputDir|done].
      rewrite Hcalls in Hcalls'. rewrite Hcalls' in Hin. clear Hkeep.
      open_run Hbody'; observe; try done.
      all: by apply list_elem_of_singleton in Hin; simplify_eq.
    + intros Hrel Herr.
      destruct (processAudioFile_run env file channelId w)
        as (od & body & removals' & ls_body & ls_clean & _ & _
            & _ & Hls & _ & _ & _ & Hgone).
      rewrite Hls in Herr. apply cleanup_errors_app_nil in Herr.
      by destruct (Hgone Hrel Herr).
Qed.

Lemma segment_dir_made_on_split_path_only_witness :
  mkdirs (calls_during (processAudioFile env_stream_breaks talk "C024BE91L") w_empty)
  = [] /\
  w_fs (snd (processAudioFile_try env_stream_breaks talk "C024BE91L"
               (snd (console_log "Processing audio file:" (name talk) w_empty))))
    !! outputDir_of talk = w_fs w_empty !! outputDir_of talk /\
  w_fs (snd (processAudioFile env_stream_breaks talk "C024BE91L" w_empty))
    !! outputDir_of talk = None /\
  w_fs (snd (processAudioFile env_stream_breaks talk "C024BE91L" w_empty))
    !! tempFilePath_of talk = None.
Proof.
  destruct (proj2 (segment_dir_made_on_split_path_only
                     env_stream_breaks talk "C024BE91L" w_empty) aborted)
    as (Hmk & Htry & Hdir & Htemp).
  - vm_compute. left.
  - split; [exact Hmk|]. split; [exact Htry|].
    split; [apply Hdir; by vm_compute|].
    apply Htemp; [intros w path; reflexivity|by vm_compute].
Defined.

(** ** A split that yields no segment *)

(** C3, as stated, fails: when ffmpeg ends and the directory holds no
    segment, the loop runs zero times and the run completes, posting an
    empty transcription. *)
Lemma no_segment_run_completes :
  stats (calls_during (processAudioFile env_no_segment talk "C024BE91L") w_empty)
  = [("/tmp/F1.mp3", Ok 41943040%N)] /\
  readdirs (calls_during (processAudioFile env_no_segment talk "C024BE91L") w_empty)
  = [("/tmp/F1_segments", Ok [])] /\
  fst (processAudioFile env_no_segment talk "C024BE91L" w_empty) = Ok tt /\
  posted (calls_during (processAudioFile env_no_segment talk "C024BE91L") w_empty)
  = [("C024BE91L", result_text talk "")].
Proof. by vm_compute. Qed.

(** C3, amended. When the listing of the segment directory holds no segment
    name, no transcription is requested, the empty transcription is
    posted, and the run ends as the posting does: normally, unless
    [postMessage] itself rejects. *)
Theorem no_segment_posts_empty_transcription env file channelId w entries :
  let calls := calls_during (processAudioFile env file channelId) w in
  (outputDir_of file, Ok entries) ∈ readdirs calls ->
  segments_of entries = [] ->
  transcriptions calls = [] /\
  posted calls = [(channelId, result_text file "")] /\
  exists failure,
    CallPostMessage channelId (result_text file "") failure ∈ calls /\
    fst (processAudioFile env file channelId w) = completion failure.
Proof.
  intros calls Hread Hnone. subst calls.
  destruct (processAudioFile_run env file channelId w)
    as (od & body & removals & ls_body & ls_clean & Hcalls & Hbody & Hrem & _).
  rewrite Hcalls in *. clear Hcalls.
  open_run Hbody; observe.
  all: try (by apply elem_of_nil in Hread).
  all: apply list_elem_of_singleton in Hread; simplify_eq.
  - rewrite Hnone in *. destruct texts; [|done]. simpl.
    repeat split. exists failure. split; [|done].
    set_solver.
  - rewrite Hnone in *. by destruct before.
Qed.

Lemma no_segment_posts_empty_transcription_witness :
  transcriptions (calls_during (processAudioFile env_no_segment talk "C024BE91L") w_empty)
  = [] /\
  posted (calls_during (processAudioFile env_no_segment talk "C024BE91L") w_empty)
  = [("C024BE91L", result_text talk "")] /\
  exists failure,
    CallPostMessage "C024BE91L" (result_text talk "") failure
    ∈ calls_during (processAudioFile env_no_segment talk "C024BE91L") w_empty /\
    fst (processAudioFile env_no_segment talk "C024BE91L" w_empty) = completion failure.
Proof.
  apply (no_segment_posts_empty_transcription
           env_no_segment talk "C024BE91L" w_empty []).
  - vm_compute. left.
  - by vm_compute.
Defined.

(** ** Errors *)

Lemma ends_one (c : Call) : [c] = [] ++ [c].
Proof. done. Qed.

Lemma ends_cons (a c : Call) l before :
  l = before ++ [c] -> a :: l = (a :: before) ++ [c].
Proof. by intros ->. Qed.

Lemma ends_app (c : Call) l1 l2 before :
  l2 = before ++ [c] -> l1 ++ l2 = (l1 ++ before) ++ [c].
Proof. intros ->. by rewrite app_assoc. Qed.

Lemma transcribed_no_failure dir segments texts :
  Forall (fun c => failure_of c = None) (transcribed dir segments texts).
Proof.
  unfold transcribed. revert texts.
  induction segments as [|s segments IH]; intros [|t texts]; simpl;
    constructor; auto.
Qed.

(** The [try] block throws when one call rejects: that call is its last
    one, all calls before it succeeded, and the error is the one of the
    call, as [propagated] lets it through. *)
Lemma BodyRun_failure file channelId od r body e :
  BodyRun file channelId od r body -> r = Throw e ->
  exists before c e0,
    body = before ++ [c] /\
    Forall (fun c' => failure_of c' = None) before /\
    failure_of c = Some e0 /\
    e = propagated c e0.
Proof.
  intros Hbody Hr. open_run Hbody.
  all: repeat match goal with
       | H : completion ?f = Throw _ |- _ => destruct f; simplify_eq/=
       end.
  all: simplify_eq.
  all: rewrite ?app_nil_r; simpl app.
  all: eexists _, _, _; split;
         [repeat first [apply ends_one | apply ends_cons | apply ends_app]|].
  all: split; [|split; [reflexivity|reflexivity]].
  all: rewrite ?app_nil_r.
  all: rewrite ?Forall_app, ?Forall_cons, ?Forall_nil; repeat split; try done.
  all: apply transcribed_no_failure.
Qed.

(** C4, as stated, fails: the error of a failed segment transcription
    reaches the caller as the service raised it, and names neither the
    segment nor a stage. *)
Lemma segment_failure_is_not_tagged :
  transcriptions
    (calls_during (processAudioFile env_segment_fails talk "C024BE91L") w_empty)
  = [("/tmp/F1_segments/segment_000.mp3", Ok "a");
     ("/tmp/F1_segments/segment_001.mp3", Throw (mkError "Connection error."))] /\
  fst (processAudioFile env_segment_fails talk "C024BE91L" w_empty)
  = Throw (mkError "Connection error.") /\
  includes "Connection error." "segment_001" = false /\
  includes "Connection error." "Transcription" = false.
Proof. by vm_compute. Qed.

(** C4, amended. When [processAudioFile] throws, one call rejected: it is
    the last call before [cleanupFiles] (no later stage runs and nothing
    is tried again), every call before it succeeded, and the error thrown
    is the error of that call with nothing added; only the errors of
    ffprobe, ffmpeg and [readdir] are replaced, by an error whose message
    is prefixed by "FFprobe failed: ", "FFmpeg failed: " or "Failed to
    read output directory: ". *)
Theorem stage_error_propagates_as_raised env file channelId w e :
  fst (processAudioFile env file channelId w) = Throw e ->
  exists before c outputDir removals e0,
    calls_during (processAudioFile env file channelId) w
    = before ++ c :: CallCleanup (tempFilePath_of file) outputDir :: removals /\
    Forall (fun c' => failure_of c' = None) before /\
    failure_of c = Some e0 /\
    e = propagated c e0 /\
    Forall (fun c' => is_removal c' = true) removals.
Proof.
  intros Hthrow.
  destruct (processAudioFile_run env file channelId w)
    as (od & body & removals & ls_body & ls_clean & Hcalls & Hbody & Hrem & _).
  destruct (BodyRun_failure _ _ _ _ _ e Hbody Hthrow)
    as (before & c & e0 & -> & Hbefore & Hfail & He).
  exists before, c, od, removals, e0.
  by rewrite Hcalls, <- app_assoc.
Qed.

Lemma stage_error_propagates_as_raised_witness :
  exists before c outputDir removals e0,
    calls_during (processAudioFile env_segment_fails talk "C024BE91L") w_empty
    = before ++ c :: CallCleanup (tempFilePath_of talk) outputDir :: removals /\
    Forall (fun c' => failure_of c' = None) before /\
    failure_of c = Some e0 /\
    mkError "Connection error." = propagated c e0 /\
    Forall (fun c' => is_removal c' = true) removals.
Proof.
  apply (stage_error_propagates_as_raised
           env_segment_fails talk "C024BE91L" w_empty (mkError "Connection error.")).
  by vm_compute.
Defined.

(** ** The segments *)

(** The names ffmpeg gives the first thousand segments sort in the order of
    their indices. *)
Lemma StronglySorted_lookup {A} (R : relation A) l i j x y :
  StronglySorted R l -> l !! i = Some x -> l !! j = Some y -> i < j -> R x y.
Proof.
  intros Hsorted Hi Hj Hij. rewrite <- (take_drop j l) in Hsorted.
  apply (StronglySorted_app_1_elem_of _ _ _ _ _ Hsorted).
  - apply list_elem_of_lookup. exists i. by rewrite lookup_take_lt.
  - apply list_elem_of_lookup. exists 0. by rewrite lookup_drop, Nat.add_0_r.
Qed.

Lemma segment_names_sorted :
  Sorted (strict js_le) (segment_name <$> seq 0 1000).
Proof. apply (bool_decide_unpack _). by vm_compute. Qed.

Lemma segment_name_lookup i :
  i < 1000 -> (segment_name <$> seq 0 1000) !! i = Some (segment_name i).
Proof. intros Hi. by rewrite list_lookup_fmap, lookup_seq_lt. Qed.

Lemma segment_name_order i j :
  i < 1000 -> j < 1000 ->
  (js_le (segment_name i) (segment_name j) <-> i <= j).
Proof.
  intros Hi Hj.
  pose proof (@Sorted_StronglySorted _ _ js_lt_trans _ segment_names_sorted)
    as Hsorted.
  assert (forall a b, a < 1000 -> b < 1000 -> a < b ->
                      strict js_le (segment_name a) (segment_name b)) as Hlt.
  { intros a b Ha Hb Hab.
    by apply (StronglySorted_lookup _ _ a b _ _ Hsorted);
      [apply segment_name_lookup..|]. }
  split.
  - intros Hle. destruct (decide (i <= j)) as [|Hji]; [done|].
    destruct (Hlt j i) as [_ Hnot]; [done..|lia|]. by destruct Hnot.
  - intros Hle. destruct (decide (i = j)) as [->|].
    { by destruct (js_le_total (segment_name j) (segment_name j)). }
    apply Hlt; [done..|lia].
Qed.

(** Beyond a thousand segments the two orders part. *)
Example segment_1000_sorts_before_101 :
  sort [segment_name 101; segment_name 1000] = [segment_name 1000; segment_name 101].
Proof. by vm_compute. Qed.

Lemma segments_of_sorted entries : Sorted js_le (segments_of entries).
Proof. apply sort_sorted. Qed.

Lemma segments_of_elem entries x :
  x ∈ segments_of entries <-> x ∈ entries /\ startsWith x "segment_" = true.
Proof.
  unfold segments_of. rewrite sort_perm, list_elem_of_filter. tauto.
Qed.

(** Outside ASCII the order of the code units is not the order of the bytes
    nor that of the code points: U+1F600 is the pair D83D DE00, which comes
    before U+FF01. *)
Example sort_compares_code_units :
  code_units "segment_😀" = [115; 101; 103; 109; 101; 110; 116; 95; 0xD83D; 0xDE00]%N /\
  code_units "segment_！" = [115; 101; 103; 109; 101; 110; 116; 95; 0xFF01]%N /\
  sort ["segment_！"; "segment_a"; "segment_😀"]
  = ["segment_a"; "segment_😀"; "segment_！"].
Proof. by vm_compute. Qed.

(** C7. When [splitAudioFile] resolves, its result is the listing of the
    output directory, filtered to the names that start with "segment_" and
    sorted as [Array.prototype.sort()] sorts strings, by UTF-16 code units:
    it is the one arrangement of the filtered listing that is in that order,
    so it is the same whatever order the listing comes in. *)
Theorem split_lists_filters_and_sorts env i o d w segments :
  fst (splitAudioFile env i o d w) = Ok segments ->
  exists entries,
    readdirs (calls_during (splitAudioFile env i o d) w) = [(o, Ok entries)] /\
    w_fs (snd (splitAudioFile env i o d w)) !! o = Some (Dir entries) /\
    segments = sort (filter (fun file => startsWith file "segment_" = true) entries) /\
    segments ≡ₚ filter (fun file => startsWith file "segment_" = true) entries /\
    Sorted js_le segments /\
    (forall arranged,
       arranged ≡ₚ filter (fun file => startsWith file "segment_" = true) entries ->
       Sorted js_le arranged -> arranged = segments) /\
    (forall file, file ∈ segments <->
                  file ∈ entries /\ startsWith file "segment_" = true) /\
    (forall entries',
       entries' ≡ₚ entries ->
       sort (filter (fun file => startsWith file "segment_" = true) entries')
       = segments).
Proof.
  intros Hok.
  destruct (wp_elim _ _ _ (splitAudioFile_spec env i o d w))
    as (Hrun & _ & _ & Hdir).
  rewrite Hok in Hrun. inversion Hrun as [| | |entries Hsegs Hcalls].
  rewrite <- Hcalls in Hdir. exists entries.
  split; [by observe|]. split.
  { apply Hdir. observe. by apply list_elem_of_singleton. }
  split; [done|]. split; [apply sort_perm|].
  split; [apply segments_of_sorted|].
  split.
  { intros arranged Hperm Hsorted.
    apply (@Sorted_unique _ js_le js_le_trans js_le_antisym);
      [done|apply segments_of_sorted|].
    rewrite Hperm. symmetry. apply sort_perm. }
  split; [apply segments_of_elem|].
  intros entries' Hperm. by apply segments_of_order_irrelevant.
Qed.

Lemma split_lists_filters_and_sorts_witness :
  exists entries,
    readdirs (calls_during
                (splitAudioFile env_split "/tmp/F1.mp3" "/tmp/F1_segments" 300)
                w_segments_dir)
    = [("/tmp/F1_segments", Ok entries)] /\
    w_fs (snd (splitAudioFile env_split "/tmp/F1.mp3" "/tmp/F1_segments" 300
                 w_segments_dir)) !! "/tmp/F1_segments" = Some (Dir entries) /\
    ["segment_000.mp3"; "segment_001.mp3"; "segment_002.mp3"]
    = sort (filter (fun file => startsWith file "segment_" = true) entries) /\
    ["segment_000.mp3"; "segment_001.mp3"; "segment_002.mp3"]
    ≡ₚ filter (fun file => startsWith file "segment_" = true) entries /\
    Sorted js_le ["segment_000.mp3"; "segment_001.mp3"; "segment_002.mp3"] /\
    (forall arranged,
       arranged ≡ₚ filter (fun file => startsWith file "segment_" = true) entries ->
       Sorted js_le arranged ->
       arranged = ["segment_000.mp3"; "segment_001.mp3"; "segment_002.mp3"]) /\
    (forall file,
       file ∈ ["segment_000.mp3"; "segment_001.mp3"; "segment_002.mp3"] <->
       file ∈ entries /\ startsWith file "segment_" = true) /\
    (forall entries',
       entries' ≡ₚ entries ->
       sort (filter (fun file => startsWith file "segment_" = true) entries')
       = ["segment_000.mp3"; "segment_001.mp3"; "segment_002.mp3"]).
Proof.
  apply (split_lists_filters_and_sorts
           env_split "/tmp/F1.mp3" "/tmp/F1_segments" 300 w_segments_dir).
  by vm_compute.
Defined.

(** ** The split path *)

Lemma spaced_concat texts :
  texts <> [] -> spaced texts = String.concat " " texts +:+ " ".
Proof.
  induction texts as [|t [|t' texts] IH]; intros Hne; [done|done|].
  change (spaced (t :: t' :: texts)) with (t +:+ " " +:+ spaced (t' :: texts)).
  rewrite IH by done.
  change (String.concat " " (t :: t' :: texts))
    with (t +:+ " " +:+ String.concat " " (t' :: texts)).
  by rewrite !string_app_assoc.
Qed.

(** C2, as stated, fails in three ways.  On its own example: each text is
    followed by one more space, so three segments that transcribe to "a ",
    "b " and "c " give "a  b  c  ".  When [fsp.mkdir] rejects, a file of
    40 MB is not split at all and nothing is transcribed.  When the
    transcription of the second of three segments fails, the third segment
    is not transcribed and nothing is posted. *)
Lemma split_path_spaces_and_early_stops :
  (stats (calls_during (processAudioFile env_split_spaces talk "C024BE91L") w_empty)
   = [("/tmp/F1.mp3", Ok 41943040%N)] /\
   transcriptions
     (calls_during (processAudioFile env_split_spaces talk "C024BE91L") w_empty)
   = [("/tmp/F1_segments/segment_000.mp3", Ok "a ");
      ("/tmp/F1_segments/segment_001.mp3", Ok "b ");
      ("/tmp/F1_segments/segment_002.mp3", Ok "c ")] /\
   posted (calls_during (processAudioFile env_split_spaces talk "C024BE91L") w_empty)
   = [("C024BE91L", result_text talk "a  b  c  ")] /\
   result_text talk "a  b  c  " <> result_text talk "a b c ") /\
  (stats (calls_during (processAudioFile env_mkdir_fails talk "C024BE91L") w_empty)
   = [("/tmp/F1.mp3", Ok 41943040%N)] /\
   splits (calls_during (processAudioFile env_mkdir_fails talk "C024BE91L") w_empty)
   = [] /\
   transcriptions
     (calls_during (processAudioFile env_mkdir_fails talk "C024BE91L") w_empty)
   = [] /\
   posted (calls_during (processAudioFile env_mkdir_fails talk "C024BE91L") w_empty)
   = []) /\
  (stats (calls_during (processAudioFile env_segment_fails talk "C024BE91L") w_empty)
   = [("/tmp/F1.mp3", Ok 41943040%N)] /\
   readdirs (calls_during (processAudioFile env_segment_fails talk "C024BE91L") w_empty)
   = [("/tmp/F1_segments", Ok three_segments)] /\
   transcriptions
     (calls_during (processAudioFile env_segment_fails talk "C024BE91L") w_empty)
   = [("/tmp/F1_segments/segment_000.mp3", Ok "a");
      ("/tmp/F1_segments/segment_001.mp3", Throw (mkError "Connection error."))] /\
   posted (calls_during (processAudioFile env_segment_fails talk "C024BE91L") w_empty)
   = []).
Proof. by vm_compute. Qed.

(** The example with the texts "a", "b" and "c". *)
Example three_segments_example :
  posted (calls_during (processAudioFile env_split talk "C024BE91L") w_empty)
  = [("C024BE91L", result_text talk "a b c ")].
Proof. by vm_compute. Qed.

(** C2, amended. A run that measured more than 26214400 bytes and posts a
    transcription, accepted or not, entered [splitAudioFile] exactly once
    and requested one transcription per segment returned, in the order of
    the sorted segment names; the names are sorted as JavaScript sorts
    strings, by UTF-16 code units, which is the order of the indices for the
    names [segment_000.mp3] to [segment_999.mp3] and does not depend on the
    order of the listing; the text posted is the texts of the segments in
    that order, each followed by one space: the texts joined by single
    spaces, and one more space. *)
Theorem split_path_transcription env file channelId w size :
  let calls := calls_during (processAudioFile env file channelId) w in
  (tempFilePath_of file, Ok size) ∈ stats calls ->
  (26214400 < size)%N ->
  posted calls <> [] ->
  exists entries texts,
    let segments := segments_of entries in
    splits calls = [(tempFilePath_of file, outputDir_of file, 300%N)] /\
    readdirs calls = [(outputDir_of file, Ok entries)] /\
    length texts = length segments /\
    transcriptions calls
    = zip_with (fun segment text => (path_join (outputDir_of file) segment, Ok text))
        segments texts /\
    posted calls = [(channelId, result_text file (spaced texts))] /\
    (texts <> [] -> spaced texts = String.concat " " texts +:+ " ") /\
    Sorted js_le segments /\
    (forall entries', entries' ≡ₚ entries -> segments_of entries' = segments) /\
    (forall i j, i < 1000 -> j < 1000 ->
       (js_le (segment_name i) (segment_name j) <-> i <= j)).
Proof.
  intros calls Hstat Hsize Hposted. subst calls.
  destruct (processAudioFile_run env file channelId w)
    as (od & body & removals & ls_body & ls_clean & Hcalls & Hbody & Hrem & _).
  rewrite Hcalls in *. clear Hcalls.
  remember (fst (processAudioFile env file channelId w)) as r eqn:Hr. clear Hr.
  open_run Hbody; observe.
  all: try done.
  all: try (by apply elem_of_nil in Hstat).
  all: apply list_elem_of_singleton in Hstat; simplify_eq.
  all: try (match goal with
            | H : exceedsLimit _ = false |- _ => apply exceedsLimit_false in H; lia
            end).
  all: exists entries, texts; simpl.
  all: do 5 (split; [done|]).
  all: split; [apply spaced_concat|].
  all: split; [apply segments_of_sorted|].
  all: split; [intros entries' Hperm; by apply segments_of_order_irrelevant|].
  all: apply segment_name_order.
Qed.

Lemma split_path_transcription_witness :
  exists entries texts,
    let calls := calls_during (processAudioFile env_split talk "C024BE91L") w_empty in
    let segments := segments_of entries in
    splits calls = [(tempFilePath_of talk, outputDir_of talk, 300%N)] /\
    readdirs calls = [(outputDir_of talk, Ok entries)] /\
    length texts = length segments /\
    transcriptions calls
    = zip_with (fun segment text => (path_join (outputDir_of talk) segment, Ok text))
        segments texts /\
    posted calls = [("C024BE91L", result_text talk (spaced texts))] /\
    (texts <> [] -> spaced texts = String.concat " " texts +:+ " ") /\
    Sorted js_le segments /\
    (forall entries', entries' ≡ₚ entries -> segments_of entries' = segments) /\
    (forall i j, i < 1000 -> j < 1000 ->
       (js_le (segment_name i) (segment_name j) <-> i <= j)).
Proof.
  apply (split_path_transcription env_split talk "C024BE91L" w_empty (40 * MB)%N).
  - vm_compute. left.
  - by vm_compute.
  - by vm_compute.
Defined.

(** ** Cleanup failures *)

(** The [try] block does not call [fsp.unlink] or [fsp.rm]. *)
Lemma processAudioFile_try_removal env unlink rm file channelId :
  processAudioFile_try (with_removal env unlink rm) file channelId
  = processAudioFile_try env file channelId.
Proof. reflexivity. Qed.

Lemma BodyRun_no_removal file channelId od r body :
  BodyRun file channelId od r body ->
  Forall (fun c => is_removal c = false) body.
Proof.
  intros Hbody. open_run Hbody.
  all: rewrite ?Forall_app, ?Forall_cons, ?Forall_nil; repeat split; try done.
  all: eapply Forall_impl; [apply transcribed_calls|]; by intros [].
Qed.

(** C6. What [fsp.unlink] and [fsp.rm] answer changes neither the completion
    of a run nor what it posts; [cleanupFiles] never throws; and the error
    of a removal that rejects is written to the console. *)
Theorem cleanup_failure_is_logged_not_raised env unlink rm file channelId w :
  let env' := with_removal env unlink rm in
  fst (processAudioFile env' file channelId w)
  = fst (processAudioFile env file channelId w) /\
  posted (calls_during (processAudioFile env' file channelId) w)
  = posted (calls_during (processAudioFile env file channelId) w) /\
  (forall t od w0, fst (cleanupFiles env t od w0) = Ok tt) /\
  (forall c e,
     c ∈ calls_during (processAudioFile env file channelId) w ->
     is_removal c = true ->
     failure_of c = Some e ->
     ConsoleError "Error during cleanup:" e
     ∈ console_during (processAudioFile env file channelId) w).
Proof.
  intros env'. subst env'.
  destruct (processAudioFile_unfold (with_removal env unlink rm) file channelId w)
    as (Hr' & removals' & Hcalls' & Hrem').
  destruct (processAudioFile_unfold env file channelId w)
    as (Hr & removals & Hcalls & Hrem).
  rewrite processAudioFile_try_removal in Hr', Hcalls'.
  split; [by rewrite Hr, Hr'|]. split.
  { rewrite Hcalls, Hcalls'. by observe. }
  split; [apply cleanupFiles_returns|].
  clear Hr' removals' Hcalls' Hrem' Hr removals Hcalls Hrem.
  intros c e Hin Hremoval Hfail.
  destruct (processAudioFile_run env file channelId w)
    as (od & body & removals & ls_body & ls_clean & Hcalls & Hbody & Hrem
        & Hls & _ & Hlog & _).
  rewrite Hcalls in Hin. rewrite Hls.
  apply elem_of_app in Hin as [Hin|Hin].
  { apply BodyRun_no_removal in Hbody.
    rewrite Forall_forall in Hbody. apply Hbody in Hin. congruence. }
  apply elem_of_cons in Hin as [->|Hin]; [done|].
  rewrite (Hlog c e Hin Hfail). apply elem_of_app. right. left.
Qed.

Lemma cleanup_failure_is_logged_not_raised_witness :
  ConsoleError "Error during cleanup:" EPERM
  ∈ console_during (processAudioFile env_unlink_refused talk "C024BE91L") w_empty.
Proof.
  apply (proj2 (proj2 (proj2 (cleanup_failure_is_logged_not_raised
                  env_unlink_refused (fun _ _ => None) (fun _ _ => None)
                  talk "C024BE91L" w_empty)))
           (CallUnlink "/tmp/F1.mp3" (Some EPERM)) EPERM).
  - vm_compute. do 6 right. left.
  - reflexivity.
  - reflexivity.
Defined.

(** ** Several files in one mention *)

(** A run downloads its file once and says nothing. *)
Lemma processAudioFile_calls env file channelId w :
  let calls := calls_during (processAudioFile env file channelId) w in
  (fst <$> downloads calls) = [target file] /\ said calls = [].
Proof.
  intros calls. subst calls.
  destruct (processAudioFile_run env file channelId w)
    as (od & body & removals & ls_body & ls_clean & Hcalls & Hbody & Hrem & _).
  rewrite Hcalls. clear Hcalls.
  open_run Hbody; by observe.
Qed.

Lemma processAll_spec env audioFiles channelId w :
  wp (processAll env audioFiles channelId) w (fun r tr ls w' =>
    said tr = [] /\
    (r = Ok tt -> (fst <$> downloads tr) = target <$> audioFiles)).
Proof.
  revert w. induction audioFiles as [|file rest IH]; intros w; simpl.
  - by apply wp_ret.
  - eapply wp_bind with (P := fun r tr ls w' =>
      (fst <$> downloads tr) = [target file] /\ said tr = []).
    { pose proof (processAudioFile_calls env file channelId w) as Hcalls.
      destruct (processAudioFile_spec env file channelId w)
        as (tr & ls & Hc & Hl & _).
      exists tr, ls. repeat split; [done..| |].
      all: unfold calls_during in Hcalls; rewrite Hc, drop_app_length in Hcalls;
        apply Hcalls. }
    intros r tr ls w1 (Hdl & Hsaid). destruct r as [[]|e].
    + eapply wp_mono; [apply IH|]. cbv beta.
      intros r tr' ls' w2 (Hsaid' & Hdl'). unfold said, downloads in *.
      rewrite !select_app, fmap_app. rewrite Hsaid, Hsaid', Hdl.
      split; [done|]. intros Hr. by rewrite (Hdl' Hr).
    + by split.
Qed.

Lemma bind_console_log {A} label detail (k : M A) w :
  (console_log label detail ;;; k) w = k (snd (console_log label detail w)).
Proof. reflexivity. Qed.

Lemma bind_settle_with_ok {A B} (a : A) (k : A -> M B) :
  (x <- settle_with (Ok a) ;; k x) = k a.
Proof. reflexivity. Qed.

(** The loop stops at the first file whose run throws: the world it leaves
    is the world that run left. *)
Lemma processAll_abort env before file after channelId w e :
  fst (processAll env before channelId w) = Ok tt ->
  fst (processAudioFile env file channelId (snd (processAll env before channelId w)))
  = Throw e ->
  processAll env (before ++ file :: after) channelId w
  = (Throw e,
     snd (processAudioFile env file channelId
            (snd (processAll env before channelId w)))).
Proof.
  revert w. induction before as [|first before IH]; intros w; simpl.
  - intros _ Hthrow. unfold bind.
    destruct (processAudioFile env file channelId w) as [r w1]. simpl in *.
    by subst r.
  - unfold bind.
    destruct (processAudioFile env first channelId w) as [[[]|e'] w1]; simpl.
    + apply IH.
    + intros [=].
Qed.

(** C10. The audio files of a mention are processed one after the other in
    the order of the list; when the run of one file throws, the handler
    says the failure notice once and makes no other call: the files after
    it are neither downloaded nor transcribed, and nothing is posted for
    them. *)
Theorem handler_stops_at_first_failure env event fs before file after w e :
  files event = Some fs ->
  audioFiles_of fs = Ok (before ++ file :: after) ->
  let w0 := snd (console_log "App mention event received:" "" w) in
  let w1 := snd (say env MSG_STARTED w0) in
  let w2 := snd (processAll env before (channel event) w1) in
  say_err env w0 MSG_STARTED = None ->
  fst (processAll env before (channel event) w1) = Ok tt ->
  fst (processAudioFile env file (channel event) w2) = Throw e ->
  let calls := calls_during (app_mention env event) w in
  (exists failure,
     calls = CallSay MSG_STARTED None
             :: calls_during (processAll env before (channel event)) w1
             ++ calls_during (processAudioFile env file (channel event)) w2
             ++ [CallSay MSG_FAILED failure]) /\
  (fst <$> downloads calls) = target <$> (before ++ [file]) /\
  said calls = [MSG_STARTED; MSG_FAILED].
Proof.
  intros Hfiles Haudio w0 w1 w2 Hsay Hbefore Hthrow calls.
  pose proof (processAll_abort env before file after (channel event) w1 e
                Hbefore Hthrow) as Hall.
  fold w2 in Hall.
  pose proof (wp_calls _ _ _ (processAll_spec env before (channel event) w1))
    as Hcalls2.
  pose proof (wp_calls _ _ _ (processAudioFile_spec env file (channel event) w2))
    as Hcalls3.
  fold w2 in Hcalls2.
  set (w3 := snd (processAudioFile env file (channel event) w2)) in *.
  assert (exists failure,
    calls = CallSay MSG_STARTED None
            :: calls_during (processAll env before (channel event)) w1
            ++ calls_during (processAudioFile env file (channel event)) w2
            ++ [CallSay MSG_FAILED failure]) as [failure Hcalls].
  { assert (say env MSG_STARTED w0
            = (Ok tt, mkWorld (w_fs w0) (w_console w0)
                        (w_calls w0 ++ [CallSay MSG_STARTED None]))) as Hsaid.
    { unfold say. by rewrite Hsay. }
    assert (w_calls w1 = w_calls w ++ [CallSay MSG_STARTED None]) as Hcalls1.
    { unfold w1. by rewrite Hsaid. }
    assert (app_mention env event w
            = (console_error "Error in app_mention event handler:" e ;;;
               say env MSG_FAILED) w3) as Hrun.
    { unfold app_mention. rewrite Hfiles.
      destruct fs as [|f0 fs']; [by destruct before|].
      cbv beta iota zeta. rewrite Haudio, bind_settle_with_ok.
      rewrite bind_console_log. fold w0. unfold try_catch.
      replace (match before ++ file :: after with
               | [] => say env MSG_NO_AUDIO
               | _ :: _ =>
                   say env MSG_STARTED ;;;
                   processAll env (before ++ file :: after) (channel event)
               end w0) with (@Throw unit e, w3); [done|].
      transitivity ((say env MSG_STARTED ;;;
                     processAll env (before ++ file :: after) (channel event)) w0).
      { unfold bind at 1. rewrite Hsaid. cbv beta iota.
        assert (w1 = mkWorld (w_fs w0) (w_console w0)
                       (w_calls w0 ++ [CallSay MSG_STARTED None])) as <-.
        { unfold w1. by rewrite Hsaid. }
        by rewrite Hall. }
      by destruct before. }
    subst calls. unfold calls_during at 1. rewrite Hrun.
    exists (say_err env
              (mkWorld (w_fs w3)
                 (w_console w3
                    ++ [ConsoleError "Error in app_mention event handler:" e])
                 (w_calls w3)) MSG_FAILED).
    unfold bind, console_error, console, say. simpl.
    set (failure := say_err env _ MSG_FAILED).
    match goal with
    | |- drop _ (w_calls ?x) = _ =>
        replace (w_calls x) with (w_calls w3 ++ [CallSay MSG_FAILED failure])
          by (by destruct failure)
    end.
    rewrite Hcalls3, Hcalls2, Hcalls1.
    rewrite <- !app_assoc. by rewrite drop_app_length. }
  split; [by exists failure|].
  destruct (wp_elim _ _ _ (processAll_spec env before (channel event) w1))
    as (Hsaid2 & Hdl2).
  specialize (Hdl2 Hbefore).
  destruct (processAudioFile_calls env file (channel event) w2) as (Hdl3 & Hsaid3).
  rewrite Hcalls. unfold said, downloads in *.
  rewrite !select_cons, !select_app, !select_cons, !select_nil. cbv beta iota.
  rewrite !fmap_app, Hdl2, Hdl3, Hsaid2, Hsaid3. by rewrite app_nil_r.
Qed.

Lemma handler_stops_at_first_failure_witness :
  (fst <$> downloads (calls_during (app_mention env_second_fails mention) w_empty))
  = [target talk; target memo] /\
  said (calls_during (app_mention env_second_fails mention) w_empty)
  = [MSG_STARTED; MSG_FAILED].
Proof.
  apply (handler_stops_at_first_failure env_second_fails mention
           [talk; slides; memo; call_rec] [talk] memo [call_rec] w_empty forbidden).
  - reflexivity.
  - by vm_compute.
  - reflexivity.
  - by vm_compute.
  - by vm_compute.
Defined.

(** * Further properties *)

(** ** Startup *)

Lemma falsy_spec value : falsy value = true <-> value = None \/ value = Some "".
Proof.
  destruct value as [[|c s]|]; simpl; split; intros H; auto; try discriminate.
  - destruct H as [H|H]; discriminate H.
Qed.

Lemma missingEnvVars_elem penv varName :
  varName ∈ missingEnvVars penv <->
  varName ∈ requiredEnvVars /\ (penv !! varName = None \/ penv !! varName = Some "").
Proof.
  unfold missingEnvVars. rewrite list_elem_of_filter, falsy_spec. tauto.
Qed.

Lemma validateEnvVariables_cases penv :
  (validateEnvVariables penv
   = (Exited 1, [ConsoleErrorText "Please set these variables in your .env file" ""])
   /\ exists varName,
        varName ∈ requiredEnvVars /\
        (penv !! varName = None \/ penv !! varName = Some ""))
  \/
  (validateEnvVariables penv = (Returned tt, [])
   /\ forall varName,
        varName ∈ requiredEnvVars ->
        exists value, penv !! varName = Some value /\ value <> "").
Proof.
  unfold validateEnvVariables.
  destruct (missingEnvVars penv) as [|v missing] eqn:Hmissing; simpl.
  - right. split; [done|]. intros varName Hin.
    assert (varName ∉ missingEnvVars penv) as Hnot
      by (rewrite Hmissing; apply not_elem_of_nil).
    rewrite missingEnvVars_elem in Hnot.
    destruct (penv !! varName) as [value|]; [|tauto].
    exists value. split; [done|]. intros ->. tauto.
  - left. split; [done|].
    assert (v ∈ missingEnvVars penv) as Hv by (rewrite Hmissing; left).
    apply missingEnvVars_elem in Hv as [Hin Hbad]. by exists v.
Qed.

(** X1. [validateEnvVariables] ends the process with code 1 exactly when one
    of the four required variables is unset or set to the empty string;
    otherwise it returns and writes nothing. *)
Theorem validateEnvVariables_exits_iff_missing penv :
  (validateEnvVariables penv
   = (Exited 1, [ConsoleErrorText "Please set these variables in your .env file" ""])
   <-> exists varName,
         varName ∈ requiredEnvVars /\
         (penv !! varName = None \/ penv !! varName = Some "")) /\
  (validateEnvVariables penv = (Returned tt, [])
   <-> forall varName,
         varName ∈ requiredEnvVars ->
         exists value, penv !! varName = Some value /\ value <> "").
Proof.
  destruct (validateEnvVariables_cases penv)
    as [[-> (v & Hin & Hbad)]|[-> Hall]].
  - split; split; try done.
    + intros _. by exists v.
    + intros Hall. destruct (Hall v Hin) as (value & Hval & Hne).
      destruct Hbad; congruence.
  - split; split; try done.
    intros (v & Hin & Hbad). destruct (Hall v Hin) as (value & Hval & Hne).
    destruct Hbad; congruence.
Qed.

Lemma validateEnvVariables_exits_iff_missing_witness :
  validateEnvVariables penv_empty_key
  = (Exited 1, [ConsoleErrorText "Please set these variables in your .env file" ""]).
Proof.
  apply (proj2 (proj1 (validateEnvVariables_exits_iff_missing penv_empty_key))).
  exists "OPENAI_API_KEY". split; [|right; by vm_compute].
  by vm_compute; do 3 right; left.
Defined.

(** X2. [main] builds the clients and starts the app only when every
    required variable is set and not empty, and then with exactly the
    values of the environment; otherwise it ends the process with code 1
    having built nothing.  A rejected [app.start()] is logged and [main]
    returns. *)
Theorem main_starts_with_all_credentials penv start :
  let '(outcome, ls, steps) := main penv start in
  (outcome = Exited 1 /\ steps = [] /\
   exists varName,
     varName ∈ requiredEnvVars /\
     (penv !! varName = None \/ penv !! varName = Some ""))
  \/
  (exists t s a k,
     penv !! "SLACK_BOT_TOKEN" = Some t /\ t <> "" /\
     penv !! "SLACK_SIGNING_SECRET" = Some s /\ s <> "" /\
     penv !! "SLACK_APP_TOKEN" = Some a /\ a <> "" /\
     penv !! "OPENAI_API_KEY" = Some k /\ k <> "" /\
     outcome = Returned tt /\
     steps = [NewApp (mkAppOptions (Some t) (Some s) true (Some a));
              NewOpenAI (mkOpenAIOptions (Some k));
              OnEvent "app_mention";
              AppStart (start (mkAppOptions (Some t) (Some s) true (Some a)))] /\
     ls = [match start (mkAppOptions (Some t) (Some s) true (Some a)) with
           | None => ConsoleLog "⚡️ Bolt app is running!" ""
           | Some error => ConsoleError "Failed to start app:" error
           end]).
Proof.
  unfold main.
  destruct (validateEnvVariables_cases penv) as [[-> Hbad]|[-> Hall]].
  - left. by repeat split.
  - destruct (Hall "SLACK_BOT_TOKEN") as (t & Ht & Hnt); [by vm_compute; left|].
    destruct (Hall "SLACK_SIGNING_SECRET") as (s & Hs & Hns);
      [by vm_compute; right; left|].
    destruct (Hall "SLACK_APP_TOKEN") as (a & Ha & Hna);
      [by vm_compute; do 2 right; left|].
    destruct (Hall "OPENAI_API_KEY") as (k & Hk & Hnk);
      [by vm_compute; do 3 right; left|].
    unfold initializeClients. rewrite Ht, Hs, Ha, Hk.
    destruct (start _) eqn:Hstart; right; exists t, s, a, k;
      rewrite ?Hstart; by repeat split.
Qed.

(** ** [cleanupFiles], step by step *)

Lemma guarded_removal_shape env (remove : string -> M unit)
    (mk : string -> option Error -> Call) p w :
  (forall w1, wp (remove p) w1 (fun r tr ls w' =>
     exists failure,
       r = completion failure /\ tr = [mk p failure] /\ ls = [] /\
       w_fs w' = match failure with
                 | None => delete p (w_fs w1)
                 | Some _ => w_fs w1
                 end)) ->
  wp (if truthy p
      then (present <- fsp_access env p ;; if present then remove p else ret tt)
      else ret tt) w (removal_shape env mk p w).
Proof.
  intros Hremove. destruct (truthy p) eqn:Htruthy.
  - wp_next fsp_access_spec.
    destruct H as (present & -> & -> & -> & Hfs & Habsent & Hfound).
    destruct present.
    + assert (w_fs w !! p <> None) as Hthere.
      { intros Hnone. apply Habsent in Hnone. discriminate Hnone. }
      eapply wp_mono; [apply Hremove|]. cbv beta.
      intros r tr ls w' (failure & -> & -> & -> & Hfs').
      split; [done|]. rewrite Hfs', Hfs.
      destruct failure as [e|].
      * exists (Refused e). split_and!; try done.
        split; [done|congruence].
      * exists Removed. split_and!; try done.
        split; [done|congruence].
    + apply wp_ret. split; [done|]. exists WasAbsent. rewrite Hfs.
      split_and!; try done.
      * split; [done|congruence].
      * intros Hrel _. by apply Hfound.
  - apply wp_ret. split; [done|]. exists NotTried. split_and!; try done.
    congruence.
Qed.

Lemma directory_removal_shape env od w :
  wp (match od with
      | Some dir =>
          if truthy dir
          then (present <- fsp_access env dir ;;
                if present then fsp_rm env dir else ret tt)
          else ret tt
      | None => ret tt
      end) w (removal_shape env CallRm (default "" od) w).
Proof.
  destruct od as [dir|]; simpl default.
  - apply (guarded_removal_shape env (fsp_rm env) CallRm dir).
    intros w1. apply fsp_rm_spec.
  - apply wp_ret. split; [done|]. exists NotTried. split_and!; try done.
Qed.

Lemma cleanupFiles_shape env t od w :
  wp (cleanupFiles env t od) w (cleanup_shape env t od w).
Proof.
  unfold cleanupFiles.
  wp_next call_spec. destruct H as (-> & -> & -> & Hfs0).
  eapply wp_try_catch with (P := fun r tr ls w' =>
    ls = [] /\
    exists s1 s2,
      tr = removal_calls CallUnlink t s1 ++ removal_calls CallRm (default "" od) s2 /\
      w_fs w' = removal_fs (default "" od) s2 (removal_fs t s1 (w_fs w)) /\
      (s1 = NotTried <-> truthy t = false) /\
      (truthy t = true -> w_fs w !! t = None -> s1 = WasAbsent) /\
      (access_reliable env -> s1 = WasAbsent -> w_fs w !! t = None) /\
      (forall e, s1 = Refused e -> s2 = NotTried) /\
      (removal_result s1 = Ok tt ->
         (s2 = NotTried <-> truthy (default "" od) = false) /\
         (truthy (default "" od) = true ->
          removal_fs t s1 (w_fs w) !! default "" od = None -> s2 = WasAbsent) /\
         (access_reliable env -> s2 = WasAbsent ->
          removal_fs t s1 (w_fs w) !! default "" od = None)) /\
      r = match s1 with
          | Refused e => Throw e
          | _ => removal_result s2
          end).
  - eapply wp_bind.
    { apply (guarded_removal_shape env (fsp_unlink env) CallUnlink t).
      intros w1. apply fsp_unlink_spec. }
    cbv beta.
    intros r tr ls w1 (-> & s1 & -> & Hfs1 & -> & Hskip1 & Habsent1 & Hfound1).
    rewrite Hfs0 in Hfs1, Habsent1, Hfound1.
    assert ((exists e, s1 = Refused e) \/ removal_result s1 = Ok tt) as [[e ->]|Hok]
      by (destruct s1; eauto).
    { simpl. split; [done|]. exists (Refused e), NotTried. simpl.
      split_and!; auto. intros Hok. discriminate Hok. }
    rewrite Hok.
    eapply wp_mono; [apply directory_removal_shape|]. cbv beta.
    intros r tr ls w2 (-> & s2 & -> & Hfs2 & -> & Hskip2 & Habsent2 & Hfound2).
    split; [done|]. exists s1, s2.
    rewrite Hfs1 in Hfs2, Habsent2, Hfound2.
    split_and!; auto.
    + intros e ->. discriminate Hok.
    + destruct s1; try done.
  - cbv beta.
    intros r tr ls w1
      (-> & s1 & s2 & -> & Hfs & Hs1 & Ha1 & Hf1 & Hskip & Hs2 & Hr).
    destruct r as [[]|e].
    + split; [done|]. exists s1, s2. simpl. split_and!; auto.
      destruct s1, s2; try done.
    + exists [], [ConsoleError "Error during cleanup:" e]. simpl.
      rewrite !app_nil_r. split_and!; try done.
      split; [done|]. exists s1, s2. simpl. split_and!; auto.
      destruct s1 as [| | |e1].
      4:{ by injection Hr as ->. }
      all: destruct s2; try done; by injection Hr as ->.
Qed.

Lemma removal_fs_absent p s fs q :
  fs !! q = None -> removal_fs p s fs !! q = None.
Proof.
  intros Hq. destruct s; simpl; try done. apply lookup_delete_None. auto.
Qed.

Lemma cleanupFiles_nothing_to_remove env t od w :
  (truthy t = true -> w_fs w !! t = None) ->
  (truthy (default "" od) = true -> w_fs w !! default "" od = None) ->
  calls_during (cleanupFiles env t od) w
  = CallCleanup t od
    :: (if truthy t then [CallAccess t false] else [])
    ++ (if truthy (default "" od) then [CallAccess (default "" od) false] else []) /\
  console_during (cleanupFiles env t od) w = [] /\
  w_fs (snd (cleanupFiles env t od w)) = w_fs w.
Proof.
  intros Ht Hd.
  destruct (wp_elim _ _ _ (cleanupFiles_shape env t od w))
    as (_ & s1 & s2 & -> & -> & Hs1 & Ha1 & _ & _ & Hs2 & ->).
  assert (s1 = if truthy t then WasAbsent else NotTried) as ->.
  { destruct (truthy t); [apply Ha1|apply Hs1]; auto. }
  assert (removal_fs t (if truthy t then WasAbsent else NotTried) (w_fs w) = w_fs w)
    as Hfs by (by destruct (truthy t)).
  rewrite Hfs in *.
  destruct Hs2 as (Hs2 & Ha2 & _); [by destruct (truthy t)|].
  assert (s2 = if truthy (default "" od) then WasAbsent else NotTried) as ->.
  { destruct (truthy (default "" od)); [apply Ha2|apply Hs2]; auto. }
  by destruct (truthy t), (truthy (default "" od)).
Qed.

(** X4. When neither the temp file nor the segment directory exists,
    [cleanupFiles] calls neither [fsp.unlink] nor [fsp.rm], logs nothing and
    leaves the file system as it is. *)
Theorem cleanupFiles_absent_paths_is_noop env t od w :
  w_fs w !! t = None ->
  (forall dir, od = Some dir -> w_fs w !! dir = None) ->
  unlinks (calls_during (cleanupFiles env t od) w) = [] /\
  rms (calls_during (cleanupFiles env t od) w) = [] /\
  console_during (cleanupFiles env t od) w = [] /\
  w_fs (snd (cleanupFiles env t od w)) = w_fs w.
Proof.
  intros Ht Hd.
  destruct (cleanupFiles_nothing_to_remove env t od w) as (-> & -> & ->).
  - auto.
  - destruct od as [dir|]; simpl; [auto|done].
  - unfold unlinks, rms.
    destruct (truthy t), (truthy (default "" od)); by observe.
Qed.

Lemma cleanupFiles_absent_paths_is_noop_witness :
  w_fs w_neighbour !! "/tmp/F1.mp3" = None /\
  unlinks (calls_during
             (cleanupFiles env_small "/tmp/F1.mp3" (Some "/tmp/F1_segments"))
             w_neighbour) = [] /\
  rms (calls_during
         (cleanupFiles env_small "/tmp/F1.mp3" (Some "/tmp/F1_segments"))
         w_neighbour) = [] /\
  console_during
    (cleanupFiles env_small "/tmp/F1.mp3" (Some "/tmp/F1_segments"))
    w_neighbour = [] /\
  w_fs (snd (cleanupFiles env_small "/tmp/F1.mp3" (Some "/tmp/F1_segments")
               w_neighbour)) = w_fs w_neighbour.
Proof.
  split; [by vm_compute|].
  apply (cleanupFiles_absent_paths_is_noop
           env_small "/tmp/F1.mp3" (Some "/tmp/F1_segments") w_neighbour).
  - by vm_compute.
  - intros dir [= <-]. by vm_compute.
Defined.

(** X5. When [fsp.unlink] rejects, [cleanupFiles] stops there: the segment
    directory is neither looked up nor removed, the file system is as it
    was, the rejection is logged once and the call still returns. *)
Theorem cleanupFiles_refused_unlink_keeps_directory env t od w e :
  unlinks (calls_during (cleanupFiles env t od) w) = [(t, Some e)] ->
  calls_during (cleanupFiles env t od) w
  = [CallCleanup t od; CallAccess t true; CallUnlink t (Some e)] /\
  console_during (cleanupFiles env t od) w
  = [ConsoleError "Error during cleanup:" e] /\
  w_fs (snd (cleanupFiles env t od w)) = w_fs w /\
  fst (cleanupFiles env t od w) = Ok tt.
Proof.
  destruct (wp_elim _ _ _ (cleanupFiles_shape env t od w))
    as (-> & s1 & s2 & -> & -> & _ & _ & _ & Hskip & _ & ->).
  intros Hunlinks. unfold unlinks in Hunlinks.
  destruct s1 as [| | |e1].
  1-3: destruct s2; simpl in Hunlinks; observe; discriminate Hunlinks.
  rewrite (Hskip e1 eq_refl) in *. simpl in Hunlinks. observe.
  by injection Hunlinks as ->.
Qed.

Lemma cleanupFiles_refused_unlink_keeps_directory_witness :
  calls_during
    (cleanupFiles env_unlink_refused "/tmp/F1.mp3" (Some "/tmp/F1_segments"))
    w_scratch
  = [CallCleanup "/tmp/F1.mp3" (Some "/tmp/F1_segments");
     CallAccess "/tmp/F1.mp3" true; CallUnlink "/tmp/F1.mp3" (Some EPERM)] /\
  console_during
    (cleanupFiles env_unlink_refused "/tmp/F1.mp3" (Some "/tmp/F1_segments"))
    w_scratch
  = [ConsoleError "Error during cleanup:" EPERM] /\
  w_fs (snd (cleanupFiles env_unlink_refused "/tmp/F1.mp3"
               (Some "/tmp/F1_segments") w_scratch)) = w_fs w_scratch /\
  fst (cleanupFiles env_unlink_refused "/tmp/F1.mp3" (Some "/tmp/F1_segments")
         w_scratch) = Ok tt.
Proof.
  apply (cleanupFiles_refused_unlink_keeps_directory
           env_unlink_refused "/tmp/F1.mp3" (Some "/tmp/F1_segments")
           w_scratch EPERM).
  by vm_compute.
Defined.

(** X6. When [fsp.access] rejects for missing paths only, a cleanup that
    logged no error leaves nothing for a second cleanup of the same paths:
    the second one removes nothing, logs nothing and leaves the file system
    as the first one left it. *)
Theorem cleanupFiles_again_removes_nothing env t od w :
  access_reliable env ->
  console_during (cleanupFiles env t od) w = [] ->
  unlinks (calls_during (cleanupFiles env t od)
             (snd (cleanupFiles env t od w))) = [] /\
  rms (calls_during (cleanupFiles env t od)
         (snd (cleanupFiles env t od w))) = [] /\
  console_during (cleanupFiles env t od) (snd (cleanupFiles env t od w)) = [] /\
  w_fs (snd (cleanupFiles env t od (snd (cleanupFiles env t od w))))
  = w_fs (snd (cleanupFiles env t od w)).
Proof.
  intros Hrel.
  destruct (wp_elim _ _ _ (cleanupFiles_shape env t od w))
    as (_ & s1 & s2 & _ & Hfs & Hs1 & _ & Hf1 & _ & Hs2 & ->).
  intros Hquiet.
  assert (removal_result s1 = Ok tt) as Hok1 by (by destruct s1).
  destruct (Hs2 Hok1) as (Hs2' & _ & Hf2). clear Hs2.
  destruct (cleanupFiles_nothing_to_remove env t od
              (snd (cleanupFiles env t od w))) as (-> & -> & ->).
  - intros Ht. rewrite Hfs. apply removal_fs_absent.
    destruct s1; simpl; try done.
    + destruct Hs1 as [Hs1 _]. specialize (Hs1 eq_refl). congruence.
    + by apply Hf1.
    + by rewrite lookup_delete_eq.
  - intros Hd. rewrite Hfs.
    destruct s2; simpl; try done.
    + destruct Hs2' as [Hs2' _]. specialize (Hs2' eq_refl). congruence.
    + by apply Hf2.
    + by rewrite lookup_delete_eq.
    + by destruct s1.
  - unfold unlinks, rms.
    destruct (truthy t), (truthy (default "" od)); by observe.
Qed.

Lemma cleanupFiles_again_removes_nothing_witness :
  w_fs (snd (cleanupFiles env_small "/tmp/F1.mp3" (Some "/tmp/F1_segments")
               (snd (cleanupFiles env_small "/tmp/F1.mp3"
                       (Some "/tmp/F1_segments") w_scratch))))
  = w_fs (snd (cleanupFiles env_small "/tmp/F1.mp3" (Some "/tmp/F1_segments")
                 w_scratch)).
Proof.
  apply (cleanupFiles_again_removes_nothing
           env_small "/tmp/F1.mp3" (Some "/tmp/F1_segments") w_scratch).
  - intros w path. reflexivity.
  - by vm_compute.
Defined.

(** ** The paths a run writes to *)

(** A run is its [try] block, the entry into [cleanupFiles] and the two
    guarded removals. *)
Lemma processAudioFile_removals env file channelId w :
  exists od body s1 s2,
    calls_during (processAudioFile env file channelId) w
    = body ++ CallCleanup (tempFilePath_of file) od
              :: removal_calls CallUnlink (tempFilePath_of file) s1
              ++ removal_calls CallRm (default "" od) s2 /\
    BodyRun file channelId od (fst (processAudioFile env file channelId w)) body /\
    (od = None -> s2 = NotTried).
Proof.
  destruct (processAudioFile_unfold env file channelId w) as (Hr & _).
  rewrite Hr. clear Hr.
  pose proof (wp_calls _ _ _ (processAudioFile_try_spec env file channelId
                (snd (console_log "Processing audio file:" (name file) w))))
    as Hbody.
  destruct (wp_elim _ _ _ (processAudioFile_try_spec env file channelId
              (snd (console_log "Processing audio file:" (name file) w))))
    as (Hrun & _).
  unfold calls_during at 1. unfold processAudioFile.
  set (w0 := snd (console_log "Processing audio file:" (name file) w)) in *.
  change (console_log "Processing audio file:" (name file) w) with (Ok tt, w0).
  assert (w_calls w0 = w_calls w) as Hw0 by done.
  cbv beta iota. clearbody w0.
  remember (calls_during (processAudioFile_try env file channelId) w0) as body
    eqn:Ebody. clear Ebody.
  destruct (processAudioFile_try env file channelId w0) as [[od completion0] w1].
  simpl in Hbody, Hrun. cbv beta iota.
  match goal with
  | |- context [cleanupFiles env _ od ?wc] => set (w2 := wc)
  end.
  assert (w_calls w2 = w_calls w1) as Hcatch by (by destruct completion0).
  destruct (wp_elim _ _ _ (cleanupFiles_shape env (tempFilePath_of file) od w2))
    as (_ & s1 & s2 & Hremovals & _ & _ & _ & _ & Hskip & Hs2 & _).
  pose proof (wp_calls _ _ _ (cleanupFiles_shape env (tempFilePath_of file) od w2))
    as Hclean.
  exists od, body, s1, s2. split; [|split; [done|]].
  2:{ intros ->. destruct s1 as [| | |e]; [apply Hs2; done..|by apply (Hskip e)]. }
  destruct (cleanupFiles env (tempFilePath_of file) od w2) as [[[]|e] w3];
    simpl in Hclean |- *.
  all: rewrite Hclean, Hremovals, Hcatch, Hbody, Hw0.
  all: by rewrite <- app_assoc, drop_app_length.
Qed.

(** X3. Every path a run of [processAudioFile] hands to a call that
    writes, makes or removes something is one of its own: the temp file,
    the segment directory, or the segment pattern inside that directory. *)
Theorem processAudioFile_writes_own_paths_only env file channelId w :
  Forall (fun c => forall path,
            written c = Some path ->
            path = tempFilePath_of file \/
            path = outputDir_of file \/
            path = path_join (outputDir_of file) "segment_%03d.mp3")
    (calls_during (processAudioFile env file channelId) w).
Proof.
  destruct (processAudioFile_removals env file channelId w)
    as (od & body & s1 & s2 & -> & Hbody & Hnone).
  pose proof (BodyRun_outputDir _ _ _ _ _ Hbody) as Hod.
  assert (forall dir segments texts,
    Forall (fun c => forall path,
              written c = Some path ->
              path = tempFilePath_of file \/
              path = outputDir_of file \/
              path = path_join (outputDir_of file) "segment_%03d.mp3")
      (transcribed dir segments texts)) as Hloop.
  { intros dir segments texts.
    eapply Forall_impl; [apply transcribed_calls|]. by intros []. }
  rewrite Forall_app, Forall_cons, Forall_app. split_and!.
  - remember (fst (processAudioFile env file channelId w)) as r eqn:Er. clear Er.
    open_run Hbody.
    all: rewrite ?Forall_app, ?Forall_cons, ?Forall_nil.
    all: split_and!; try done; try apply Hloop.
    all: intros ? [= <-]; unfold segment_pattern; auto.
  - done.
  - destruct s1; simpl; rewrite ?Forall_cons, ?Forall_nil; split_and?; try done.
    all: intros ? [= <-]; auto.
  - destruct Hod as [-> | ->]; [by rewrite (Hnone eq_refl)|].
    destruct s2; simpl; rewrite ?Forall_cons, ?Forall_nil; split_and?; try done.
    all: intros ? [= <-]; auto.
Qed.

(** ** [splitAudioFile]: what it leaves behind *)

Lemma run_ffmpeg_fs env i o d w :
  wp (run_ffmpeg env i o d) w (fun r tr ls w' =>
    exists ended failure listing,
      r = Ok ended /\ tr = [CallFfmpeg i (segment_pattern o) failure] /\
      w_fs w' = match w_fs w !! o with
                | Some (Dir _) => <[o := Dir listing]> (w_fs w)
                | _ => w_fs w
                end).
Proof.
  wp_open run_ffmpeg.
  generalize (ffmpeg_run env w i o d). intros run.
  wp_next call_spec. destruct H as (-> & -> & -> & Hfs).
  wp_next ffmpeg_callbacks_spec. destruct H as (-> & -> & Hls & Hfs').
  wp_next set_fs_spec. destruct H as (-> & -> & -> & Hfs'').
  apply wp_ret. eexists (ff_end run), _, (ff_listing run).
  split_and!; try done. by rewrite Hfs'', Hfs', Hfs.
Qed.

Lemma splitAudioFile_fs env i o d w :
  wp (splitAudioFile env i o d) w (fun r tr ls w' =>
    (ffmpegs tr = [] -> w_fs w' = w_fs w /\ ls = []) /\
    ((forall entries, w_fs w !! o <> Some (Dir entries)) ->
     w_fs w' = w_fs w /\ exists e, r = Throw e)).
Proof.
  unfold splitAudioFile.
  wp_next call_spec. destruct H as (-> & -> & -> & Hfs).
  wp_next run_ffprobe_spec. destruct H as (err & -> & -> & -> & Hfs').
  destruct err as [err|].
  { apply wp_throw. simpl. rewrite Hfs', Hfs. split; eauto. }
  wp_next run_ffmpeg_fs.
  destruct H as (ended & failure & listing & -> & -> & Hfs'').
  rewrite Hfs', Hfs in Hfs''.
  assert (forall (r : Result (list string)) tr (ls : list LogEntry) w',
    ((forall entries, w_fs w !! o <> Some (Dir entries)) ->
     w_fs w' = w_fs w /\ exists e, r = Throw e) ->
    (ffmpegs (CallSplit i o d :: CallFfprobe i None
              :: CallFfmpeg i (segment_pattern o) failure :: tr) = [] ->
     w_fs w' = w_fs w /\ ls = []) /\
    ((forall entries, w_fs w !! o <> Some (Dir entries)) ->
     w_fs w' = w_fs w /\ exists e, r = Throw e)) as Hsplit.
  { intros r' tr' ls' w' Hdir. split; [|done].
    intros Hnone. unfold ffmpegs in Hnone. observe.
    discriminate Hnone. }
  assert ((forall entries, w_fs w !! o <> Some (Dir entries)) ->
          w_fs w2 = w_fs w) as Hsame.
  { intros Hdir. rewrite Hfs''.
    destruct (w_fs w !! o) as [[size|entries]|] eqn:Ho; try done.
    by destruct (Hdir entries). }
  destruct ended as [|err stdout stderr].
  - eapply wp_try_catch with (P := fun r tr ls w' =>
      w_fs w' = w_fs w2 /\
      ((forall entries, w_fs w2 !! o <> Some (Dir entries)) -> exists e, r = Throw e)).
    { wp_next fsp_readdir_spec. destruct H as (-> & -> & Hfs3 & Hdir).
      destruct r as [entries|err].
      - apply wp_ret. split; [done|]. intros Hno.
        by destruct (Hno entries (Hdir entries eq_refl)).
      - simpl. split; [done|]. eauto. }
    intros r tr ls' w3 [Hfs3 Hthrows].
    assert ((forall entries, w_fs w !! o <> Some (Dir entries)) ->
            exists e, r = Throw e) as Hthrows'.
    { intros Hdir. apply Hthrows. by rewrite (Hsame Hdir). }
    destruct r as [segments|err].
    + refine (Hsplit _ _ _ _ _). intros Hdir. by destruct (Hthrows' Hdir).
    + apply wp_throw. refine (Hsplit _ _ _ _ _). intros Hdir.
      rewrite Hfs3, (Hsame Hdir). eauto.
  - wp_next console_error_text_silent. destruct H as (-> & -> & Hls1 & Hfs1).
    wp_next console_error_text_silent. destruct H as (-> & -> & Hls2 & Hfs2).
    apply wp_throw. refine (Hsplit _ _ _ _ _). intros Hdir.
    rewrite Hfs2, Hfs1, (Hsame Hdir). eauto.
Qed.

(** X7. A rejection of [splitAudioFile] names the stage that failed: its
    message is the message of what the last call answered, after
    "FFprobe failed: ", "FFmpeg failed: " or
    "Failed to read output directory: ". *)
Theorem splitAudioFile_rejection_names_stage env i o d w e :
  fst (splitAudioFile env i o d w) = Throw e ->
  exists err,
    (message e = "FFprobe failed: " +:+ message err /\
     last (calls_during (splitAudioFile env i o d) w)
     = Some (CallFfprobe i (Some err))) \/
    (message e = "FFmpeg failed: " +:+ message err /\
     last (calls_during (splitAudioFile env i o d) w)
     = Some (CallFfmpeg i (path_join o "segment_%03d.mp3") (Some err))) \/
    (message e = "Failed to read output directory: " +:+ message err /\
     last (calls_during (splitAudioFile env i o d) w)
     = Some (CallReaddir o (Throw err))).
Proof.
  destruct (wp_elim _ _ _ (splitAudioFile_spec env i o d w)) as (Hrun & _).
  intros Hthrow. rewrite Hthrow in Hrun.
  remember (calls_during (splitAudioFile env i o d) w) as tr eqn:Etr.
  clear Etr Hthrow.
  inversion Hrun as [err|err|err|]; subst; exists err; simpl; auto.
Qed.

Lemma splitAudioFile_rejection_names_stage_witness :
  exists err,
    (message (mkError "FFprobe failed: Invalid data found when processing input")
     = "FFprobe failed: " +:+ message err /\
     last (calls_during
             (splitAudioFile env_probe_fails "/tmp/F1.mp3" "/tmp/F1_segments" 300)
             w_scratch)
     = Some (CallFfprobe "/tmp/F1.mp3" (Some err))) \/
    (message (mkError "FFprobe failed: Invalid data found when processing input")
     = "FFmpeg failed: " +:+ message err /\
     last (calls_during
             (splitAudioFile env_probe_fails "/tmp/F1.mp3" "/tmp/F1_segments" 300)
             w_scratch)
     = Some (CallFfmpeg "/tmp/F1.mp3"
               (path_join "/tmp/F1_segments" "segment_%03d.mp3") (Some err))) \/
    (message (mkError "FFprobe failed: Invalid data found when processing input")
     = "Failed to read output directory: " +:+ message err /\
     last (calls_during
             (splitAudioFile env_probe_fails "/tmp/F1.mp3" "/tmp/F1_segments" 300)
             w_scratch)
     = Some (CallReaddir "/tmp/F1_segments" (Throw err))).
Proof.
  apply (splitAudioFile_rejection_names_stage
           env_probe_fails "/tmp/F1.mp3" "/tmp/F1_segments" 300%N w_scratch).
  reflexivity.
Defined.

(** X8. When ffprobe fails, [splitAudioFile] goes no further: ffmpeg is not
    started, the output directory is not read, nothing is logged and the
    file system is as it was. *)
Theorem splitAudioFile_probe_failure_stops env i o d w err :
  probes (calls_during (splitAudioFile env i o d) w) = [(i, Some err)] ->
  ffmpegs (calls_during (splitAudioFile env i o d) w) = [] /\
  readdirs (calls_during (splitAudioFile env i o d) w) = [] /\
  console_during (splitAudioFile env i o d) w = [] /\
  w_fs (snd (splitAudioFile env i o d w)) = w_fs w /\
  fst (splitAudioFile env i o d w)
  = Throw (mkError ("FFprobe failed: " +:+ message err)).
Proof.
  destruct (wp_elim _ _ _ (splitAudioFile_spec env i o d w)) as (Hrun & _).
  destruct (wp_elim _ _ _ (splitAudioFile_fs env i o d w)) as (Hfs & _).
  intros Hprobe. unfold probes in Hprobe.
  assert (ffmpegs (calls_during (splitAudioFile env i o d) w) = [] /\
          readdirs (calls_during (splitAudioFile env i o d) w) = [] /\
          fst (splitAudioFile env i o d w)
          = Throw (mkError ("FFprobe failed: " +:+ message err))) as (Hff & Hrd & Hr).
  { remember (calls_during (splitAudioFile env i o d) w) as tr eqn:Etr.
    remember (fst (splitAudioFile env i o d w)) as r eqn:Er.
    clear Etr Er Hfs. unfold ffmpegs.
    inversion Hrun as [err'|err'|err'|entries]; subst; observe;
      by simplify_eq. }
  destruct (Hfs Hff) as [-> ->]. done.
Qed.

Lemma splitAudioFile_probe_failure_stops_witness :
  w_fs (snd (splitAudioFile env_probe_fails "/tmp/F1.mp3" "/tmp/F1_segments" 300
               w_scratch)) = w_fs w_scratch /\
  fst (splitAudioFile env_probe_fails "/tmp/F1.mp3" "/tmp/F1_segments" 300
         w_scratch)
  = Throw (mkError ("FFprobe failed: "
                    +:+ "Invalid data found when processing input")).
Proof.
  apply (splitAudioFile_probe_failure_stops
           env_probe_fails "/tmp/F1.mp3" "/tmp/F1_segments" 300%N w_scratch
           (mkError "Invalid data found when processing input")).
  reflexivity.
Defined.

(** X9. [splitAudioFile] does not make its output directory: when there is
    no directory at [outputDir], it rejects and the file system is as it
    was. *)
Theorem splitAudioFile_needs_directory env i o d w :
  (forall entries, w_fs w !! o <> Some (Dir entries)) ->
  w_fs (snd (splitAudioFile env i o d w)) = w_fs w /\
  exists e, fst (splitAudioFile env i o d w) = Throw e.
Proof.
  destruct (wp_elim _ _ _ (splitAudioFile_fs env i o d w)) as (_ & Hdir).
  exact Hdir.
Qed.

Lemma splitAudioFile_needs_directory_witness :
  w_fs (snd (splitAudioFile env_split "/tmp/F1.mp3" "/tmp/F1_segments" 300
               w_neighbour)) = w_fs w_neighbour /\
  exists e,
    fst (splitAudioFile env_split "/tmp/F1.mp3" "/tmp/F1_segments" 300
           w_neighbour) = Throw e.
Proof.
  apply (splitAudioFile_needs_directory
           env_split "/tmp/F1.mp3" "/tmp/F1_segments" 300%N w_neighbour).
  intros entries. by vm_compute.
Defined.

(** ** What a run posts *)

(** What one run contributes to the handler. *)
Lemma processAudioFile_summary env file channelId w :
  let calls := calls_during (processAudioFile env file channelId) w in
  (fst <$> downloads calls) = [target file] /\
  said calls = [] /\
  (posted calls = [] \/
   exists text, posted calls = [(channelId, result_text file text)]) /\
  (fst (processAudioFile env file channelId w) = Ok tt -> posted calls <> []).
Proof.
  intros calls. subst calls.
  destruct (processAudioFile_run env file channelId w)
    as (od & body & removals & ls_body & ls_clean & Hcalls & Hbody & Hrem & _).
  rewrite Hcalls. clear Hcalls.
  remember (fst (processAudioFile env file channelId w)) as r eqn:Hr. clear Hr.
  open_run Hbody; observe.
  all: split_and!; try done; eauto.
  all: by destruct failure.
Qed.

(** X11. A run of [processAudioFile] posts at most one message: it goes to
    the channel of the mention and is the heading with the name of the file
    followed by a text; a run that completes has posted it. *)
Theorem processAudioFile_posts_at_most_once env file channelId w :
  let calls := calls_during (processAudioFile env file channelId) w in
  (posted calls = [] \/
   exists text, posted calls = [(channelId, result_text file text)]) /\
  (fst (processAudioFile env file channelId w) = Ok tt -> posted calls <> []).
Proof.
  intros calls.
  by destruct (processAudioFile_summary env file channelId w)
    as (_ & _ & Hposted & Hok).
Qed.

(** ** The handler of a mention *)

Lemma say_spec env text w :
  wp (say env text) w (fun r tr ls w' =>
    exists failure,
      r = completion failure /\ tr = [CallSay text failure] /\ ls = [] /\
      w_fs w' = w_fs w).
Proof.
  wp_open say.
  generalize (say_err env w text). intros failure.
  wp_next call_spec. destruct H as (-> & -> & -> & Hfs).
  apply wp_settle. by exists failure.
Qed.

Lemma console_error_spec label e w :
  wp (console_error label e) w (fun r tr ls w' =>
    r = Ok tt /\ tr = [] /\ w_fs w' = w_fs w).
Proof. exists [], [ConsoleError label e]. simpl. by rewrite app_nil_r. Qed.

Lemma processAudioFile_step env file channelId w :
  wp (processAudioFile env file channelId) w (fun r tr ls w' =>
    (fst <$> downloads tr) = [target file] /\
    said tr = [] /\
    (r = Ok tt -> exists text, posted tr = [(channelId, result_text file text)])).
Proof.
  pose proof (processAudioFile_summary env file channelId w)
    as (Hdl & Hsaid & Hposted & Hok).
  destruct (processAudioFile_spec env file channelId w) as (tr & ls & Hc & Hl & _).
  exists tr, ls. split; [done|]. split; [done|].
  unfold calls_during in *. rewrite Hc, drop_app_length in *.
  split_and!; try done.
  intros Hr. destruct Hposted as [Hnone|Hone]; [|done]. by destruct (Hok Hr).
Qed.

Lemma processAll_loop env audioFiles channelId w :
  wp (processAll env audioFiles channelId) w (loop_post audioFiles channelId w).
Proof.
  revert w. induction audioFiles as [|file rest IH]; intros w; simpl.
  - apply wp_ret. split_and!; try done.
    + by exists 0.
    + intros _. split; [done|]. by exists [].
  - wp_next processAudioFile_step. destruct H as (Hdl & Hsaid & Hposted).
    destruct r as [[]|e].
    + eapply wp_mono; [apply IH|]. cbv beta.
      intros r tr' ls' w2 (Hsaid' & [k Hk] & _ & Hdone).
      unfold loop_post, said, downloads, posted in *.
      rewrite !select_app, !fmap_app, Hsaid, Hsaid', Hdl.
      split_and!; try done.
      * exists (S k). simpl. by rewrite Hk.
      * intros Hr. destruct (Hdone Hr) as (Hall & texts & Hlen & Hposts).
        destruct (Hposted eq_refl) as [text Hpost].
        rewrite Hall. split; [done|]. exists (text :: texts).
        simpl. by rewrite Hlen, Hpost, Hposts.
    + unfold loop_post, said, downloads in *. split_and!; try done.
      exists 1. simpl. by rewrite Hdl.
Qed.

(** The filter of the handler: on files that all have a [mimetype] it keeps
    those whose type starts with [audio/]; otherwise it throws. *)
Lemma audioFiles_of_typed fs :
  Forall (fun file => is_Some (mimetype file)) fs ->
  audioFiles_of fs
  = Ok (filter (fun file => startsWith (default "" (mimetype file)) "audio/" = true)
          fs).
Proof.
  induction 1 as [|file rest [type Htype] _ IH]; simpl; [done|].
  rewrite Htype, IH. simpl. rewrite filter_cons. simpl.
  rewrite Htype. simpl. by destruct (startsWith type "audio/").
Qed.

Lemma audioFiles_of_untyped fs :
  ~ Forall (fun file => is_Some (mimetype file)) fs ->
  audioFiles_of fs = Throw TypeError_startsWith.
Proof.
  induction fs as [|file rest IH]; simpl; intros Hsome.
  - by destruct Hsome.
  - destruct (mimetype file) as [type|] eqn:Htype; [|done].
    rewrite IH; [done|]. intros Hrest. apply Hsome. constructor; [|done].
    by rewrite Htype.
Qed.

Lemma filter_error_notice event error :
  filter_error event = Some error ->
  error = TypeError_startsWith /\ first_notice event = MSG_NO_AUDIO /\
  audio_of event = [].
Proof.
  unfold filter_error, first_notice, audio_of.
  destruct (files event) as [[|f0 fs]|]; [done| |done].
  destruct (decide (Forall (fun file => is_Some (mimetype file)) (f0 :: fs)))
    as [Hall|Hsome].
  - by rewrite (audioFiles_of_typed _ Hall).
  - rewrite (audioFiles_of_untyped _ Hsome). by intros [= <-].
Qed.

(** The branches that only say a notice. *)
Lemma notice_spec env event w w0 :
  w_fs w0 = w_fs w ->
  filter_error event = None ->
  audio_of event = [] ->
  wp (say env (first_notice event)) w0 (handler_try_post event w).
Proof.
  intros Hfs0 Hfilter Haudio.
  eapply wp_mono; [apply say_spec|]. cbv beta.
  intros r1 tr1 ls1 w1 (failure & -> & -> & -> & Hfs1).
  unfold handler_try_post. rewrite Hfilter.
  exists failure, []. rewrite Haudio.
  split; [done|]. destruct failure as [e|].
  { split_and!; try done. by rewrite Hfs1. }
  split_and!; try done.
  - by exists 0.
  - intros _. split_and!; try done. by rewrite Hfs1.
  - intros _. split; [done|]. by exists [].
Qed.

Lemma handler_try_spec env event w w0 :
  w_fs w0 = w_fs w ->
  wp (match files event with
      | Some ((_ :: _) as fs) =>
          audioFiles <- settle_with (audioFiles_of fs) ;;
          match audioFiles with
          | _ :: _ =>
              say env MSG_STARTED ;;;
              processAll env audioFiles (channel event)
          | [] => say env MSG_NO_AUDIO
          end
      | _ => say env MSG_HELLO
      end) w0 (handler_try_post event w).
Proof.
  intros Hfs0.
  destruct (files event) as [[|f0 fs]|] eqn:Hfiles.
  - replace MSG_HELLO with (first_notice event)
      by (unfold first_notice; by rewrite Hfiles).
    apply notice_spec; [done| |]; unfold filter_error, audio_of;
      by rewrite Hfiles.
  - destruct (audioFiles_of (f0 :: fs)) as [[|a audio]|error] eqn:Haudio.
    + rewrite bind_settle_with_ok.
      replace MSG_NO_AUDIO with (first_notice event)
        by (unfold first_notice, audio_of; by rewrite Hfiles, Haudio).
      apply notice_spec; [done| |]; unfold filter_error, audio_of;
        by rewrite Hfiles, Haudio.
    + rewrite bind_settle_with_ok.
      assert (first_notice event = MSG_STARTED) as Hnotice
        by (unfold first_notice, audio_of; by rewrite Hfiles, Haudio).
      assert (audio_of event = a :: audio) as Hof
        by (unfold audio_of; by rewrite Hfiles, Haudio).
      assert (filter_error event = None) as Hfilter
        by (unfold filter_error; by rewrite Hfiles, Haudio).
      unfold handler_try_post. rewrite Hfilter.
      wp_next say_spec. destruct H as (failure & -> & -> & -> & Hfs1).
      destruct failure as [e|].
      { exists (Some e), []. rewrite Hnotice. split_and!; try done.
        by rewrite Hfs1, Hfs0. }
      eapply wp_mono;
        [apply (processAll_loop env (a :: audio) (channel event) w1)|].
      cbv beta.
      intros r2 tr2 ls2 w2 (Hsaid & Hk & Hnil & Hdone).
      exists None, tr2. rewrite Hnotice, Hof. split_and!; try done.
    + assert (filter_error event = Some error) as Hfilter
        by (unfold filter_error; by rewrite Hfiles, Haudio).
      exists [], []. unfold handler_try_post. rewrite Hfilter. simpl.
      by rewrite !app_nil_r.
  - replace MSG_HELLO with (first_notice event)
      by (unfold first_notice; by rewrite Hfiles).
    apply notice_spec; [done| |]; unfold filter_error, audio_of;
      by rewrite Hfiles.
Qed.

Lemma app_mention_spec env event w :
  wp (app_mention env event) w (handler_post event w).
Proof.
  unfold app_mention.
  wp_next console_log_spec. destruct H as (-> & -> & _ & Hfs0).
  eapply wp_try_catch; [by apply (handler_try_spec env event w)|].
  cbv beta. intros r1 tr1 ls1 w1 Htry.
  destruct r1 as [[]|e].
  - exists (Ok tt), tr1, [], ls1, w1. rewrite app_nil_r. by split_and!.
  - wp_next console_error_spec. destruct H as (-> & -> & Hfs2).
    eapply wp_mono; [apply say_spec|]. cbv beta.
    intros r3 tr3 ls3 w3 (failure' & -> & -> & -> & Hfs3).
    exists (Throw e), tr1, [CallSay MSG_FAILED failure'], ls1, w1.
    split_and!; try done.
    + by rewrite Hfs3, Hfs2.
    + by exists failure'.
Qed.

Lemma handler_run env event w :
  handler_post event w
    (fst (app_mention env event w))
    (calls_during (app_mention env event) w)
    (console_during (app_mention env event) w)
    (snd (app_mention env event w)).
Proof. apply wp_elim, app_mention_spec. Qed.

(** A mention with an audio file and a file without [mimetype]: the filter
    throws, nothing is downloaded, and the handler logs the error and says
    the failure notice. *)
Example untyped_file_fails_the_handler :
  calls_during (app_mention env_small mention_untyped) w_empty
  = [CallSay MSG_FAILED None] /\
  console_during (app_mention env_small mention_untyped) w_empty
  = [ConsoleLog "App mention event received:" "";
     ConsoleError "Error in app_mention event handler:" TypeError_startsWith] /\
  fst (app_mention env_small mention_untyped w_empty) = Ok tt.
Proof. by vm_compute. Qed.

(** X13. When every file of the mention has a [mimetype], the first call
    of the handler says the notice for the mention: the greeting without
    files, the refusal without audio file, the start otherwise; the handler
    says nothing else but, last, the failure notice.  When a file has no
    [mimetype], the filter throws before anything is said: the only call of
    the handler says the failure notice. *)
Theorem handler_says_notice_first env event w :
  let calls := calls_during (app_mention env event) w in
  match filter_error event with
  | None =>
      (exists failure rest, calls = CallSay (first_notice event) failure :: rest) /\
      (said calls = [first_notice event] \/
       said calls = [first_notice event; MSG_FAILED])
  | Some error =>
      error = TypeError_startsWith /\
      exists failure,
        calls = [CallSay MSG_FAILED failure] /\
        fst (app_mention env event w) = completion failure
  end.
Proof.
  intros calls. subst calls.
  destruct (handler_run env event w)
    as (r0 & body & rest & ls0 & w1 & -> & Htry & _ & Hrest).
  unfold handler_try_post in Htry.
  destruct (filter_error event) as [error|] eqn:Hfilter.
  - destruct (filter_error_notice event error Hfilter) as (-> & _).
    destruct Htry as (-> & -> & _). destruct Hrest as (failure' & -> & ->).
    split; [done|]. by exists failure'.
  - destruct Htry as (failure & body' & -> & Htry).
    split; [by exists failure, (body' ++ rest)|].
    assert (said body' = []) as Hsaid.
    { destruct failure as [e|]; [by destruct Htry as (-> & _)|].
      by destruct Htry as (? & _). }
    unfold said in *. rewrite select_app, select_cons, Hsaid. cbv beta iota.
    destruct r0 as [[]|e].
    + destruct Hrest as [-> _]. by left.
    + destruct Hrest as (failure' & -> & _). by right.
Qed.

(** X14. For a mention without audio file the handler only speaks: it
    downloads nothing and leaves the file system as it is.  When every file
    has a [mimetype] it says the notice, and the failure notice when that
    was rejected; when a file has no [mimetype] it says the failure notice
    only. *)
Theorem handler_without_audio_only_says env event w :
  audio_of event = [] ->
  let calls := calls_during (app_mention env event) w in
  w_fs (snd (app_mention env event w)) = w_fs w /\
  match filter_error event with
  | None =>
      (calls = [CallSay (first_notice event) None] /\
       fst (app_mention env event w) = Ok tt) \/
      exists e failure',
        calls = [CallSay (first_notice event) (Some e);
                 CallSay MSG_FAILED failure'] /\
        fst (app_mention env event w) = completion failure'
  | Some _ =>
      exists failure',
        calls = [CallSay MSG_FAILED failure'] /\
        fst (app_mention env event w) = completion failure'
  end.
Proof.
  intros Haudio calls. subst calls.
  destruct (handler_run env event w)
    as (r0 & body & rest & ls0 & w1 & -> & Htry & -> & Hrest).
  unfold handler_try_post in Htry.
  destruct (filter_error event) as [error|].
  - destruct Htry as (-> & -> & ->). destruct Hrest as (failure' & -> & ->).
    split; [done|]. by exists failure'.
  - destruct Htry as (failure & body' & -> & Htry).
    destruct failure as [e|].
    + destruct Htry as (-> & -> & ->). destruct Hrest as (failure' & -> & ->).
      split; [done|]. right. by exists e, failure'.
    + destruct Htry as (_ & _ & Hnil & _).
      destruct (Hnil Haudio) as (-> & -> & ->). destruct Hrest as [-> ->].
      split; [done|]. by left.
Qed.

Lemma handler_without_audio_only_says_witness :
  w_fs (snd (app_mention env_small mention_untyped w_neighbour)) = w_fs w_neighbour /\
  exists failure',
    calls_during (app_mention env_small mention_untyped) w_neighbour
    = [CallSay MSG_FAILED failure'] /\
    fst (app_mention env_small mention_untyped w_neighbour) = completion failure'.
Proof.
  apply (handler_without_audio_only_says env_small mention_untyped w_neighbour).
  reflexivity.
Defined.

(** X15. No error of the processing leaves the handler: it throws only
    when its last call, saying the failure notice, is rejected, and then it
    throws that rejection. *)
Theorem handler_throws_only_failure_notice_error env event w e :
  fst (app_mention env event w) = Throw e ->
  last (calls_during (app_mention env event) w)
  = Some (CallSay MSG_FAILED (Some e)).
Proof.
  intros Hthrow.
  destruct (handler_run env event w)
    as (r0 & body & rest & ls0 & w1 & -> & _ & _ & Hrest).
  rewrite Hthrow in Hrest. destruct r0 as [[]|e0].
  - by destruct Hrest as [_ ?].
  - destruct Hrest as (failure' & -> & Hr).
    rewrite last_snoc.
    destruct failure' as [e'|]; simpl in Hr; [by injection Hr as ->|discriminate Hr].
Qed.

Lemma handler_throws_only_failure_notice_error_witness :
  last (calls_during (app_mention env_say_fails mention_no_audio) w_empty)
  = Some (CallSay MSG_FAILED (Some channel_not_found)).
Proof.
  apply (handler_throws_only_failure_notice_error
           env_say_fails mention_no_audio w_empty channel_not_found).
  reflexivity.
Defined.

(** X16. The handler downloads audio files only, each to its own temp
    file, in the order of the mention and without a gap: what it downloads
    is a prefix of the audio files of the mention. *)
Theorem handler_downloads_audio_files_in_order env event w :
  exists k,
    (fst <$> downloads (calls_during (app_mention env event) w))
    = target <$> take k (audio_of event).
Proof.
  destruct (handler_run env event w)
    as (r0 & body & rest & ls0 & w1 & -> & Htry & _ & Hrest).
  assert (downloads rest = []) as Hrest'.
  { destruct r0 as [[]|e].
    - by destruct Hrest as [-> _].
    - by destruct Hrest as (failure' & -> & _). }
  unfold handler_try_post in Htry.
  destruct (filter_error event) as [error|].
  { destruct Htry as (_ & -> & _). exists 0. by rewrite app_nil_l, Hrest'. }
  destruct Htry as (failure & body' & -> & Htry).
  unfold downloads in *. rewrite select_app, select_cons, Hrest', app_nil_r.
  cbv beta iota.
  destruct failure as [e|].
  - destruct Htry as (-> & _). by exists 0.
  - by destruct Htry as (_ & Hk & _).
Qed.

(** X17. When the handler says nothing but its first notice, it completes
    and every audio file of the mention was downloaded and answered: one
    result per file is posted to the channel of the mention, in the order
    of the files, each under the name of its file. *)
Theorem handler_without_failure_notice_posts_every_result env event w :
  said (calls_during (app_mention env event) w) = [first_notice event] ->
  fst (app_mention env event w) = Ok tt /\
  (fst <$> downloads (calls_during (app_mention env event) w))
  = target <$> audio_of event /\
  exists texts,
    length texts = length (audio_of event) /\
    posted (calls_during (app_mention env event) w)
    = zip_with (fun file text => (channel event, result_text file text))
        (audio_of event) texts.
Proof.
  destruct (handler_run env event w)
    as (r0 & body & rest & ls0 & w1 & -> & Htry & _ & Hrest).
  unfold handler_try_post in Htry.
  destruct (filter_error event) as [error|] eqn:Hfilter.
  { destruct (filter_error_notice event error Hfilter) as (_ & -> & _).
    destruct Htry as (-> & -> & _). destruct Hrest as (failure' & -> & _).
    intros [=]. }
  destruct Htry as (failure & body' & -> & Htry).
  assert (said body' = []) as Hsaid.
  { destruct failure as [e|]; [by destruct Htry as (-> & _)|].
    by destruct Htry as (? & _). }
  unfold said in *. rewrite select_app, select_cons, Hsaid. cbv beta iota.
  intros Honly.
  destruct r0 as [[]|e].
  2:{ destruct Hrest as (failure' & -> & _). discriminate Honly. }
  destruct Hrest as [-> ->]. split; [done|].
  destruct failure as [e|]; [by destruct Htry as (_ & ? & _)|].
  destruct Htry as (_ & _ & _ & Hdone).
  destruct (Hdone eq_refl) as (Hall & texts & Hlen & Hposts).
  unfold downloads, posted in *.
  rewrite !app_nil_r, !select_cons. cbv beta iota.
  split; [done|]. by exists texts.
Qed.

Lemma handler_without_failure_notice_posts_every_result_witness :
  fst (app_mention env_small mention_talk w_empty) = Ok tt /\
  (fst <$> downloads (calls_during (app_mention env_small mention_talk) w_empty))
  = target <$> audio_of mention_talk /\
  exists texts,
    length texts = length (audio_of mention_talk) /\
    posted (calls_during (app_mention env_small mention_talk) w_empty)
    = zip_with (fun file text => (channel mention_talk, result_text file text))
        (audio_of mention_talk) texts.
Proof.
  apply (handler_without_failure_notice_posts_every_result
           env_small mention_talk w_empty).
  reflexivity.
Defined.

Lemma processAudioFile_posts_at_most_once_witness :
  posted (calls_during (processAudioFile env_small talk "C024BE91L") w_empty) <> [].
Proof.
  apply (proj2 (processAudioFile_posts_at_most_once
                  env_small talk "C024BE91L" w_empty)).
  reflexivity.
Defined.

